(** * A streaming pipeline of goroutines: producer, step, Merge, sink

    Shallow embedding of [main.go].  Every goroutine of the program is a
    small machine: a program counter with its local variables, and a step
    function that says which events the goroutine can take at that point.
    An event is one of the places where the Go code touches its
    surroundings: a [select] branch, a channel send or receive, a [close],
    a semaphore or wait-group operation.  Channels are unbuffered, so a send
    and the matching receive are one joint event; the assembled program
    ([main]) pairs the events of the machines it wires together.

    Part I holds the definitions, Part II the properties. *)

From Stdlib Require Import ZArith Ascii String.
From stdpp Require Import base list strings.

Local Open Scope string_scope.
Local Open Scope list_scope.
Local Open Scope nat_scope.

(** ** Part I. Definitions *)

(** *** Runs of a machine *)

Section Runs.
Context {St Ev : Type} (step : Ev → St → option St).

(** [exec s tr] fires the events of [tr] one after the other from [s]. *)
Fixpoint exec (s : St) (tr : list Ev) : option St :=
  match tr with
  | [] => Some s
  | e :: tr' =>
      match step e s with
      | Some s' => exec s' tr'
      | None => None
      end
  end.

Definition enabled (e : Ev) (s : St) : Prop := is_Some (step e s).

End Runs.

(** Go's [error] interface: [None] is [nil], [Some msg] an error whose
    [Error()] string is [msg]. *)
Definition error : Type := option string.

(** *** producer (main.go, lines 14-36) *)

Inductive ProducerPc : Type :=
  | PRange      (* in [for _, s := range strings], at the [select] *)
  | PDeferred   (* left the loop or returned; [defer close(outChannel)] due *)
  | PExited.    (* goroutine finished *)

#[global] Instance ProducerPc_eq_dec : EqDecision ProducerPc.
Proof. solve_decision. Defined.

Record ProducerState : Type := MkProducer {
  p_pc : ProducerPc;
  p_rest : list string;     (* items the range has not reached yet *)
  p_closed : bool           (* outChannel has been closed *)
}.

Inductive ProducerEvent : Type :=
  | PCtxDone                (* [case <-ctx.Done(): return] *)
  | PSend (s : string)      (* [case outChannel <- s:] taken by a receiver *)
  | PRangeEnd               (* the range is exhausted *)
  | PClose.                 (* the deferred [close(outChannel)] *)

Definition producer_step (ev : ProducerEvent) (st : ProducerState)
  : option ProducerState :=
  match p_pc st, ev, p_rest st with
  | PRange, PSend s, x :: rest =>
      if decide (s = x) then Some (MkProducer PRange rest (p_closed st))
      else None
  | PRange, PCtxDone, _ :: _ =>
      Some (MkProducer PDeferred (p_rest st) (p_closed st))
  | PRange, PRangeEnd, [] =>
      Some (MkProducer PDeferred [] (p_closed st))
  | PDeferred, PClose, _ =>
      if p_closed st then None   (* close of a closed channel panics *)
      else Some (MkProducer PExited (p_rest st) true)
  | _, _, _ => None
  end.

(** [producer ctx strings] returns the channel, fed by the goroutine in its
    initial state, and a nil error. *)
Definition producer (strings : list string) : ProducerState * error :=
  (MkProducer PRange strings false, None).

Definition producer_sends (tr : list ProducerEvent) : list string :=
  omap (λ ev, match ev with PSend s => Some s | _ => None end) tr.

Definition producer_closes (tr : list ProducerEvent) : nat :=
  length (omap (λ ev, match ev with PClose => Some () | _ => None end) tr).

(** *** sink (main.go, lines 38-60) *)

Inductive SinkPc : Type :=
  | KSelect      (* at the [select] of the [for] loop *)
  | KReturned.   (* [return] executed *)

(** What the sink does to the outside: lines handed to [log] (without the
    logger's time stamp and final newline) and calls of [cancelFunc]. *)
Inductive SinkEffect : Type :=
  | KLog (line : string)
  | KCancel.

Record SinkState : Type := MkSink {
  k_pc : SinkPc;
  k_effects : list SinkEffect    (* oldest first *)
}.

Inductive SinkEvent : Type :=
  | KCtxDone (cause : string)      (* [case <-ctx.Done()]; [cause] is [ctx.Err().Error()] *)
  | KRecvErr (err : error)         (* [case err := <-errors]; a closed channel yields nil *)
  | KRecvVal (val : option string). (* [case val, ok := <-values]; [None] is [ok = false] *)

Definition sink_step (ev : SinkEvent) (st : SinkState) : option SinkState :=
  match k_pc st with
  | KReturned => None
  | KSelect =>
      match ev with
      | KCtxDone cause =>
          Some (MkSink KReturned (k_effects st ++ [KLog cause]))
      | KRecvErr (Some msg) =>
          (* log.Println("error: ", err.Error()); cancelFunc() *)
          Some (MkSink KSelect (k_effects st ++ [KLog ("error:  " +:+ msg); KCancel]))
      | KRecvErr None => Some st
      | KRecvVal (Some val) =>
          Some (MkSink KSelect (k_effects st ++ [KLog ("sink: " +:+ val)]))
      | KRecvVal None =>
          Some (MkSink KReturned (k_effects st ++ [KLog "done"]))
      end
  end.

Definition sink_init : SinkState := MkSink KSelect [].

(** The event ends the loop: the results stream is closed, or cancellation
    is observed. *)
Definition sink_final_event (ev : SinkEvent) : bool :=
  match ev with
  | KCtxDone _ | KRecvVal None => true
  | _ => false
  end.

(** *** golang.org/x/sync/semaphore, as far as [step] uses it *)

(** The two counters of [semaphore.Weighted].  Only the loop goroutine of a
    stage ever acquires, so the list of waiters is left out. *)
Record Weighted : Type := MkWeighted {
  size : Z;
  cur : Z
}.

Definition NewWeighted (n : Z) : Weighted := MkWeighted n 0.

(** [Acquire(ctx, n)] returns nil once [n] more fit in; until then it blocks
    (no result).  The failing return, with [ctx.Err()], needs [ctx] done and
    leaves the counters alone; it is an event of its own in the machines. *)
Definition Acquire (n : Z) (s : Weighted) : option Weighted :=
  if decide (cur s + n ≤ size s)%Z then Some (MkWeighted (size s) (cur s + n))
  else None.

(** [Release(n)] gives [n] back.  It would panic on a counter below zero,
    which a stage never reaches: each release is by a worker that holds a
    permit ([pool_inv] in Part II). *)
Definition Release (n : Z) (s : Weighted) : Weighted :=
  MkWeighted (size s) (cur s - n).

(** *** step (main.go, lines 62-115) *)

Section Step.
Context {In Out : Type} `{!EqDecision Out}.

(** A worker goroutine, [go func(s In) {...}(s)].  The machine has no
    clock: [time.Sleep(time.Second * 3)] is a delay of any length, so the
    runs of the machine are those of the program and, beside them, runs in
    which one worker sleeps longer than others do. *)
Inductive Worker : Type :=
  | WStart (s : In)             (* started, in [time.Sleep] *)
  | WCalling (s : In)           (* inside [fn(s)] *)
  | WSending (r : Out * error)  (* [fn] returned [r]; at the send *)
  | WDeferred                   (* send done; deferred [sem1.Release(1)] due *)
  | WExited.

(** The loop goroutine of the stage. *)
Inductive StagePc : Type :=
  | SSelect             (* at the [select] of the [for] loop *)
  | SAcquire (s : In)   (* read [s] with [ok]; in [sem1.Acquire(ctx, 1)] *)
  | SDrain              (* input closed; in [sem1.Acquire(ctx, limit)] *)
  | SDeferErr           (* returned; deferred [close(errorChannel)] due *)
  | SDeferOut           (* then the deferred [close(outputChannel)] *)
  | SExited.

Record StageState : Type := MkStage {
  st_pc : StagePc;
  st_limit : Z;                 (* the local [limit] *)
  st_sem : Weighted;            (* [sem1] *)
  st_workers : list Worker;     (* in the order they were started *)
  st_out_closed : bool;         (* [outputChannel] closed *)
  st_err_closed : bool;         (* [errorChannel] closed *)
  st_panicked : bool            (* a goroutine panicked: the program is dead *)
}.

Inductive StageEvent : Type :=
  | SCtxDone                    (* loop: [case <-ctx.Done(): break] *)
  | SRecv (x : option In)       (* loop: [case s, ok := <-inputChannel] *)
  | SAcquired                   (* loop: the pending [Acquire] returns nil *)
  | SAcquireFailed              (* loop: the pending [Acquire] returns [ctx.Err()] *)
  | SCloseErr                   (* loop: deferred [close(errorChannel)] *)
  | SCloseOut                   (* loop: deferred [close(outputChannel)] *)
  | SCall (w : nat)             (* worker [w]: sleep over, [fn(s)] entered *)
  | SCallReturn (w : nat)       (* worker [w]: [fn(s)] returns *)
  | SSendOut (w : nat) (y : Out)      (* worker [w]: [outputChannel <- result] taken *)
  | SSendErr (w : nat) (e : string)   (* worker [w]: [errorChannel <- err] taken *)
  | SSendPanic (w : nat)        (* worker [w]: its send finds the channel closed *)
  | SRelease (w : nat).         (* worker [w]: deferred [sem1.Release(1)], exit *)

Definition set_pc (pc : StagePc) (st : StageState) : StageState :=
  MkStage pc (st_limit st) (st_sem st) (st_workers st)
          (st_out_closed st) (st_err_closed st) (st_panicked st).

Definition set_worker (w : nat) (x : Worker) (st : StageState) : StageState :=
  MkStage (st_pc st) (st_limit st) (st_sem st) (<[w:=x]> (st_workers st))
          (st_out_closed st) (st_err_closed st) (st_panicked st).

Variable fn : In → Out * error.

(** The loop goroutine.  [break] inside a [select] leaves the [select], not
    the enclosing [for]: after [SCtxDone], and after a failed [Acquire(ctx, 1)],
    the loop is back at its [select].  The line logged on a failed Acquire is
    not part of the state. *)
Definition stage_loop_step (ev : StageEvent) (st : StageState)
  : option StageState :=
  match st_pc st, ev with
  | SSelect, SCtxDone => Some (set_pc SSelect st)
  | SSelect, SRecv (Some s) => Some (set_pc (SAcquire s) st)
  | SSelect, SRecv None => Some (set_pc SDrain st)
  | SAcquire s, SAcquired =>
      sem ← Acquire 1 (st_sem st);
      Some (MkStage SSelect (st_limit st) sem (st_workers st ++ [WStart s])
                    (st_out_closed st) (st_err_closed st) (st_panicked st))
  | SAcquire s, SAcquireFailed => Some (set_pc SSelect st)
  | SDrain, SAcquired =>
      sem ← Acquire (st_limit st) (st_sem st);
      Some (MkStage SDeferErr (st_limit st) sem (st_workers st)
                    (st_out_closed st) (st_err_closed st) (st_panicked st))
  | SDrain, SAcquireFailed => Some (set_pc SDeferErr st)
  | SDeferErr, SCloseErr =>
      if st_err_closed st then None
      else Some (MkStage SDeferOut (st_limit st) (st_sem st) (st_workers st)
                         (st_out_closed st) true (st_panicked st))
  | SDeferOut, SCloseOut =>
      if st_out_closed st then None
      else Some (MkStage SExited (st_limit st) (st_sem st) (st_workers st)
                         true (st_err_closed st) (st_panicked st))
  | _, _ => None
  end.

(** The channel a worker at its send is sending on: [errorChannel] when
    [err != nil], [outputChannel] otherwise. *)
Definition send_target_closed (r : Out * error) (st : StageState) : bool :=
  match r.2 with
  | Some _ => st_err_closed st
  | None => st_out_closed st
  end.

Definition stage_worker_step (ev : StageEvent) (st : StageState)
  : option StageState :=
  match ev with
  | SCall w =>
      match st_workers st !! w with
      | Some (WStart s) => Some (set_worker w (WCalling s) st)
      | _ => None
      end
  | SCallReturn w =>
      match st_workers st !! w with
      | Some (WCalling s) => Some (set_worker w (WSending (fn s)) st)
      | _ => None
      end
  | SSendOut w y =>
      match st_workers st !! w with
      | Some (WSending (result, None)) =>
          if decide (y = result) then
            if st_out_closed st then None
            else Some (set_worker w WDeferred st)
          else None
      | _ => None
      end
  | SSendErr w e =>
      match st_workers st !! w with
      | Some (WSending (_, Some err)) =>
          if decide (e = err) then
            if st_err_closed st then None
            else Some (set_worker w WDeferred st)
          else None
      | _ => None
      end
  | SSendPanic w =>
      match st_workers st !! w with
      | Some (WSending r) =>
          if send_target_closed r st then
            Some (MkStage (st_pc st) (st_limit st) (st_sem st) (st_workers st)
                          (st_out_closed st) (st_err_closed st) true)
          else None
      | _ => None
      end
  | SRelease w =>
      match st_workers st !! w with
      | Some WDeferred =>
          Some (MkStage (st_pc st) (st_limit st) (Release 1 (st_sem st))
                        (<[w:=WExited]> (st_workers st))
                        (st_out_closed st) (st_err_closed st) (st_panicked st))
      | _ => None
      end
  | _ => None
  end.

Definition stage_step (ev : StageEvent) (st : StageState)
  : option StageState :=
  if st_panicked st then None
  else match ev with
       | SCtxDone | SRecv _ | SAcquired | SAcquireFailed
       | SCloseErr | SCloseOut => stage_loop_step ev st
       | _ => stage_worker_step ev st
       end.

(** The stage as [step] leaves it when it returns its two channels, for a
    permit pool of [limit] units. *)
Definition stage_start (limit : Z) : StageState :=
  MkStage SSelect limit (NewWeighted limit) [] false false false.

(** Workers inside [fn]. *)
Definition calling (w : Worker) : bool :=
  match w with WCalling _ => true | _ => false end.

Definition active_calls (st : StageState) : nat :=
  length (List.filter calling (st_workers st)).

(** Workers that hold a permit: every one that has not exited. *)
Definition holding (w : Worker) : bool :=
  match w with WExited => false | _ => true end.

Definition permits_held (st : StageState) : nat :=
  length (List.filter holding (st_workers st)).

Definition stage_closes_out (tr : list StageEvent) : nat :=
  length (omap (λ ev, match ev with SCloseOut => Some () | _ => None end) tr).

Definition stage_closes_err (tr : list StageEvent) : nat :=
  length (omap (λ ev, match ev with SCloseErr => Some () | _ => None end) tr).

Definition stage_recvs (tr : list StageEvent) : list In :=
  omap (λ ev, match ev with SRecv (Some x) => Some x | _ => None end) tr.

(** What a worker sends for a result of [fn]: the error on [errorChannel]
    when [err != nil], else the value on [outputChannel]. *)
Definition outcome (r : Out * error) : Out + string :=
  match r.2 with
  | Some e => inr e
  | None => inl r.1
  end.

(** What the stage has sent, on either channel, oldest first. *)
Definition stage_sent (tr : list StageEvent) : list (Out + string) :=
  omap (λ ev, match ev with
              | SSendOut _ y => Some (inl y)
              | SSendErr _ e => Some (inr e)
              | _ => None
              end) tr.

End Step.

(** The event is worker [w] getting its result or its error across. *)
Definition is_send_of {In Out : Type} (w : nat) (ev : @StageEvent In Out) : bool :=
  match ev with
  | SSendOut w' _ | SSendErr w' _ => bool_decide (w' = w)
  | _ => false
  end.

(** [limit := int64(2)]. *)
Definition limit : Z := 2.

(** [step(ctx, inputChannel, fn)]: the stage behind the two channels it
    returns.  It has no parameter for the size of the pool. *)
Definition step {In Out : Type} : @StageState In Out := stage_start limit.

(** Stage construction in the words of the specification, to compare [step]
    with: the caller passes the parallelism [K]; [K <= 0] is a configuration
    error ([None]), otherwise the stage starts with a pool of [K] permits. *)
Definition spec_stage_construction {In Out : Type} (K : Z)
  : option (@StageState In Out) :=
  if decide (K ≤ 0)%Z then None else Some (stage_start K).

(** *** Merge (main.go, lines 117-143) *)

(** The entries of a list of tagged items that carry tag [i]. *)
Definition select_tag {A : Type} (i : nat) (l : list (nat * A)) : list A :=
  omap (λ p, if decide (p.1 = i) then Some p.2 else None) l.

Section Merge.
Context {T : Type} `{!EqDecision T}.

(** A forwarder goroutine, [go output(c)]. *)
Inductive ForwarderPc : Type :=
  | FRange            (* at [for n := range c] *)
  | FSelect (n : T)   (* got [n]; at the [select] *)
  | FDeferred         (* range over or returned; deferred [wg.Done()] due *)
  | FExited.

(** The goroutine that waits and closes. *)
Inductive CloserPc : Type :=
  | CWait      (* in [wg.Wait()] *)
  | CClose     (* [wg.Wait()] returned; at [close(out)] *)
  | CExited.

Record MergeState : Type := MkMerge {
  m_forwarders : list ForwarderPc;   (* one per channel of [cs] *)
  m_wg : Z;                          (* counter of [wg] *)
  m_closer : CloserPc;
  m_closed : bool                    (* [out] closed *)
}.

Inductive MergeEvent : Type :=
  | MRecv (i : nat) (n : option T)   (* forwarder [i]: the range receives [n], or finds [c] closed *)
  | MSend (i : nat) (n : T)          (* forwarder [i]: [case out <- n:] taken *)
  | MCtxDone (i : nat)               (* forwarder [i]: [case <-ctx.Done(): return] *)
  | MWgDone (i : nat)                (* forwarder [i]: deferred [wg.Done()] *)
  | MWaitReturn                      (* closer: [wg.Wait()] returns *)
  | MClose.                          (* closer: [close(out)] *)

Definition set_forwarder (i : nat) (pc : ForwarderPc) (st : MergeState)
  : MergeState :=
  MkMerge (<[i:=pc]> (m_forwarders st)) (m_wg st) (m_closer st) (m_closed st).

Definition merge_step (ev : MergeEvent) (st : MergeState) : option MergeState :=
  match ev with
  | MRecv i n =>
      match m_forwarders st !! i with
      | Some FRange =>
          Some (set_forwarder i (match n with
                                 | Some x => FSelect x
                                 | None => FDeferred
                                 end) st)
      | _ => None
      end
  | MSend i n =>
      match m_forwarders st !! i with
      | Some (FSelect x) =>
          if decide (n = x) then
            if m_closed st then None   (* send on a closed channel *)
            else Some (set_forwarder i FRange st)
          else None
      | _ => None
      end
  | MCtxDone i =>
      match m_forwarders st !! i with
      | Some (FSelect _) => Some (set_forwarder i FDeferred st)
      | _ => None
      end
  | MWgDone i =>
      match m_forwarders st !! i with
      | Some FDeferred =>
          Some (MkMerge (<[i:=FExited]> (m_forwarders st)) (m_wg st - 1)
                        (m_closer st) (m_closed st))
      | _ => None
      end
  | MWaitReturn =>
      match m_closer st with
      | CWait =>
          if decide (m_wg st = 0)%Z then
            Some (MkMerge (m_forwarders st) (m_wg st) CClose (m_closed st))
          else None
      | _ => None
      end
  | MClose =>
      match m_closer st with
      | CClose =>
          if m_closed st then None
          else Some (MkMerge (m_forwarders st) (m_wg st) CExited true)
      | _ => None
      end
  end.

(** [Merge(ctx, cs...)] for [len(cs) = n]: [wg.Add(n)] is done, the [n]
    forwarders and the closer are started. *)
Definition Merge (n : nat) : MergeState :=
  MkMerge (replicate n FRange) (Z.of_nat n) CWait false.

(** Sends on [out] and receives from the channels of [cs], oldest first,
    each with the index of the forwarder. *)
Definition merge_tagged_sends (tr : list MergeEvent) : list (nat * T) :=
  omap (λ ev, match ev with MSend i n => Some (i, n) | _ => None end) tr.

Definition merge_tagged_recvs (tr : list MergeEvent) : list (nat * option T) :=
  omap (λ ev, match ev with MRecv i n => Some (i, n) | _ => None end) tr.

(** Values sent on [out], oldest first. *)
Definition merge_sends (tr : list MergeEvent) : list T :=
  (merge_tagged_sends tr).*2.

(** Values forwarder [i] has sent on [out]. *)
Definition merge_sends_of (i : nat) (tr : list MergeEvent) : list T :=
  select_tag i (merge_tagged_sends tr).

(** What forwarder [i] has got from its channel: values, and [None] for the
    close. *)
Definition merge_recvs_of (i : nat) (tr : list MergeEvent) : list (option T) :=
  select_tag i (merge_tagged_recvs tr).

Definition merge_cancelled (ev : MergeEvent) : bool :=
  match ev with MCtxDone _ => true | _ => false end.

(** The receives of a run follow the input streams: channel [i] delivers the
    items of [xss !! i] in order, then is closed. *)
Definition follows_streams (xss : list (list T)) (tr : list MergeEvent) : Prop :=
  ∀ i xs, xss !! i = Some xs →
    merge_recvs_of i tr `prefix_of` (Some <$> xs) ++ [None].

End Merge.

(** *** transformA, transformB (main.go, lines 145-158) *)

Section Transforms.
(** [strings.ToLower] and [strings.Title] of the Go library. *)
Variables ToLower Title : string → string.

(** The line each transform logs is not part of its result. *)
Definition transformA (s : string) : string * error :=
  (ToLower s, None).

Definition transformB (s : string) : string * error :=
  if decide (s = "foo") then ("", Some "oh no")   (* errors.New("oh no") *)
  else (Title s, None).

End Transforms.

(** The two library functions on ASCII strings, where Go maps byte by byte:
    [ToLower] turns 'A'..'Z' into 'a'..'z'; [Title] turns into upper case
    each letter that follows a separator (any ASCII byte that is not a
    letter, a digit or '_'), the first byte counting as following a space.
    Bytes from 128 on, where Go decodes UTF-8 and uses the Unicode tables,
    are left as they are. *)
Definition is_upper (c : ascii) : bool :=
  (65 <=? nat_of_ascii c) && (nat_of_ascii c <=? 90).

Definition is_lower (c : ascii) : bool :=
  (97 <=? nat_of_ascii c) && (nat_of_ascii c <=? 122).

Definition is_digit (c : ascii) : bool :=
  (48 <=? nat_of_ascii c) && (nat_of_ascii c <=? 57).

Definition lower_byte (c : ascii) : ascii :=
  if is_upper c then ascii_of_nat (nat_of_ascii c + 32) else c.

Definition upper_byte (c : ascii) : ascii :=
  if is_lower c then ascii_of_nat (nat_of_ascii c - 32) else c.

Fixpoint ascii_ToLower (s : string) : string :=
  match s with
  | EmptyString => EmptyString
  | String c s' => String (lower_byte c) (ascii_ToLower s')
  end.

Definition isSeparator (c : ascii) : bool :=
  if nat_of_ascii c <=? 127 then
    negb (is_digit c || is_lower c || is_upper c || (nat_of_ascii c =? 95))
  else false.

Fixpoint title_from (prev : ascii) (s : string) : string :=
  match s with
  | EmptyString => EmptyString
  | String c s' =>
      String (if isSeparator prev then upper_byte c else c) (title_from c s')
  end.

Definition ascii_Title (s : string) : string := title_from " "%char s.

(** *** main (main.go, lines 160-176) *)

(** Events a goroutine can take without a partner on a channel.  The others
    are one half of a hand-over on an unbuffered channel. *)
Definition producer_alone (ev : ProducerEvent) : bool :=
  match ev with PSend _ => false | _ => true end.

Definition stage_alone {In Out : Type} (ev : @StageEvent In Out) : bool :=
  match ev with
  | SRecv (Some _) | SSendOut _ _ | SSendErr _ _ => false
  | _ => true
  end.

Definition merge_alone {T : Type} (ev : @MergeEvent T) : bool :=
  match ev with
  | MRecv _ (Some _) | MSend _ _ => false
  | _ => true
  end.

Definition sink_alone (ev : SinkEvent) : bool :=
  match ev with
  | KCtxDone _ | KRecvErr None | KRecvVal None => true
  | _ => false
  end.

(** What such an event needs from the shared context and from the channel
    it reads: [ctx] cancelled for the [ctx.Done()] branches and the failing
    Acquire, the channel closed for a receive that reports it. *)
Definition producer_guard (cancelled : bool) (ev : ProducerEvent) : bool :=
  match ev with PCtxDone => cancelled | _ => true end.

Definition stage_guard {In Out : Type} (cancelled input_closed : bool)
    (ev : @StageEvent In Out) : bool :=
  match ev with
  | SCtxDone | SAcquireFailed => cancelled
  | SRecv None => input_closed
  | _ => true
  end.

Definition merge_guard {T : Type} (cancelled : bool) (closed : nat → bool)
    (ev : @MergeEvent T) : bool :=
  match ev with
  | MCtxDone _ => cancelled
  | MRecv i None => closed i
  | _ => true
  end.

(** [context.Canceled.Error()]. *)
Definition context_canceled : string := "context canceled".

Definition sink_guard (cancelled errors_closed values_closed : bool)
    (ev : SinkEvent) : bool :=
  match ev with
  | KCtxDone cause => cancelled && bool_decide (cause = context_canceled)
  | KRecvErr None => errors_closed
  | KRecvVal None => values_closed
  | _ => true
  end.

(** Calls of [cancelFunc] the sink has made. *)
Definition sink_cancels (st : SinkState) : nat :=
  length (omap (λ e, match e with KCancel => Some () | _ => None end)
               (k_effects st)).

Section Main.
(** [strings.ToLower] and [strings.Title]. *)
Variables ToLower Title : string → string.

(** The running program: the goroutines started by [main], the context
    [ctx], and whether [main] has returned. *)
Record Pipeline : Type := MkPipeline {
  g_producer : ProducerState;                (* feeds [readStream] *)
  g_step1 : @StageState string string;       (* [step(ctx, readStream, transformA)] *)
  g_step2 : @StageState string string;       (* [step(ctx, step1results, transformB)] *)
  g_merge : @MergeState error;               (* [Merge(ctx, step1errors, step2errors)] *)
  g_sink : SinkState;                        (* [sink], run by [main] itself *)
  g_cancelled : bool;                        (* [cancel] has been called *)
  g_exited : bool                            (* [main] has returned *)
}.

Inductive PipelineEvent : Type :=
  | GProducer (ev : ProducerEvent)       (* the producer alone *)
  | GFeed (s : string)                   (* [readStream]: producer to step 1 *)
  | GStep1 (ev : @StageEvent string string)   (* step 1 alone *)
  | GPass (w : nat) (y : string)         (* [step1results]: worker [w] of step 1 to step 2 *)
  | GStep2 (ev : @StageEvent string string)   (* step 2 alone *)
  | GError1 (w : nat) (e : string)       (* [step1errors]: worker [w] to forwarder 0 *)
  | GError2 (w : nat) (e : string)       (* [step2errors]: worker [w] to forwarder 1 *)
  | GMerge (ev : @MergeEvent error)      (* a goroutine of Merge alone *)
  | GResult (w : nat) (y : string)       (* [step2results]: worker [w] of step 2 to the sink *)
  | GErrorOut (i : nat) (e : error)      (* [allErrors]: forwarder [i] to the sink *)
  | GSink (ev : SinkEvent)               (* the sink alone *)
  | GMainReturn.                         (* [sink] returned: deferred [cancel()], exit *)

(** The input channels of Merge: [step1errors], [step2errors]. *)
Definition errors_closed (g : Pipeline) (i : nat) : bool :=
  match i with
  | 0 => st_err_closed (g_step1 g)
  | 1 => st_err_closed (g_step2 g)
  | _ => false
  end.

Definition pipeline_dead (g : Pipeline) : bool :=
  g_exited g || st_panicked (g_step1 g) || st_panicked (g_step2 g).

Definition pipeline_step (ev : PipelineEvent) (g : Pipeline) : option Pipeline :=
  if pipeline_dead g then None
  else match ev with
  | GProducer pe =>
      if producer_alone pe && producer_guard (g_cancelled g) pe then
        p ← producer_step pe (g_producer g);
        Some (MkPipeline p (g_step1 g) (g_step2 g) (g_merge g) (g_sink g)
                         (g_cancelled g) (g_exited g))
      else None
  | GFeed s =>
      p ← producer_step (PSend s) (g_producer g);
      s1 ← stage_step (transformA ToLower) (SRecv (Some s)) (g_step1 g);
      Some (MkPipeline p s1 (g_step2 g) (g_merge g) (g_sink g)
                       (g_cancelled g) (g_exited g))
  | GStep1 se =>
      if stage_alone se
         && stage_guard (g_cancelled g) (p_closed (g_producer g)) se then
        s1 ← stage_step (transformA ToLower) se (g_step1 g);
        Some (MkPipeline (g_producer g) s1 (g_step2 g) (g_merge g) (g_sink g)
                         (g_cancelled g) (g_exited g))
      else None
  | GPass w y =>
      s1 ← stage_step (transformA ToLower) (SSendOut w y) (g_step1 g);
      s2 ← stage_step (transformB Title) (SRecv (Some y)) (g_step2 g);
      Some (MkPipeline (g_producer g) s1 s2 (g_merge g) (g_sink g)
                       (g_cancelled g) (g_exited g))
  | GStep2 se =>
      if stage_alone se
         && stage_guard (g_cancelled g) (st_out_closed (g_step1 g)) se then
        s2 ← stage_step (transformB Title) se (g_step2 g);
        Some (MkPipeline (g_producer g) (g_step1 g) s2 (g_merge g) (g_sink g)
                         (g_cancelled g) (g_exited g))
      else None
  | GError1 w e =>
      s1 ← stage_step (transformA ToLower) (SSendErr w e) (g_step1 g);
      m ← merge_step (MRecv 0 (Some (Some e))) (g_merge g);
      Some (MkPipeline (g_producer g) s1 (g_step2 g) m (g_sink g)
                       (g_cancelled g) (g_exited g))
  | GError2 w e =>
      s2 ← stage_step (transformB Title) (SSendErr w e) (g_step2 g);
      m ← merge_step (MRecv 1 (Some (Some e))) (g_merge g);
      Some (MkPipeline (g_producer g) (g_step1 g) s2 m (g_sink g)
                       (g_cancelled g) (g_exited g))
  | GMerge me =>
      if merge_alone me && merge_guard (g_cancelled g) (errors_closed g) me then
        m ← merge_step me (g_merge g);
        Some (MkPipeline (g_producer g) (g_step1 g) (g_step2 g) m (g_sink g)
                         (g_cancelled g) (g_exited g))
      else None
  | GResult w y =>
      s2 ← stage_step (transformB Title) (SSendOut w y) (g_step2 g);
      k ← sink_step (KRecvVal (Some y)) (g_sink g);
      Some (MkPipeline (g_producer g) (g_step1 g) s2 (g_merge g) k
                       (g_cancelled g) (g_exited g))
  | GErrorOut i e =>
      m ← merge_step (MSend i e) (g_merge g);
      k ← sink_step (KRecvErr e) (g_sink g);
      Some (MkPipeline (g_producer g) (g_step1 g) (g_step2 g) m k
                       (g_cancelled g
                        || negb (sink_cancels k =? sink_cancels (g_sink g)))
                       (g_exited g))
  | GSink ke =>
      if sink_alone ke
         && sink_guard (g_cancelled g) (m_closed (g_merge g))
                       (st_out_closed (g_step2 g)) ke then
        k ← sink_step ke (g_sink g);
        Some (MkPipeline (g_producer g) (g_step1 g) (g_step2 g) (g_merge g) k
                         (g_cancelled g) (g_exited g))
      else None
  | GMainReturn =>
      match k_pc (g_sink g) with
      | KReturned =>
          Some (MkPipeline (g_producer g) (g_step1 g) (g_step2 g) (g_merge g)
                           (g_sink g) true true)
      | KSelect => None
      end
  end.

(** [main] once everything is wired, for the given [source].  [producer]
    never returns an error, so the [log.Fatal] branch is dead. *)
Definition pipeline_start (source : list string) : option Pipeline :=
  let '(readStream, err) := producer source in
  match err with
  | Some _ => None
  | None => Some (MkPipeline readStream step step (Merge 2) sink_init false false)
  end.

(** The part of a pipeline event that belongs to each goroutine. *)
Definition on_producer (ev : PipelineEvent) : list ProducerEvent :=
  match ev with
  | GProducer pe => if producer_alone pe then [pe] else []
  | GFeed s => [PSend s]
  | _ => []
  end.

Definition on_step1 (ev : PipelineEvent) : list (@StageEvent string string) :=
  match ev with
  | GFeed s => [SRecv (Some s)]
  | GStep1 se => if stage_alone se then [se] else []
  | GPass w y => [SSendOut w y]
  | GError1 w e => [SSendErr w e]
  | _ => []
  end.

Definition on_step2 (ev : PipelineEvent) : list (@StageEvent string string) :=
  match ev with
  | GPass w y => [SRecv (Some y)]
  | GStep2 se => if stage_alone se then [se] else []
  | GError2 w e => [SSendErr w e]
  | GResult w y => [SSendOut w y]
  | _ => []
  end.

Definition on_merge (ev : PipelineEvent) : list (@MergeEvent error) :=
  match ev with
  | GError1 w e => [MRecv 0 (Some (Some e))]
  | GError2 w e => [MRecv 1 (Some (Some e))]
  | GMerge me => if merge_alone me then [me] else []
  | GErrorOut i e => [MSend i e]
  | _ => []
  end.

Definition on_sink (ev : PipelineEvent) : list SinkEvent :=
  match ev with
  | GResult w y => [KRecvVal (Some y)]
  | GErrorOut i e => [KRecvErr e]
  | GSink ke => if sink_alone ke then [ke] else []
  | _ => []
  end.

(** What the sink has received: results, and errors that are not nil. *)
Definition pipeline_results (tr : list PipelineEvent) : list string :=
  omap (λ ev, match ev with GResult _ y => Some y | _ => None end) tr.

Definition pipeline_errors (tr : list PipelineEvent) : list string :=
  omap (λ ev, match ev with GErrorOut _ (Some e) => Some e | _ => None end) tr.

End Main.

(** [source := []string{"FOO", "BAR", "BAX"}]. *)
Definition source : list string := ["FOO"; "BAR"; "BAX"].

(** *** Invariants and accounts used in Part II *)

Definition bool_weight (b : bool) : nat := if b then 1 else 0.

(** How the goroutine left its loop, read off the items it did not send. *)
Definition producer_leave (rest : list string) : ProducerEvent :=
  match rest with [] => PRangeEnd | _ :: _ => PCtxDone end.

Definition producer_tail (st : ProducerState) : list ProducerEvent :=
  match p_pc st with
  | PRange => []
  | PDeferred => [producer_leave (p_rest st)]
  | PExited => [producer_leave (p_rest st); PClose]
  end.

Section StageAccounts.
Context {In Out : Type} (fn : In → Out * error).

Local Abbreviation state := (@StageState In Out).

(** The permit pool along a run: [sem1] keeps its size, and its counter is
    the number of workers that have not exited, or the whole pool once the
    drain has got it (no worker is left then). *)
Definition pool_inv (K : Z) (st : state) : Prop :=
  st_limit st = K ∧ size (st_sem st) = K
  ∧ (cur (st_sem st) ≤ K)%Z
  ∧ (cur (st_sem st) = Z.of_nat (permits_held st)
     ∨ (permits_held st = 0 ∧ cur (st_sem st) = K)).

(** What a worker will still send, if it gets that far. *)
Definition worker_pending (w : @Worker In Out) : list (Out + string) :=
  match w with
  | WStart s | WCalling s => [outcome (fn s)]
  | WSending r => [outcome r]
  | _ => []
  end.

Definition loop_pending (pc : @StagePc In) : list (Out + string) :=
  match pc with
  | SAcquire s => [outcome (fn s)]
  | _ => []
  end.

Definition stage_pending (st : state) : list (Out + string) :=
  (st_workers st ≫= worker_pending) ++ loop_pending (st_pc st).

Definition stage_event_sent (ev : @StageEvent In Out) : list (Out + string) :=
  match ev with
  | SSendOut _ y => [inl y]
  | SSendErr _ e => [inr e]
  | _ => []
  end.

Definition stage_event_recv (ev : @StageEvent In Out) : list In :=
  match ev with
  | SRecv (Some x) => [x]
  | _ => []
  end.

End StageAccounts.

Section MergeAccounts.
Context {T : Type}.

Local Abbreviation mstate := (@MergeState T).
Local Abbreviation mevent := (@MergeEvent T).

(** Forwarders that have not done their [wg.Done()]. *)
Definition live (pc : @ForwarderPc T) : bool :=
  match pc with FExited => false | _ => true end.

(** What a forwarder has received and sent, by its program counter, when
    cancellation has not fired. *)
Definition forwarder_inv (pc : @ForwarderPc T)
    (r : list (option T)) (s : list T) : Prop :=
  match pc with
  | FRange => r = Some <$> s
  | FSelect n => r = Some <$> (s ++ [n])
  | FDeferred | FExited => r = (Some <$> s) ++ [None]
  end.

Definition merge_wg_dones (tr : list mevent) : nat :=
  length (omap (λ ev, match ev with MWgDone _ => Some () | _ => None end) tr).

Definition merge_closer_events (tr : list mevent) : nat :=
  length (omap (λ ev, match ev with
                      | MWaitReturn | MClose => Some ()
                      | _ => None
                      end) tr).

Definition merge_inv (n : nat) (tr : list mevent) (st : mstate) : Prop :=
  length (m_forwarders st) = n
  ∧ (∀ i pc, m_forwarders st !! i = Some pc →
       forwarder_inv pc (merge_recvs_of i tr) (merge_sends_of i tr))
  ∧ (∀ p, p ∈ merge_tagged_sends tr → p.1 < n)
  ∧ (∀ p, p ∈ merge_tagged_recvs tr → p.1 < n)
  ∧ m_wg st = Z.of_nat (length (List.filter live (m_forwarders st)))
  ∧ (Z.of_nat (merge_wg_dones tr) + m_wg st = Z.of_nat n)%Z
  ∧ match m_closer st with
    | CWait => m_closed st = false ∧ merge_closer_events tr = 0
    | CClose => m_closed st = false ∧ m_wg st = 0%Z
                ∧ merge_closer_events tr = 1
    | CExited => m_closed st = true ∧ m_wg st = 0%Z
                 ∧ merge_closer_events tr = 2
    end.

(** The value a forwarder holds between its receive and its send. *)
Definition forwarder_pending (pc : @ForwarderPc T) : list T :=
  match pc with FSelect n => [n] | _ => [] end.

Definition merge_pending (st : mstate) : list T :=
  m_forwarders st ≫= forwarder_pending.

(** Values received from the channels of [cs], oldest first. *)
Definition merge_received (tr : list mevent) : list T :=
  omap (λ ev, match ev with MRecv _ (Some n) => Some n | _ => None end) tr.

End MergeAccounts.

Definition lefts {A B : Type} (l : list (A + B)) : list A :=
  omap (λ x, match x with inl a => Some a | inr _ => None end) l.

Definition rights {A B : Type} (l : list (A + B)) : list B :=
  omap (λ x, match x with inl _ => None | inr b => Some b end) l.

(** *** Runs on concrete inputs *)

(** Both workers of a stage inside [fn]. *)
Definition two_calls : @StageState string string :=
  MkStage SSelect 2 (MkWeighted 2 2) [WCalling "FOO"; WCalling "BAR"]
          false false false.

(** Two channels with one item each; the second item is forwarded first. *)
Definition merge_two_run : list (@MergeEvent string) :=
  [MRecv 0 (Some "a"); MRecv 1 (Some "b"); MSend 1 "b"; MSend 0 "a";
   MRecv 0 None; MRecv 1 None; MWgDone 0; MWgDone 1; MWaitReturn; MClose].

(** The three items go through [step] 1 two at a time; of the items of
    [step] 2, "Bar" reaches the sink, then the error for "foo", on which the
    sink cancels, sees the cancellation and returns while "BAX" is still
    in [step] 1. *)
Definition run_cancelled_early : list PipelineEvent :=
  [GFeed "FOO"; GStep1 SAcquired; GFeed "BAR"; GStep1 SAcquired; GFeed "BAX";
   GProducer PRangeEnd; GProducer PClose;
   GStep1 (SCall 0); GStep1 (SCall 1);
   GStep1 (SCallReturn 0); GStep1 (SCallReturn 1);
   GPass 0 "foo"; GStep2 SAcquired; GPass 1 "bar"; GStep2 SAcquired;
   GStep1 (SRelease 0); GStep1 (SRelease 1); GStep1 SAcquired;
   GStep2 (SCall 0); GStep2 (SCall 1);
   GStep2 (SCallReturn 0); GStep2 (SCallReturn 1);
   GResult 1 "Bar"; GError2 0 "oh no"; GErrorOut 1 (Some "oh no");
   GSink (KCtxDone "context canceled"); GMainReturn].

(** As [run_cancelled_early] up to the cancellation; then, before the sink
    looks at [ctx] again, [step] 1 finds [readStream] closed, fails its
    drain, closes its channels, and the worker of "BAX" gets to its send. *)
Definition run_send_after_close : list PipelineEvent :=
  [GFeed "FOO"; GStep1 SAcquired; GFeed "BAR"; GStep1 SAcquired; GFeed "BAX";
   GProducer PRangeEnd; GProducer PClose;
   GStep1 (SCall 0); GStep1 (SCall 1);
   GStep1 (SCallReturn 0); GStep1 (SCallReturn 1);
   GPass 0 "foo"; GStep2 SAcquired; GPass 1 "bar"; GStep2 SAcquired;
   GStep1 (SRelease 0); GStep1 (SRelease 1); GStep1 SAcquired;
   GStep2 (SCall 0); GStep2 (SCall 1);
   GStep2 (SCallReturn 0); GStep2 (SCallReturn 1);
   GResult 1 "Bar"; GError2 0 "oh no"; GErrorOut 1 (Some "oh no");
   GStep1 (SRecv None); GStep1 SAcquireFailed;
   GStep1 SCloseErr; GStep1 SCloseOut;
   GStep1 (SCall 2); GStep1 (SCallReturn 2); GStep1 (SSendPanic 2)].

(** *** Accounts for runs without cancellation *)

Section QuietStage.
Context {In Out : Type}.

(** The events of a stage that need [ctx] done. *)
Definition stage_cancel_event (ev : @StageEvent In Out) : bool :=
  match ev with SCtxDone | SAcquireFailed => true | _ => false end.

(** The events a stage takes by itself or by handing a value to a receiver:
    no read from the input, no cancellation, no panic. *)
Definition stage_moves (ev : @StageEvent In Out) : bool :=
  match ev with
  | SAcquired | SCloseErr | SCloseOut | SCall _ | SCallReturn _
  | SSendOut _ _ | SSendErr _ _ | SRelease _ => true
  | _ => false
  end.

(** The loop goroutine has left its loop. *)
Definition past_drain (pc : @StagePc In) : bool :=
  match pc with SDeferErr | SDeferOut | SExited => true | _ => false end.

(** Events a goroutine still has before it, when nothing is cancelled: a
    worker calls, returns, sends, releases; the loop at its [select] finds
    the input closed, drains and closes twice. *)
Definition worker_steps_left (w : @Worker In Out) : nat :=
  match w with
  | WStart _ => 4
  | WCalling _ => 3
  | WSending _ => 2
  | WDeferred => 1
  | WExited => 0
  end.

Definition loop_steps_left (pc : @StagePc In) : nat :=
  match pc with
  | SSelect => 4
  | SAcquire _ => 9
  | SDrain => 3
  | SDeferErr => 2
  | SDeferOut => 1
  | SExited => 0
  end.

Definition stage_steps_left (st : @StageState In Out) : nat :=
  sum_list_with worker_steps_left (st_workers st)
  + loop_steps_left (st_pc st).

(** A stage in a run without cancellation: nothing has panicked, the
    semaphore counts the live workers until the drain has succeeded, after
    which no worker is left, and each channel is closed when the loop has
    passed its deferred close. *)
Definition quiet_inv (K : Z) (st : @StageState In Out) : Prop :=
  st_limit st = K ∧ size (st_sem st) = K
  ∧ (cur (st_sem st) ≤ K)%Z
  ∧ st_panicked st = false
  ∧ (if past_drain (st_pc st) then permits_held st = 0
     else cur (st_sem st) = Z.of_nat (permits_held st))
  ∧ st_err_closed st
    = match st_pc st with SDeferOut | SExited => true | _ => false end
  ∧ st_out_closed st
    = match st_pc st with SExited => true | _ => false end.

End QuietStage.

(** One item through a stage, then the input is closed. *)
Definition stage_quiet_run : list (@StageEvent string string) :=
  [SRecv (Some "FOO"); SAcquired; SCall 0; SCallReturn 0; SSendOut 0 "foo";
   SRelease 0; SRecv None; SAcquired; SCloseErr; SCloseOut].

(** *** Accounts for Merge under cancellation *)

Section MergeAnyRun.
Context {T : Type}.

(** The wait group counts the forwarders that have not exited, and the
    closer gets past [wg.Wait()] only at zero. *)
Definition merge_sync (n : nat) (st : @MergeState T) : Prop :=
  length (m_forwarders st) = n
  ∧ m_wg st = Z.of_nat (length (List.filter live (m_forwarders st)))
  ∧ match m_closer st with
    | CWait => m_closed st = false
    | CClose => m_closed st = false ∧ m_wg st = 0%Z
    | CExited => m_closed st = true ∧ m_wg st = 0%Z
    end.

(** What forwarder [i] has received ([r]) and sent ([s]), by its program
    counter, cancellation allowed: after a return on [ctx.Done()] the value
    in hand has been dropped. *)
Definition forwarder_hist (i : nat) (tr : list (@MergeEvent T))
    (pc : @ForwarderPc T) (r : list (option T)) (s : list T) : Prop :=
  match pc with
  | FRange => r = Some <$> s
  | FSelect x => r = Some <$> (s ++ [x])
  | FDeferred | FExited =>
      r = (Some <$> s) ++ [None]
      ∨ (MCtxDone i ∈ tr ∧ ∃ x, r = Some <$> (s ++ [x]))
  end.

End MergeAnyRun.

(** Two channels: forwarder 0 drops "a" on cancellation, forwarder 1 finds
    its channel closed. *)
Definition merge_cancelled_run : list (@MergeEvent string) :=
  [MRecv 0 (Some "a"); MCtxDone 0; MWgDone 0; MRecv 1 None; MWgDone 1;
   MWaitReturn; MClose].

Definition merge_closes {T : Type} (tr : list (@MergeEvent T)) : nat :=
  length (omap (λ ev, match ev with MClose => Some () | _ => None end) tr).

(** *** Accounts for the program *)

(** The loop goroutine of a stage is past its loop. *)
Definition past_select {In : Type} (pc : @StagePc In) : bool :=
  match pc with SSelect | SAcquire _ => false | _ => true end.

(** How the goroutines of the program hang together: a stage leaves its
    loop only after the channel it reads was closed, the sink returns only
    on cancellation or after [step2results] was closed, and [main] cancels
    when it returns. *)
Definition pipeline_links (g : Pipeline) : Prop :=
  (past_select (st_pc (g_step1 g)) = true → p_closed (g_producer g) = true)
  ∧ (past_select (st_pc (g_step2 g)) = true →
       st_out_closed (g_step1 g) = true)
  ∧ (k_pc (g_sink g) = KReturned →
       g_cancelled g = true ∨ st_out_closed (g_step2 g) = true)
  ∧ (g_exited g = true → g_cancelled g = true).

(** Everything runs to its end without cancellation; the error for "foo"
    is handed to its forwarder in Merge, and the sink finds [step2results]
    closed before it looks at [allErrors]. *)
Definition run_error_unreported : list PipelineEvent :=
  [GFeed "FOO"; GStep1 SAcquired; GFeed "BAR"; GStep1 SAcquired; GFeed "BAX";
   GStep1 (SCall 0); GStep1 (SCallReturn 0); GPass 0 "foo";
   GStep1 (SRelease 0); GStep1 SAcquired; GStep2 SAcquired;
   GStep1 (SCall 1); GStep1 (SCallReturn 1); GPass 1 "bar";
   GStep1 (SRelease 1); GStep2 SAcquired;
   GStep1 (SCall 2); GStep1 (SCallReturn 2);
   GStep2 (SCall 1); GStep2 (SCallReturn 1); GResult 1 "Bar";
   GStep2 (SRelease 1);
   GPass 2 "bax"; GStep1 (SRelease 2); GStep2 SAcquired;
   GStep2 (SCall 2); GStep2 (SCallReturn 2); GResult 2 "Bax";
   GStep2 (SRelease 2);
   GStep2 (SCall 0); GStep2 (SCallReturn 0); GError2 0 "oh no";
   GStep2 (SRelease 0);
   GProducer PRangeEnd; GProducer PClose;
   GStep1 (SRecv None); GStep1 SAcquired; GStep1 SCloseErr; GStep1 SCloseOut;
   GStep2 (SRecv None); GStep2 SAcquired; GStep2 SCloseErr; GStep2 SCloseOut;
   GSink (KRecvVal None)].

(** *** Accounts for the sink *)

(** What the sink does on an event. *)
Definition sink_event_effects (ev : SinkEvent) : list SinkEffect :=
  match ev with
  | KCtxDone cause => [KLog cause]
  | KRecvErr (Some msg) => [KLog ("error:  " +:+ msg); KCancel]
  | KRecvErr None => []
  | KRecvVal (Some val) => [KLog ("sink: " +:+ val)]
  | KRecvVal None => [KLog "done"]
  end.

(** The errors other than nil among the events. *)
Definition sink_errors (tr : list SinkEvent) : list string :=
  omap (λ ev, match ev with KRecvErr (Some msg) => Some msg | _ => None end) tr.

(** *** A schedule that takes the items one at a time *)

Section OneByOne.
Variables ToLower Title : string → string.

(** Item [s], the [k]-th of the input, all the way from the producer to
    the sink: worker [k] of step 1 calls [transformA] and passes the result
    on, worker [k] of step 2 calls [transformB] and hands the result to the
    sink. *)
Definition item_run (k : nat) (s : string) : list PipelineEvent :=
  [GFeed s; GStep1 SAcquired; GStep1 (SCall k); GStep1 (SCallReturn k);
   GPass k (ToLower s); GStep1 (SRelease k);
   GStep2 SAcquired; GStep2 (SCall k); GStep2 (SCallReturn k);
   GResult k (Title (ToLower s)); GStep2 (SRelease k)].

Fixpoint items_run (k : nat) (strings : list string) : list PipelineEvent :=
  match strings with
  | [] => []
  | s :: rest => item_run k s ++ items_run (S k) rest
  end.

(** The input is used up: the producer closes [readStream], each stage
    finds its input closed, drains its pool and closes its two channels,
    the sink finds [step2results] closed and returns, and so does [main]. *)
Definition closing_run : list PipelineEvent :=
  [GProducer PRangeEnd; GProducer PClose;
   GStep1 (SRecv None); GStep1 SAcquired; GStep1 SCloseErr; GStep1 SCloseOut;
   GStep2 (SRecv None); GStep2 SAcquired; GStep2 SCloseErr; GStep2 SCloseOut;
   GSink (KRecvVal None); GMainReturn].

Definition one_by_one (strings : list string) : list PipelineEvent :=
  items_run 0 strings ++ closing_run.

(** A stage between two items: at its select, all permits free, the [k]
    workers started so far exited. *)
Definition idle_stage (k : nat) : @StageState string string :=
  MkStage SSelect limit (MkWeighted limit 0) (replicate k WExited)
          false false false.

(** A stage after its deferred closes. *)
Definition closed_stage (k : nat) : @StageState string string :=
  MkStage SExited limit (MkWeighted limit limit) (replicate k WExited)
          true true false.

(** The program after [k] items, with [rest] still to come and [logged]
    by the sink so far. *)
Definition between_items (k : nat) (rest : list string)
    (logged : list SinkEffect) : Pipeline :=
  MkPipeline (MkProducer PRange rest false) (idle_stage k) (idle_stage k)
             (Merge 2) (MkSink KSelect logged) false false.

(** [log.Printf("sink: %s", val)] for the result of item [s]. *)
Definition sink_line (s : string) : SinkEffect :=
  KLog ("sink: " +:+ Title (ToLower s)).

End OneByOne.

(** ** Part II. Properties *)

(** *** Runs *)

Section RunFacts.
Context {St Ev : Type} (step : Ev → St → option St).

Lemma exec_app s tr1 tr2 :
  exec step s (tr1 ++ tr2) = exec step s tr1 ≫= λ s', exec step s' tr2.
Proof.
  revert s. induction tr1 as [|e tr1 IH]; intros s; simpl; [done|].
  destruct (step e s); simpl; auto.
Qed.

Lemma exec_snoc s tr e s' :
  exec step s (tr ++ [e]) = Some s' ↔
  ∃ s1, exec step s tr = Some s1 ∧ step e s1 = Some s'.
Proof.
  rewrite exec_app. split.
  - destruct (exec step s tr) as [s1|]; simpl; [|done].
    destruct (step e s1) eqn:E; [|done]. intros [= <-]. eauto.
  - intros (s1 & -> & H). simpl. by rewrite H.
Qed.

Lemma exec_singleton s e s' :
  exec step s [e] = Some s' → step e s = Some s'.
Proof. simpl. by destruct (step e s). Qed.

(** An invariant of the step function holds along every run. *)
Lemma exec_invariant (P : St → Prop) s tr s' :
  (∀ e a b, P a → step e a = Some b → P b) →
  P s → exec step s tr = Some s' → P s'.
Proof.
  intros Hstep. revert s. induction tr as [|e tr IH]; intros s Hs; simpl.
  - by intros [= <-].
  - destruct (step e s) as [s1|] eqn:E; [|done]. eauto.
Qed.

End RunFacts.

(** *** producer *)

(** Shape of every run of the producer goroutine: the items sent are an
    initial segment of the input, the rest is still held, and the trace ends
    as the program counter says. *)
Lemma producer_run_shape strings tr st :
  exec producer_step (producer strings).1 tr = Some st →
  ∃ sent, strings = sent ++ p_rest st
        ∧ tr = map PSend sent ++ producer_tail st
        ∧ p_closed st = bool_decide (p_pc st = PExited).
Proof.
  revert st. induction tr as [|ev tr IH] using rev_ind; intros st.
  - intros [= <-]. by exists [].
  - intros (s1 & H1 & Hstep)%exec_snoc.
    destruct (IH _ H1) as (sent & Hs & Htr & Hc). clear IH H1.
    destruct s1 as [pc rest closed]; simpl in *.
    unfold producer_step, producer_tail in *; simpl in *.
    destruct pc, ev, rest as [|x rest]; simplify_eq/=;
      try case_decide; simplify_eq/=.
    + exists sent. by rewrite !app_nil_r.
    + exists (sent ++ [x]). by rewrite <- app_assoc, map_app, !app_nil_r.
    + exists sent. by rewrite !app_nil_r.
    + exists sent. by rewrite <- app_assoc.
    + exists sent. by rewrite <- app_assoc.
Qed.

Lemma producer_sends_map l : producer_sends (map PSend l) = l.
Proof. induction l; simpl; f_equal; done. Qed.

Lemma producer_sends_app a b :
  producer_sends (a ++ b) = producer_sends a ++ producer_sends b.
Proof. apply omap_app. Qed.

Lemma producer_closes_app a b :
  producer_closes (a ++ b) = producer_closes a + producer_closes b.
Proof. unfold producer_closes. by rewrite omap_app, length_app. Qed.

Lemma producer_closes_map l : producer_closes (map PSend l) = 0.
Proof. induction l; simpl; done. Qed.

Lemma producer_full_run strings :
  exec producer_step (producer strings).1 (map PSend strings ++ [PRangeEnd; PClose])
  = Some (MkProducer PExited [] true).
Proof.
  simpl. induction strings as [|x l IH]; simpl; [done|].
  unfold producer_step at 1; simpl. by rewrite decide_True.
Qed.

Lemma producer_cancelled_run sent x rest :
  exec producer_step (producer (sent ++ x :: rest)).1
       (map PSend sent ++ [PCtxDone; PClose])
  = Some (MkProducer PExited (x :: rest) true).
Proof.
  simpl. induction sent as [|y l IH]; simpl; [done|].
  unfold producer_step at 1; simpl. by rewrite decide_True.
Qed.

(** C4.  Without cancellation the producer sends exactly the items of the
    input, in order, and then closes its channel.  On every exit path,
    exhaustion or cancellation, the channel is closed exactly once, as the
    last thing the goroutine does; after cancellation the items not yet sent
    are dropped.  The goroutine is never stuck before it has exited: at the
    select both the send and the cancellation branch are open, elsewhere
    the next internal step is. *)
Theorem producer_emits_in_order_and_closes_once (strings : list string) :
  exec producer_step (producer strings).1
       (map PSend strings ++ [PRangeEnd; PClose])
    = Some (MkProducer PExited [] true)
  ∧ (∀ sent x rest, strings = sent ++ x :: rest →
       exec producer_step (producer strings).1
            (map PSend sent ++ [PCtxDone; PClose])
         = Some (MkProducer PExited (x :: rest) true))
  ∧ (∀ tr st, exec producer_step (producer strings).1 tr = Some st →
       (p_pc st = PExited → PCtxDone ∉ tr →
          tr = map PSend strings ++ [PRangeEnd; PClose])
     ∧ (p_pc st = PExited →
          producer_closes tr = 1 ∧ last tr = Some PClose ∧ p_closed st = true
          ∧ producer_sends tr ++ p_rest st = strings
          ∧ ∀ ev, producer_step ev st = None)
     ∧ producer_closes tr ≤ 1
     ∧ (p_pc st ≠ PExited →
          match p_pc st, p_rest st with
          | PRange, s :: _ =>
              enabled producer_step (PSend s) st
              ∧ enabled producer_step PCtxDone st
          | PRange, [] => enabled producer_step PRangeEnd st
          | _, _ => enabled producer_step PClose st
          end)
     ∧ length tr ≤ length strings + 2).
Proof.
  split; [apply producer_full_run|].
  split; [intros sent x rest ->; apply producer_cancelled_run|].
  intros tr st Hrun.
  destruct (producer_run_shape _ _ _ Hrun) as (sent & Hs & Htr & Hc).
  destruct st as [pc rest closed]; simpl in *.
  unfold producer_tail in Htr; simpl in Htr.
  split; [|split; [|split; [|split]]].
  - intros -> Hno. destruct rest as [|x rest]; simpl in *.
    + rewrite app_nil_r in Hs. by subst.
    + exfalso. apply Hno. subst tr.
      apply elem_of_app. right. apply elem_of_cons. by left.
  - intros ->. subst tr. split; [|split; [|split; [|split]]].
    + rewrite producer_closes_app, producer_closes_map. by destruct rest.
    + by rewrite last_app.
    + done.
    + subst strings.
      rewrite producer_sends_app, producer_sends_map.
      destruct rest; simpl; by rewrite ?app_nil_r.
    + intros ev. by destruct ev.
  - subst tr. rewrite producer_closes_app, producer_closes_map.
    destruct pc, rest; cbn; lia.
  - intros Hpc. unfold enabled, producer_step; simpl.
    destruct pc, rest; simpl; subst closed; simpl; try done.
    by rewrite decide_True.
  - subst tr strings. rewrite !length_app, length_map.
    destruct pc; simpl; lia.
Qed.

Lemma producer_emits_in_order_and_closes_once_witness :
  [PSend "FOO"; PSend "BAR"; PRangeEnd; PClose]
    = map PSend ["FOO"; "BAR"] ++ [PRangeEnd; PClose]
  ∧ producer_closes [PSend "FOO"; PCtxDone; PClose] = 1.
Proof.
  destruct (producer_emits_in_order_and_closes_once ["FOO"; "BAR"])
    as (_ & _ & H).
  split.
  - refine (proj1 (H [PSend "FOO"; PSend "BAR"; PRangeEnd; PClose]
                     (MkProducer PExited [] true) _) _ _).
    + reflexivity.
    + reflexivity.
    + intros Hin. by repeat (apply elem_of_cons in Hin as [?|Hin]; [done|]);
        apply elem_of_nil in Hin.
  - refine (proj1 (proj1 (proj2 (H [PSend "FOO"; PCtxDone; PClose]
                     (MkProducer PExited ["BAR"] true) _)) _)).
    + reflexivity.
    + reflexivity.
Defined.

(** *** step: the permit pool *)

Section Counting.
Context {A : Type}.

Lemma count_app (f : A → bool) l1 l2 :
  length (List.filter f (l1 ++ l2))
  = length (List.filter f l1) + length (List.filter f l2).
Proof. by rewrite List.filter_app, length_app. Qed.

(** Overwriting one slot moves the count by the weights of the old and the
    new occupant. *)
Lemma count_insert (f : A → bool) l i x y :
  l !! i = Some x →
  length (List.filter f (<[i:=y]> l)) + bool_weight (f x)
  = length (List.filter f l) + bool_weight (f y).
Proof.
  revert i. induction l as [|a l IH]; intros [|i] Hi; simplify_eq/=.
  - destruct (f x), (f y); simpl; lia.
  - specialize (IH _ Hi). destruct (f a); simpl; lia.
Qed.

Lemma count_le (f g : A → bool) l :
  (∀ x, f x = true → g x = true) →
  length (List.filter f l) ≤ length (List.filter g l).
Proof.
  intros Hfg. induction l as [|a l IH]; simpl; [done|].
  destruct (f a) eqn:Ef.
  - rewrite (Hfg _ Ef). simpl. lia.
  - destruct (g a); simpl; lia.
Qed.

Lemma count_pos (f : A → bool) l i x :
  l !! i = Some x → f x = true → 0 < length (List.filter f l).
Proof.
  revert i. induction l as [|a l IH]; intros [|i] Hi Hx; simplify_eq/=.
  - rewrite Hx. simpl. lia.
  - destruct (f a); simpl; [lia|]. eauto.
Qed.

End Counting.

Section StagePool.
Context {In Out : Type} `{!EqDecision Out} (fn : In → Out * error).

Local Abbreviation state := (@StageState In Out).

Lemma pool_inv_start K :
  (0 ≤ K)%Z → pool_inv K (@stage_start In Out K).
Proof. intros HK. unfold pool_inv; simpl. repeat split; auto with lia. Qed.

Lemma pool_inv_step K ev (a b : state) :
  (1 ≤ K)%Z → pool_inv K a → stage_step fn ev a = Some b → pool_inv K b.
Proof.
  intros HK (Hl & Hs & Hc & Hh). unfold stage_step.
  destruct a as [pc lim [sz c] ws oc ec pn]; simpl in *. subst lim sz.
  destruct pn; [done|]. unfold pool_inv, permits_held in *; simpl in *.
  destruct ev; simpl.
  all: unfold stage_loop_step, stage_worker_step, Acquire, set_pc, set_worker;
    simpl.
  1-6: destruct pc; try done; repeat case_match; simplify_eq/=;
    try case_decide; simplify_eq/=; intros; simplify_eq/=;
    rewrite ?count_app; simpl; repeat split; try done; try lia.
  all: destruct (ws !! w) as [x|] eqn:Ew; [|done]; destruct x; try done;
    repeat case_match; simplify_eq/=; try case_decide; try done;
    intros; simplify_eq/=; repeat split; try done; try lia.
  all: match goal with
       | Ew : ?ws !! ?w = Some _ |- context [<[?w:=?y]> ?ws] =>
           pose proof (count_insert holding ws w _ y Ew);
           pose proof (count_pos holding ws w _ Ew eq_refl)
       end.
  all: simpl in *; lia.
Qed.

Lemma pool_inv_run K tr (st : state) :
  (1 ≤ K)%Z → exec (stage_step fn) (stage_start K) tr = Some st →
  pool_inv K st.
Proof.
  intros HK Hrun.
  eapply (exec_invariant (stage_step fn) (pool_inv K)); [| |exact Hrun].
  - intros e a b Ha Hab. by eapply pool_inv_step.
  - apply pool_inv_start. lia.
Qed.

End StagePool.

Section StageClaims.
Context {In Out : Type} `{!EqDecision Out} (fn : In → Out * error).

Local Abbreviation state := (@StageState In Out).

(** C1.  For a pool of K >= 1 permits, in every state a stage can reach, the
    number of workers inside the transform function is at most the number
    of workers holding a permit, which is at most the semaphore's counter,
    which is at most its size K. *)
Theorem step_at_most_K_active (K : Z) (tr : list StageEvent) (st : state) :
  (1 ≤ K)%Z →
  exec (stage_step fn) (stage_start K) tr = Some st →
  (Z.of_nat (active_calls st) ≤ Z.of_nat (permits_held st))%Z
  ∧ (Z.of_nat (permits_held st) ≤ cur (st_sem st))%Z
  ∧ (cur (st_sem st) ≤ size (st_sem st))%Z
  ∧ size (st_sem st) = K.
Proof.
  intros HK Hrun.
  destruct (pool_inv_run fn K tr st HK Hrun) as (_ & Hs & Hc & Hh).
  assert (active_calls st ≤ permits_held st).
  { apply count_le. by intros []. }
  repeat split; lia.
Qed.

(** The loop goroutine never touches the workers' slots, and a worker's
    slot changes only by that worker's events. *)
Lemma stage_step_worker_lookup ev (a b : state) w x :
  stage_step fn ev a = Some b →
  st_workers b !! w = Some x →
  st_workers a !! w = Some x
  ∨ (x = WDeferred ∧ is_send_of w ev = true)
  ∨ (∃ s, x = WStart s) ∨ (∃ s, x = WCalling s) ∨ (∃ r, x = WSending r)
  ∨ (x = WExited ∧ ev = SRelease w ∧ st_workers a !! w = Some WDeferred).
Proof.
  unfold stage_step. destruct (st_panicked a); [done|].
  destruct a as [pc lim sem ws oc ec pn]; simpl.
  destruct ev as [| ? | | | | | v | v | v ? | v ? | v | v]; simpl;
    unfold stage_loop_step, stage_worker_step, set_pc, set_worker; simpl.
  1-6: destruct pc; try done; repeat case_match; simplify_eq/=;
    intros Hb Hx; simplify_option_eq; auto.
  1: { apply lookup_app_Some in Hx as [?|[_ Hx]]; [by left|].
       apply list_lookup_singleton_Some in Hx as [_ <-]. eauto 6. }
  all: destruct (ws !! v) as [z|] eqn:Ew; [|done]; destruct z; try done;
    repeat case_match; simplify_eq/=; try done; intros Hb Hx; simplify_eq/=;
    auto.
  all: destruct (decide (v = w)) as [->|Hne];
    [ rewrite list_lookup_insert_eq in Hx by (by eapply lookup_lt_Some);
      simplify_eq/=
    | rewrite list_lookup_insert_ne in Hx by done; by left ].
  all: try rewrite bool_decide_eq_true_2 by done; eauto 10.
Qed.

(** Along a run, a worker whose send is behind it has a send event in the
    trace. *)
Lemma stage_sent_before_deferred K tr (st : state) w x :
  exec (stage_step fn) (stage_start K) tr = Some st →
  st_workers st !! w = Some x → x = WDeferred ∨ x = WExited →
  ∃ ev, ev ∈ tr ∧ is_send_of w ev = true.
Proof.
  revert st x. induction tr as [|ev tr IH] using rev_ind; intros st x.
  - intros [= <-]. simpl. by rewrite lookup_nil.
  - intros (s1 & H1 & Hstep)%exec_snoc Hx Hcase.
    destruct (stage_step_worker_lookup _ _ _ _ _ Hstep Hx)
      as [Hsame|[[_ Hs]|[[s ->]|[[s ->]|[[r ->]|(_ & _ & Hd)]]]]].
    + destruct (IH _ _ H1 Hsame Hcase) as (e & He & Hse).
      exists e. split; [|done]. apply elem_of_app. by left.
    + exists ev. split; [|done]. apply elem_of_app. right. by apply list_elem_of_singleton.
    + by destruct Hcase.
    + by destruct Hcase.
    + by destruct Hcase.
    + destruct (IH _ _ H1 Hd (or_introl eq_refl)) as (e & He & Hse).
      exists e. split; [|done]. apply elem_of_app. by left.
Qed.

(** C7, as the code has it.  The permit is released by a deferred call, when
    the worker function returns: in every run, a release by worker [w] comes
    after the event in which [w] got its result or error across, and the
    release is what lowers the semaphore's counter by one. *)
Theorem step_release_follows_send (K : Z) (tr1 tr2 : list StageEvent)
    (w : nat) (st : state) :
  exec (stage_step fn) (stage_start K) (tr1 ++ SRelease w :: tr2) = Some st →
  (∃ ev, ev ∈ tr1 ∧ is_send_of w ev = true)
  ∧ ∃ s1 s2, exec (stage_step fn) (stage_start K) tr1 = Some s1
           ∧ stage_step fn (SRelease w) s1 = Some s2
           ∧ st_workers s1 !! w = Some WDeferred
           ∧ cur (st_sem s2) = (cur (st_sem s1) - 1)%Z.
Proof.
  rewrite exec_app. destruct (exec _ _ tr1) as [s1|] eqn:H1; [|done]. simpl.
  destruct (stage_step fn (SRelease w) s1) as [s2|] eqn:H2; [|done]. intros _.
  assert (st_workers s1 !! w = Some WDeferred ∧ cur (st_sem s2) = (cur (st_sem s1) - 1)%Z)
    as [Hd Hc].
  { revert H2. unfold stage_step. destruct (st_panicked s1); [done|]. simpl.
    destruct (st_workers s1 !! w) as [[]|]; try done. by intros [= <-]. }
  split; [by eapply stage_sent_before_deferred; eauto|].
  by exists s1, s2.
Qed.

Lemma stage_closes_err_snoc (tr : list (@StageEvent In Out)) ev :
  stage_closes_err (tr ++ [ev])
  = stage_closes_err tr + match ev with SCloseErr => 1 | _ => 0 end.
Proof.
  unfold stage_closes_err. rewrite omap_app, length_app. f_equal.
  by destruct ev.
Qed.

Lemma stage_closes_out_snoc (tr : list (@StageEvent In Out)) ev :
  stage_closes_out (tr ++ [ev])
  = stage_closes_out tr + match ev with SCloseOut => 1 | _ => 0 end.
Proof.
  unfold stage_closes_out. rewrite omap_app, length_app. f_equal.
  by destruct ev.
Qed.

(** Each channel of the stage is closed by the deferred call of the loop
    goroutine and by nothing else: the closes in a trace are those the
    program counter has passed. *)
Lemma stage_close_counts K tr (st : state) :
  exec (stage_step fn) (stage_start K) tr = Some st →
  stage_closes_err tr = bool_weight (st_err_closed st)
  ∧ stage_closes_out tr = bool_weight (st_out_closed st)
  ∧ st_err_closed st
    = match st_pc st with SDeferOut | SExited => true | _ => false end
  ∧ st_out_closed st
    = match st_pc st with SExited => true | _ => false end.
Proof.
  revert st. induction tr as [|ev tr IH] using rev_ind; intros st.
  - by intros [= <-].
  - intros (s1 & H1 & Hstep)%exec_snoc.
    destruct (IH _ H1) as (He & Ho & Hec & Hoc). clear IH H1.
    rewrite stage_closes_err_snoc, stage_closes_out_snoc, He, Ho.
    revert Hstep. unfold stage_step. destruct (st_panicked s1); [done|].
    destruct s1 as [pc lim sem ws oc ec pn]; simpl in *.
    destruct ev; simpl;
      unfold stage_loop_step, stage_worker_step, set_pc, set_worker; simpl.
    all: repeat case_match; try done; intros Hb; simplify_option_eq;
      repeat split; try done; lia.
Qed.

(** C8, what the code does.  On [ctx.Done()] the loop leaves its [select]
    only: the stage is back at the same [select], nothing else changes, so
    any number of such rounds leaves the stage running with both channels
    open.  Whatever happens, the stage gets to its deferred closes only
    after it has found its input closed.  No channel is closed twice. *)
Theorem step_ctx_done_keeps_looping (K : Z) :
  (∀ st : state, st_pc st = SSelect → st_panicked st = false →
     stage_step fn SCtxDone st = Some st)
  ∧ (∀ n, exec (stage_step fn) (stage_start K) (replicate n SCtxDone)
          = Some (stage_start K))
  ∧ (∀ tr (st : state),
       exec (stage_step fn) (stage_start K) tr = Some st →
       SRecv None ∉ tr →
       (st_pc st = SSelect ∨ ∃ s, st_pc st = SAcquire s)
       ∧ st_out_closed st = false ∧ st_err_closed st = false)
  ∧ (∀ tr (st : state),
       exec (stage_step fn) (stage_start K) tr = Some st →
       stage_closes_out tr ≤ 1 ∧ stage_closes_err tr ≤ 1).
Proof.
  split; [|split; [|split]]; cycle 3.
  { intros tr st (He & Ho & _)%stage_close_counts. rewrite He, Ho.
    by destruct (st_err_closed st), (st_out_closed st); simpl; lia. }
  - intros [pc lim sem ws oc ec pn]; simpl. intros -> ->. done.
  - induction n as [|n IH]; simpl; [done|]. exact IH.
  - intros tr. induction tr as [|ev tr IH] using rev_ind; intros st.
    + intros [= <-] _. simpl. auto.
    + intros (s1 & H1 & Hstep)%exec_snoc Hno.
      destruct (IH _ H1) as (Hpc & Ho & He).
      { intros Hin. apply Hno. apply elem_of_app. by left. }
      assert (ev ≠ SRecv None) as Hev.
      { intros ->. apply Hno. apply elem_of_app. right.
        by apply list_elem_of_singleton. }
      revert Hstep. unfold stage_step. destruct (st_panicked s1); [done|].
      destruct s1 as [pc lim sem ws oc ec pn]; simpl in *. subst oc ec.
      destruct ev as [| [x|] | | | | | | | | | |]; simpl;
        unfold stage_loop_step, stage_worker_step, set_pc, set_worker; simpl.
      all: try done.
      all: destruct Hpc as [->|[s ->]]; try done; intros Hb;
        repeat case_match; simplify_option_eq; eauto.
Qed.

(** C6, as the code has it.  [step] takes no parallelism and returns no
    error: every stage it builds has the pool of [limit = 2] permits,
    whatever its caller wants.  In every run of such a stage the pool keeps
    its size, at most two workers hold a permit and at most two are inside
    the transform function; two inside at once is a run of the stage for
    any two items, and a third item waits in [Acquire(ctx, 1)] while both
    permits are out.  Construction cannot fail: [main] gets its pipeline
    started for every input, both stages with that pool.  [step] is the
    specification's construction for K = 2 and for no other K. *)
Theorem step_pool_is_fixed :
  size (st_sem (@step In Out)) = 2%Z
  ∧ st_limit (@step In Out) = 2%Z
  ∧ (∀ K : Z, spec_stage_construction K = Some (@step In Out) ↔ K = 2%Z)
  ∧ (∀ (tr : list StageEvent) (st : state),
       exec (stage_step fn) step tr = Some st →
       size (st_sem st) = 2%Z ∧ st_limit st = 2%Z
       ∧ permits_held st ≤ 2 ∧ active_calls st ≤ 2)
  ∧ (∀ a b : In,
       exec (stage_step fn) step
            [SRecv (Some a); SAcquired; SRecv (Some b); SAcquired;
             SCall 0; SCall 1]
       = Some (MkStage SSelect 2 (MkWeighted 2 2) [WCalling a; WCalling b]
                       false false false))
  ∧ (∀ a b c : In,
       ∃ st, exec (stage_step fn) step
                  [SRecv (Some a); SAcquired; SRecv (Some b); SAcquired;
                   SRecv (Some c)] = Some st
             ∧ st_pc st = SAcquire c
             ∧ stage_step fn SAcquired st = None)
  ∧ (∀ strings : list string,
       ∃ g0, pipeline_start strings = Some g0
             ∧ g_step1 g0 = step ∧ g_step2 g0 = step).
Proof.
  split; [done|]. split; [done|]. split.
  { intros K. unfold spec_stage_construction, step, limit. split.
    - case_decide; [done|]. by intros [= ->].
    - intros ->. by rewrite decide_False by lia. }
  split.
  { intros tr st Hrun.
    assert (1 ≤ limit)%Z as HK by (unfold limit; lia).
    destruct (pool_inv_run fn limit tr st HK Hrun) as (Hl & Hs & Hc & Hh).
    assert (active_calls st ≤ permits_held st) as Hact.
    { apply count_le. by intros []. }
    unfold limit in *. repeat split; try done; lia. }
  split; [done|]. split.
  { intros a b c. eexists. split; [reflexivity|]. by split. }
  intros strings. eexists. by split.
Qed.

End StageClaims.

(** *** sink *)

Lemma sink_step_pc ev st st' :
  sink_step ev st = Some st' →
  k_pc st = KSelect ∧ (k_pc st' = KReturned ↔ sink_final_event ev = true).
Proof.
  unfold sink_step. destruct (k_pc st) eqn:Hpc; [|done].
  destruct ev as [cause|[msg|]|[val|]]; intros [= <-]; simpl; rewrite ?Hpc;
    by split.
Qed.

(** A run that takes the sink from its loop to its return holds an event
    that ends the loop, and that event is the last one. *)
Lemma sink_run_returned tr st st' :
  exec sink_step st tr = Some st' → k_pc st = KSelect → k_pc st' = KReturned →
  ∃ tr' ev, tr = tr' ++ [ev] ∧ sink_final_event ev = true.
Proof.
  destruct tr as [|ev tr _] using rev_ind.
  - intros [= <-] H1 H2. congruence.
  - intros (s1 & _ & Hstep)%exec_snoc _ Hret.
    exists tr, ev. split; [done|]. by apply (sink_step_pc _ _ _ Hstep).
Qed.

(** C5.  At its select the sink can take every event, after its return
    none.  A step ends the sink exactly when the results stream is found
    closed, which logs "done", or cancellation is observed, which logs the
    cause; a result is logged and the sink stays at its select.  So a run
    has brought the sink to its return exactly when its last event is one
    of those two. *)
Theorem sink_returns_on_close_or_cancel :
  (∀ ev st, k_pc st = KSelect → enabled sink_step ev st)
  ∧ (∀ ev st, k_pc st = KReturned → sink_step ev st = None)
  ∧ (∀ ev st st', sink_step ev st = Some st' →
       (k_pc st' = KReturned ↔ sink_final_event ev = true)
       ∧ match ev with
         | KRecvVal None =>
             st' = MkSink KReturned (k_effects st ++ [KLog "done"])
         | KCtxDone cause =>
             st' = MkSink KReturned (k_effects st ++ [KLog cause])
         | KRecvVal (Some val) =>
             st' = MkSink KSelect (k_effects st ++ [KLog ("sink: " +:+ val)])
         | KRecvErr _ => k_pc st' = KSelect
         end)
  ∧ (∀ tr st, exec sink_step sink_init tr = Some st →
       (k_pc st = KReturned ↔
        ∃ tr' ev, tr = tr' ++ [ev] ∧ sink_final_event ev = true)).
Proof.
  split; [|split; [|split]].
  - intros ev st Hpc. unfold enabled, sink_step. rewrite Hpc.
    destruct ev as [cause|[msg|]|[val|]]; eauto.
  - intros ev st Hpc. unfold sink_step. by rewrite Hpc.
  - intros ev st st' Hstep.
    split; [by apply (sink_step_pc _ _ _ Hstep)|].
    revert Hstep. unfold sink_step. destruct (k_pc st) eqn:Hpc; [|done].
    destruct ev as [cause|[msg|]|[val|]]; by intros [= <-].
  - intros tr st Hrun. split.
    + intros Hret. by eapply sink_run_returned.
    + intros (tr' & ev & -> & Hfin).
      apply exec_snoc in Hrun as (s1 & _ & Hstep).
      by apply (sink_step_pc _ _ _ Hstep).
Qed.

Lemma sink_returns_on_close_or_cancel_witness :
  MkSink KReturned [KLog "sink: Bar"; KLog "done"]
  = MkSink KReturned ([KLog "sink: Bar"] ++ [KLog "done"]).
Proof.
  destruct sink_returns_on_close_or_cancel as (_ & _ & H & _).
  refine (proj2 (H (KRecvVal None) (MkSink KSelect [KLog "sink: Bar"])
                   (MkSink KReturned [KLog "sink: Bar"; KLog "done"]) _)).
  reflexivity.
Defined.

(** C10.  A nil error, which is also what a closed errors stream yields,
    leaves the sink as it is: nothing logged, no cancel, still at its
    select, however often it happens.  The loop still ends only by an event
    that finds the results stream closed or observes cancellation. *)
Theorem sink_ignores_nil_error :
  (∀ st, k_pc st = KSelect → sink_step (KRecvErr None) st = Some st)
  ∧ (∀ n st, k_pc st = KSelect →
       exec sink_step st (replicate n (KRecvErr None)) = Some st)
  ∧ (∀ tr st st', exec sink_step st tr = Some st' →
       k_pc st = KSelect → k_pc st' = KReturned →
       ∃ tr' ev, tr = tr' ++ [ev] ∧ sink_final_event ev = true
                 ∧ ev ≠ KRecvErr None).
Proof.
  split; [|split].
  - intros st Hpc. unfold sink_step. by rewrite Hpc.
  - intros n st Hpc. induction n as [|n IH]; simpl; [done|].
    unfold sink_step at 1. by rewrite Hpc.
  - intros tr st st' Hrun Hpc Hret.
    destruct (sink_run_returned _ _ _ Hrun Hpc Hret) as (tr' & ev & -> & Hf).
    exists tr', ev. repeat split; [done|]. by intros ->.
Qed.

Lemma sink_ignores_nil_error_witness :
  exec sink_step (MkSink KSelect [KLog "sink: Bar"])
       (replicate 3 (KRecvErr None))
  = Some (MkSink KSelect [KLog "sink: Bar"]).
Proof.
  destruct sink_ignores_nil_error as (_ & H & _).
  apply (H 3 (MkSink KSelect [KLog "sink: Bar"])). reflexivity.
Defined.

(** *** step on concrete inputs *)

Lemma step_at_most_K_active_witness :
  (Z.of_nat (active_calls two_calls) ≤ Z.of_nat (permits_held two_calls))%Z
  ∧ (Z.of_nat (permits_held two_calls) ≤ cur (st_sem two_calls))%Z
  ∧ (cur (st_sem two_calls) ≤ size (st_sem two_calls))%Z
  ∧ size (st_sem two_calls) = limit.
Proof.
  apply (step_at_most_K_active (transformA ascii_ToLower) limit
           [SRecv (Some "FOO"); SAcquired; SRecv (Some "BAR"); SAcquired;
            SCall 0; SCall 1]).
  - unfold limit. lia.
  - reflexivity.
Defined.

Lemma step_release_follows_send_witness :
  ∃ ev, ev ∈ [SRecv (Some "FOO"); SAcquired; SCall 0; SCallReturn 0;
              @SSendOut string string 0 "foo"]
        ∧ is_send_of 0 ev = true.
Proof.
  refine (proj1 (step_release_follows_send (transformA ascii_ToLower) limit
           [SRecv (Some "FOO"); SAcquired; SCall 0; SCallReturn 0;
            SSendOut 0 "foo"] [] 0
           (MkStage SSelect 2 (MkWeighted 2 0) [WExited] false false false) _)).
  reflexivity.
Defined.

(** C7 as stated fails: the worker of "FOO" gets "foo" across while it has
    not released its permit. *)
Lemma step_release_before_send_counterexample :
  ¬ (∀ (tr1 tr2 : list StageEvent) (w : nat) ev st,
       exec (stage_step (transformA ascii_ToLower)) step (tr1 ++ ev :: tr2)
         = Some st →
       is_send_of w ev = true → SRelease w ∈ tr1).
Proof.
  intros H.
  specialize (H [SRecv (Some "FOO"); SAcquired; SCall 0; SCallReturn 0] []
                0 (SSendOut 0 "foo")
                (MkStage SSelect 2 (MkWeighted 2 1) [WDeferred] false false false)
                eq_refl eq_refl).
  repeat (apply elem_of_cons in H as [?|H]; [done|]).
  by apply elem_of_nil in H.
Qed.

Lemma step_ctx_done_keeps_looping_witness :
  exec (stage_step (transformA ascii_ToLower)) step (replicate 5 SCtxDone)
    = Some step
  ∧ st_out_closed (@step string string) = false
  ∧ st_err_closed (@step string string) = false.
Proof.
  destruct (step_ctx_done_keeps_looping (transformA ascii_ToLower) limit)
    as (_ & Hloop & Hopen & _).
  split; [apply (Hloop 5)|].
  refine (proj2 (Hopen (replicate 5 SCtxDone) step (Hloop 5) _)).
  intros Hin. simpl in Hin.
  repeat (apply elem_of_cons in Hin as [?|Hin]; [done|]).
  by apply elem_of_nil in Hin.
Defined.

(** After cancellation the drain [Acquire(ctx, limit)] fails at once, so the
    stage closes its channels while a worker started before may still be
    on its way to its send: that send panics. *)
Lemma step_cancelled_drain_lets_send_panic :
  exec (stage_step (transformA ascii_ToLower)) step
       [SRecv (Some "FOO"); SAcquired; SRecv None; SAcquireFailed;
        SCloseErr; SCloseOut; SCall 0; SCallReturn 0; SSendPanic 0]
  = Some (MkStage SExited 2 (MkWeighted 2 1) [WSending ("foo", None)]
                  true true true).
Proof. reflexivity. Qed.

(** C6 as stated fails: the parallelism of a stage is not its caller's.
    For K = 1 the specification builds a stage with one permit; the stage
    that [step] builds, run on "FOO" and "BAR", has two invocations of the
    transform function active at once. *)
Lemma step_parallelism_is_not_the_callers_counterexample :
  ¬ (∀ (K : Z) (wanted : @StageState string string),
       spec_stage_construction K = Some wanted →
       ∀ (tr : list StageEvent) (st : @StageState string string),
         exec (stage_step (transformA ascii_ToLower)) step tr = Some st →
         (Z.of_nat (active_calls st) ≤ size (st_sem wanted))%Z).
Proof.
  intros H.
  specialize (H 1%Z (stage_start 1) eq_refl
                [SRecv (Some "FOO"); SAcquired; SRecv (Some "BAR"); SAcquired;
                 SCall 0; SCall 1]
                two_calls eq_refl).
  vm_compute in H. by apply H.
Qed.

Lemma step_pool_is_fixed_witness :
  active_calls two_calls ≤ 2
  ∧ spec_stage_construction 2 = Some (@step string string).
Proof.
  destruct (@step_pool_is_fixed string string _ (transformA ascii_ToLower))
    as (_ & _ & Hspec & Hruns & _).
  split.
  - refine (proj2 (proj2 (proj2
             (Hruns [SRecv (Some "FOO"); SAcquired; SRecv (Some "BAR");
                     SAcquired; SCall 0; SCall 1] two_calls _)))).
    reflexivity.
  - apply (proj2 (Hspec 2%Z)). reflexivity.
Defined.

(** *** Tagged lists *)

Section Tagged.
Context {A : Type}.
Implicit Types l : list (nat * A).

Lemma select_tag_app i l1 l2 :
  select_tag i (l1 ++ l2) = select_tag i l1 ++ select_tag i l2.
Proof. apply omap_app. Qed.

(** Putting [x] in front of the list at position [i] of a family of lists
    puts it somewhere into their concatenation. *)
Lemma concat_cons_at (g : nat → list A) i x a n :
  a ≤ i < a + n →
  concat ((λ j, if decide (i = j) then x :: g j else g j) <$> seq a n)
  ≡ₚ x :: concat (g <$> seq a n).
Proof.
  revert a. induction n as [|n IH]; intros a Hi; [lia|].
  change (seq a (S n)) with (a :: seq (S a) n).
  rewrite !fmap_cons, !concat_cons.
  destruct (decide (i = a)) as [->|Hne].
  - rewrite (list_fmap_ext _ g (seq (S a) n)); [done|].
    intros k j [-> _]%lookup_seq. by rewrite decide_False by lia.
  - rewrite IH by lia. by rewrite Permutation_middle.
Qed.

(** A list of tagged items is a permutation of its parts by tag. *)
Lemma tagged_interleaving l n :
  (∀ p, p ∈ l → p.1 < n) →
  l.*2 ≡ₚ concat ((λ i, select_tag i l) <$> seq 0 n).
Proof.
  induction l as [|[i x] l IH]; intros Hl.
  - simpl. induction (seq 0 n) as [|j js IHj]; simpl; done.
  - assert (i < n) as Hi by (apply (Hl (i, x)); left).
    simpl. rewrite IH by (intros p Hp; apply Hl; by right).
    rewrite <- (concat_cons_at (λ j, select_tag j l) i x 0 n) by lia.
    match goal with |- ?a ≡ₚ ?b => assert (a = b) as ->; [|done] end.
    f_equal. apply list_fmap_ext. intros k j _. unfold select_tag. simpl.
    by destruct (decide (i = j)).
Qed.

End Tagged.

(** A stream that has delivered its close has delivered all its items. *)
Lemma closed_stream_complete {A : Type} (s xs : list A) :
  (Some <$> s) ++ [None] `prefix_of` (Some <$> xs) ++ [None] → s = xs.
Proof.
  revert xs. induction s as [|a s IH]; intros [|x xs] Hp; simpl in *.
  - done.
  - apply prefix_cons_inv_1 in Hp. done.
  - apply prefix_cons_inv_2 in Hp. destruct s; simpl in Hp;
      by apply prefix_nil_not in Hp.
  - pose proof (prefix_cons_inv_1 _ _ _ _ Hp) as [= ->].
    f_equal. apply IH. by eapply prefix_cons_inv_2.
Qed.

(** The values delivered before the close are an initial segment of the
    stream. *)
Lemma open_stream_prefix {A : Type} (s xs : list A) :
  Some <$> s `prefix_of` (Some <$> xs) ++ [None] → s `prefix_of` xs.
Proof.
  revert xs. induction s as [|a s IH]; intros [|x xs] Hp; simpl in *.
  - done.
  - apply prefix_nil.
  - by apply prefix_cons_inv_1 in Hp.
  - pose proof (prefix_cons_inv_1 _ _ _ _ Hp) as [= ->].
    apply prefix_cons, IH. by eapply prefix_cons_inv_2.
Qed.

(** Lengths of a family of lists, bounded list by list. *)
Lemma concat_length_bound {A B : Type} (f : nat → list A)
    (xss : list (list B)) (c : nat) :
  (∀ i xs, xss !! i = Some xs → length (f i) ≤ length xs + c) →
  length (concat (f <$> seq 0 (length xss)))
  ≤ length (concat xss) + c * length xss.
Proof.
  induction xss as [|xs xss IH] using rev_ind; intros Hf; [simpl; lia|].
  rewrite length_app. simpl length. rewrite seq_app, fmap_app, !concat_app.
  rewrite !length_app. simpl. rewrite !app_nil_r.
  assert (length (f (length xss)) ≤ length xs + c) as Hlast.
  { apply Hf. rewrite lookup_app_r by lia. by rewrite Nat.sub_diag. }
  assert (length (concat (f <$> seq 0 (length xss)))
          ≤ length (concat xss) + c * length xss) as Hrest.
  { apply IH. intros i ys Hi. apply Hf. by apply lookup_app_l_Some. }
  lia.
Qed.

(** *** Merge *)

Section MergeFacts.
Context {T : Type} `{!EqDecision T}.

Local Abbreviation mstate := (@MergeState T).
Local Abbreviation mevent := (@MergeEvent T).

Lemma merge_step_inv ev (a b : mstate) :
  merge_step ev a = Some b →
  match ev with
  | MRecv i x =>
      m_forwarders a !! i = Some FRange
      ∧ b = set_forwarder i (match x with
                             | Some n => FSelect n
                             | None => FDeferred
                             end) a
  | MSend i x =>
      m_forwarders a !! i = Some (FSelect x) ∧ m_closed a = false
      ∧ b = set_forwarder i FRange a
  | MCtxDone i =>
      (∃ x, m_forwarders a !! i = Some (FSelect x))
      ∧ b = set_forwarder i FDeferred a
  | MWgDone i =>
      m_forwarders a !! i = Some FDeferred
      ∧ b = MkMerge (<[i:=FExited]> (m_forwarders a)) (m_wg a - 1)
                    (m_closer a) (m_closed a)
  | MWaitReturn =>
      m_closer a = CWait ∧ m_wg a = 0%Z
      ∧ b = MkMerge (m_forwarders a) (m_wg a) CClose (m_closed a)
  | MClose =>
      m_closer a = CClose ∧ m_closed a = false
      ∧ b = MkMerge (m_forwarders a) (m_wg a) CExited true
  end.
Proof.
  unfold merge_step. destruct ev as [i x|i x|i|i| |].
  1-4: destruct (m_forwarders a !! i) as [[]|]; try done;
    repeat case_match; intros; simplify_eq/=; eauto.
  all: destruct (m_closer a); try done; repeat case_match; intros;
    simplify_eq/=; eauto.
Qed.

Lemma count_replicate_live n :
  length (List.filter live (replicate n (@FRange T))) = n.
Proof. induction n; simpl; auto. Qed.

Lemma merge_inv_start n : merge_inv n [] (@Merge T n).
Proof.
  unfold merge_inv, Merge; simpl. rewrite length_replicate, count_replicate_live.
  repeat split; try done; try lia.
  - intros i pc [-> _]%lookup_replicate. done.
  - intros p Hp. by apply elem_of_nil in Hp.
  - intros p Hp. by apply elem_of_nil in Hp.
Qed.

Lemma merge_recvs_of_snoc i tr (ev : mevent) :
  merge_recvs_of i (tr ++ [ev])
  = merge_recvs_of i tr
    ++ match ev with
       | MRecv j x => if decide (j = i) then [x] else []
       | _ => []
       end.
Proof.
  unfold merge_recvs_of, merge_tagged_recvs.
  rewrite omap_app, select_tag_app. f_equal.
  destruct ev; try done. unfold select_tag; simpl. by case_decide.
Qed.

Lemma merge_sends_of_snoc i tr (ev : mevent) :
  merge_sends_of i (tr ++ [ev])
  = merge_sends_of i tr
    ++ match ev with
       | MSend j x => if decide (j = i) then [x] else []
       | _ => []
       end.
Proof.
  unfold merge_sends_of, merge_tagged_sends.
  rewrite omap_app, select_tag_app. f_equal.
  destruct ev; try done. unfold select_tag; simpl. by case_decide.
Qed.

Lemma merge_wg_dones_snoc tr (ev : mevent) :
  merge_wg_dones (tr ++ [ev])
  = merge_wg_dones tr + match ev with MWgDone _ => 1 | _ => 0 end.
Proof.
  unfold merge_wg_dones. rewrite omap_app, length_app. f_equal.
  by destruct ev.
Qed.

Lemma merge_closer_events_snoc tr (ev : mevent) :
  merge_closer_events (tr ++ [ev])
  = merge_closer_events tr
    + match ev with MWaitReturn | MClose => 1 | _ => 0 end.
Proof.
  unfold merge_closer_events. rewrite omap_app, length_app. f_equal.
  by destruct ev.
Qed.

Lemma merge_tagged_sends_snoc tr (ev : mevent) :
  merge_tagged_sends (tr ++ [ev])
  = merge_tagged_sends tr
    ++ match ev with MSend i x => [(i, x)] | _ => [] end.
Proof.
  unfold merge_tagged_sends. rewrite omap_app. f_equal. by destruct ev.
Qed.

Lemma merge_tagged_recvs_snoc tr (ev : mevent) :
  merge_tagged_recvs (tr ++ [ev])
  = merge_tagged_recvs tr
    ++ match ev with MRecv i x => [(i, x)] | _ => [] end.
Proof.
  unfold merge_tagged_recvs. rewrite omap_app. f_equal. by destruct ev.
Qed.

Lemma merge_inv_step n tr ev (a b : mstate) :
  merge_inv n tr a → merge_cancelled ev = false →
  merge_step ev a = Some b → merge_inv n (tr ++ [ev]) b.
Proof.
  intros (Hlen & Hfw & Hts & Htr & Hwg & Hdn & Hcl) Hnc Hstep.
  apply merge_step_inv in Hstep. unfold merge_inv.
  rewrite merge_wg_dones_snoc, merge_closer_events_snoc,
    merge_tagged_sends_snoc, merge_tagged_recvs_snoc.
  setoid_rewrite merge_recvs_of_snoc. setoid_rewrite merge_sends_of_snoc.
  destruct a as [fw wg cl cd]; simpl in *.
  destruct ev as [i x|i x|i|i| |]; simpl in *; try done.
  - (* MRecv *)
    destruct Hstep as [Hi ->]. unfold set_forwarder; simpl.
    pose proof (lookup_lt_Some _ _ _ Hi) as Hlt.
    split; [by rewrite length_insert|]. split.
    { intros j pc Hj. destruct (decide (i = j)) as [<-|Hne].
      - rewrite list_lookup_insert_eq in Hj by done. simplify_eq.
        specialize (Hfw _ _ Hi). simpl in Hfw. rewrite app_nil_r, Hfw.
        destruct x; simpl; [by rewrite fmap_app|done].
      - rewrite list_lookup_insert_ne in Hj by done.
        rewrite !app_nil_r. eauto. }
    split; [by rewrite app_nil_r|]. split.
    { intros p [Hp|Hp%list_elem_of_singleton]%elem_of_app; [eauto|].
      subst p. simpl. lia. }
    split.
    { pose proof (count_insert live fw i _
        (match x with Some n => FSelect n | None => FDeferred end) Hi) as Hc.
      rewrite Hwg. destruct x; simpl in Hc; lia. }
    split; [lia|]. by rewrite Nat.add_0_r.
  - (* MSend *)
    destruct Hstep as (Hi & Hcd & ->). unfold set_forwarder; simpl.
    pose proof (lookup_lt_Some _ _ _ Hi) as Hlt.
    split; [by rewrite length_insert|]. split.
    { intros j pc Hj. destruct (decide (i = j)) as [<-|Hne].
      - rewrite list_lookup_insert_eq in Hj by done. simplify_eq.
        specialize (Hfw _ _ Hi). simpl in Hfw. by rewrite app_nil_r.
      - rewrite list_lookup_insert_ne in Hj by done.
        rewrite !app_nil_r. eauto. }
    split.
    { intros p [Hp|Hp%list_elem_of_singleton]%elem_of_app; [eauto|].
      subst p. simpl. lia. }
    split; [by rewrite app_nil_r|]. split.
    { pose proof (count_insert live fw i _ FRange Hi) as Hc.
      rewrite Hwg. simpl in Hc; lia. }
    split; [lia|]. by rewrite Nat.add_0_r.
  - (* MWgDone *)
    destruct Hstep as (Hi & ->). simpl.
    pose proof (lookup_lt_Some _ _ _ Hi) as Hlt.
    pose proof (count_insert live fw i _ FExited Hi) as Hc.
    pose proof (count_pos live fw i _ Hi eq_refl) as Hp. simpl in Hc.
    split; [by rewrite length_insert|]. split.
    { intros j pc Hj. rewrite !app_nil_r. destruct (decide (i = j)) as [<-|Hne].
      - rewrite list_lookup_insert_eq in Hj by done. simplify_eq.
        apply (Hfw _ _ Hi).
      - rewrite list_lookup_insert_ne in Hj by done. eauto. }
    rewrite !app_nil_r. repeat (split; [done || lia|]).
    rewrite Nat.add_0_r. destruct cl; intuition lia.
  - (* MWaitReturn *)
    destruct Hstep as (-> & -> & ->). simpl. destruct Hcl as [-> Hcl].
    rewrite !app_nil_r.
    repeat split; try done; try lia.
    intros j pc Hj. rewrite !app_nil_r. eauto.
  - (* MClose *)
    destruct Hstep as (-> & -> & ->). simpl. destruct Hcl as (_ & -> & Hcl).
    rewrite !app_nil_r.
    repeat split; try done; try lia.
    intros j pc Hj. rewrite !app_nil_r. eauto.
Qed.

Lemma merge_inv_run n tr (st : mstate) :
  exec merge_step (Merge n) tr = Some st →
  (∀ ev, ev ∈ tr → merge_cancelled ev = false) →
  merge_inv n tr st.
Proof.
  revert st. induction tr as [|ev tr IH] using rev_ind; intros st.
  - intros [= <-] _. apply merge_inv_start.
  - intros (s1 & H1 & Hstep)%exec_snoc Hnc.
    eapply merge_inv_step; [|by apply Hnc, elem_of_app; right; left|done].
    apply IH; [done|]. intros e He. apply Hnc, elem_of_app. by left.
Qed.

Lemma merge_recvs_of_elem i x (tr : list mevent) :
  x ∈ merge_recvs_of i tr → MRecv i x ∈ tr.
Proof.
  unfold merge_recvs_of, select_tag, merge_tagged_recvs.
  intros ([j y] & Hp & Hy)%list_elem_of_omap. simpl in Hy.
  case_decide; simplify_eq/=.
  apply list_elem_of_omap in Hp as (ev & Hev & Hp).
  by destruct ev; simplify_eq/=.
Qed.

(** Once [out] is closed every forwarder has exited, after its channel was
    found closed. *)
Lemma merge_closed_forwarders n tr (st : mstate) i :
  merge_inv n tr st → m_closed st = true → i < n →
  m_forwarders st !! i = Some FExited
  ∧ merge_recvs_of i tr = (Some <$> merge_sends_of i tr) ++ [None].
Proof.
  intros (Hlen & Hfw & _ & _ & Hwg & _ & Hcl) Hcd Hi.
  destruct (lookup_lt_is_Some_2 (m_forwarders st) i) as [pc Hpc]; [lia|].
  assert (m_wg st = 0%Z) as Hz.
  { destruct (m_closer st); destruct Hcl as [? Hcl]; [congruence..|tauto]. }
  specialize (Hfw _ _ Hpc).
  destruct (live pc) eqn:Hlive.
  - pose proof (count_pos live _ _ _ Hpc Hlive). lia.
  - destruct pc; try done.
Qed.

(** At the close everything has been forwarded. *)
Lemma merge_closed_sends xss tr (st : mstate) :
  merge_inv (length xss) tr st → follows_streams xss tr →
  m_closed st = true →
  merge_sends tr ≡ₚ concat xss.
Proof.
  intros Hinv Hfs Hcd. unfold merge_sends.
  rewrite (tagged_interleaving _ (length xss)) by apply Hinv.
  match goal with |- concat ?a ≡ₚ _ => assert (a = xss) as ->; [|done] end.
  apply list_eq. intros i. rewrite list_lookup_fmap.
  destruct (xss !! i) as [xs|] eqn:Hi.
  - pose proof (lookup_lt_Some _ _ _ Hi) as Hlt.
    rewrite (proj2 (lookup_seq 0 (length xss) i i)) by done. simpl. f_equal.
    destruct (merge_closed_forwarders _ _ _ i Hinv Hcd Hlt) as [_ Hr].
    apply closed_stream_complete. unfold merge_sends_of in Hr.
    rewrite <- Hr. by apply Hfs.
  - apply lookup_ge_None in Hi. rewrite lookup_ge_None_2; [done|].
    by rewrite length_seq.
Qed.

(** Once [out] is closed, no goroutine of Merge has a step left. *)
Lemma merge_closed_final n tr (st : mstate) ev :
  merge_inv n tr st → m_closed st = true → merge_step ev st = None.
Proof.
  intros Hinv Hcd.
  destruct (merge_step ev st) as [b|] eqn:Hstep; [exfalso|done].
  apply merge_step_inv in Hstep.
  assert (m_closer st = CExited) as Hcl.
  { destruct Hinv as (_ & _ & _ & _ & _ & _ & Hcl).
    destruct (m_closer st); destruct Hcl; congruence. }
  assert (∀ i pc, m_forwarders st !! i = Some pc → pc = FExited) as Hex.
  { intros i pc Hi. pose proof (lookup_lt_Some _ _ _ Hi) as Hlt.
    rewrite (proj1 Hinv) in Hlt.
    destruct (merge_closed_forwarders _ _ _ i Hinv Hcd Hlt) as [Hf _].
    congruence. }
  destruct ev; simpl in Hstep.
  - destruct Hstep as [Hi _]. by specialize (Hex _ _ Hi).
  - destruct Hstep as [Hi _]. by specialize (Hex _ _ Hi).
  - destruct Hstep as [[x Hi] _]. by specialize (Hex _ _ Hi).
  - destruct Hstep as [Hi _]. by specialize (Hex _ _ Hi).
  - destruct Hstep as [Hc _]. congruence.
  - destruct Hstep as [Hc _]. congruence.
Qed.

Lemma merge_sends_of_bound xss tr (st : mstate) i xs :
  merge_inv (length xss) tr st → follows_streams xss tr →
  xss !! i = Some xs →
  length (merge_sends_of i tr) ≤ length xs.
Proof.
  intros (Hlen & Hfw & _) Hfs Hi.
  pose proof (lookup_lt_Some _ _ _ Hi) as Hlt.
  destruct (lookup_lt_is_Some_2 (m_forwarders st) i) as [pc Hpc]; [lia|].
  specialize (Hfw _ _ Hpc). specialize (Hfs _ _ Hi).
  destruct pc; simpl in Hfw; rewrite Hfw in Hfs.
  - by apply open_stream_prefix, prefix_length in Hfs.
  - apply open_stream_prefix, prefix_length in Hfs.
    rewrite length_app in Hfs. lia.
  - by apply closed_stream_complete in Hfs as ->.
  - by apply closed_stream_complete in Hfs as ->.
Qed.

Lemma merge_trace_length (tr : list mevent) :
  (∀ ev, ev ∈ tr → merge_cancelled ev = false) →
  length tr = length (merge_tagged_recvs tr) + length (merge_tagged_sends tr)
              + merge_wg_dones tr + merge_closer_events tr.
Proof.
  induction tr as [|ev tr IH] using rev_ind; intros Hnc; [done|].
  assert (merge_cancelled ev = false) as Hev.
  { apply Hnc, elem_of_app. right. left. }
  assert (∀ e, e ∈ tr → merge_cancelled e = false) as Htr.
  { intros e He. apply Hnc, elem_of_app. by left. }
  specialize (IH Htr).
  rewrite merge_tagged_recvs_snoc, merge_tagged_sends_snoc,
    merge_wg_dones_snoc, merge_closer_events_snoc, !length_app.
  destruct ev; simpl in *; try done; lia.
Qed.

(** Every run against finite streams is short: two events for each item,
    two for each forwarder to finish, two for the closer. *)
Lemma merge_run_bound xss tr (st : mstate) :
  merge_inv (length xss) tr st → follows_streams xss tr →
  (∀ ev, ev ∈ tr → merge_cancelled ev = false) →
  length tr ≤ 2 * length (concat xss) + 2 * length xss + 2.
Proof.
  intros Hinv Hfs Hnc. rewrite (merge_trace_length tr Hnc).
  assert (length (merge_tagged_recvs tr)
          ≤ length (concat xss) + 1 * length xss) as Hr.
  { rewrite <- (length_fmap snd).
    rewrite (tagged_interleaving _ (length xss)) by apply Hinv.
    apply concat_length_bound. intros i xs Hi.
    specialize (Hfs _ _ Hi). apply prefix_length in Hfs.
    rewrite length_app, length_fmap in Hfs. simpl in Hfs.
    unfold merge_recvs_of in Hfs. lia. }
  assert (length (merge_tagged_sends tr)
          ≤ length (concat xss) + 0 * length xss) as Hs.
  { rewrite <- (length_fmap snd).
    rewrite (tagged_interleaving _ (length xss)) by apply Hinv.
    apply concat_length_bound. intros i xs Hi.
    pose proof (merge_sends_of_bound _ _ _ _ _ Hinv Hfs Hi) as Hb.
    unfold merge_sends_of in Hb. lia. }
  destruct Hinv as (_ & _ & _ & _ & Hwg & Hdn & Hcl).
  assert (merge_closer_events tr ≤ 2).
  { destruct (m_closer st); intuition lia. }
  lia.
Qed.

Lemma live_forwarder_exists (fw : list (@ForwarderPc T)) :
  0 < length (List.filter live fw) →
  ∃ i pc, fw !! i = Some pc ∧ live pc = true.
Proof.
  induction fw as [|a fw IH]; simpl; [lia|].
  destruct (live a) eqn:Ha.
  - intros _. by exists 0, a.
  - intros (i & pc & Hi & Hl)%IH. by exists (S i), pc.
Qed.

Lemma follows_streams_snoc_other xss tr (ev : mevent) :
  follows_streams xss tr →
  match ev with MRecv _ _ => False | _ => True end →
  follows_streams xss (tr ++ [ev]).
Proof.
  intros Hfs Hev i xs Hi. rewrite merge_recvs_of_snoc.
  destruct ev; try done; rewrite app_nil_r; eauto.
Qed.

(** Until [out] is closed some goroutine of Merge can move, given that each
    channel delivers its next item or its close to a waiting forwarder and
    that [out] has a receiver. *)
Lemma merge_progress xss tr (st : mstate) :
  merge_inv (length xss) tr st → follows_streams xss tr →
  m_closed st = false →
  ∃ ev, enabled merge_step ev st ∧ merge_cancelled ev = false
        ∧ follows_streams xss (tr ++ [ev]).
Proof.
  intros Hinv Hfs Hcd.
  pose proof Hinv as (Hlen & Hfw & _ & _ & Hwg & _ & Hcl).
  destruct (decide (m_wg st = 0%Z)) as [Hz|Hnz].
  - destruct (m_closer st) eqn:Hc.
    + exists MWaitReturn. split; [|split; [done|]].
      * unfold enabled, merge_step. rewrite Hc, decide_True by done. eauto.
      * by apply follows_streams_snoc_other.
    + exists MClose. split; [|split; [done|]].
      * unfold enabled, merge_step. rewrite Hc, Hcd. eauto.
      * by apply follows_streams_snoc_other.
    + destruct Hcl. congruence.
  - destruct (live_forwarder_exists (m_forwarders st)) as (i & pc & Hi & Hl);
      [lia|].
    pose proof (lookup_lt_Some _ _ _ Hi) as Hlt. rewrite Hlen in Hlt.
    destruct (lookup_lt_is_Some_2 xss i Hlt) as [xs Hxs].
    specialize (Hfw _ _ Hi). destruct pc as [|x| |]; simpl in Hfw; [| | |done].
    + destruct (Hfs _ _ Hxs) as [k Hk]. destruct k as [|x k].
      { exfalso. rewrite app_nil_r, Hfw in Hk.
        assert (None ∈ Some <$> merge_sends_of i tr) as Hin.
        { rewrite <- Hk. apply elem_of_app. right. left. }
        by apply list_elem_of_fmap in Hin as (? & ? & ?). }
      exists (MRecv i x). split; [|split; [done|]].
      * unfold enabled, merge_step. rewrite Hi. eauto.
      * intros j ys Hj. rewrite merge_recvs_of_snoc.
        destruct (decide (i = j)) as [<-|Hne].
        -- simplify_eq. rewrite Hk. exists k. by rewrite <- app_assoc.
        -- rewrite app_nil_r. eauto.
    + exists (MSend i x). split; [|split; [done|]].
      * unfold enabled, merge_step. rewrite Hi, decide_True, Hcd by done. eauto.
      * by apply follows_streams_snoc_other.
    + exists (MWgDone i). split; [|split; [done|]].
      * unfold enabled, merge_step. rewrite Hi. eauto.
      * by apply follows_streams_snoc_other.
Qed.

(** [out], once closed, stays closed; [close(out)] is what closes it. *)
Lemma merge_step_closed ev (a b : mstate) :
  merge_step ev a = Some b →
  m_closed b = true ↔ (m_closed a = true ∨ ev = MClose).
Proof.
  intros Hstep%merge_step_inv. destruct a as [fw wg cl cd].
  destruct ev; simpl in *; destruct_and?; simplify_eq/=; split;
    try tauto; try (intros [?|?]; done).
Qed.

Lemma merge_run_closed n tr (st : mstate) :
  exec merge_step (Merge n) tr = Some st →
  m_closed st = true ↔ MClose ∈ tr.
Proof.
  revert st. induction tr as [|ev tr IH] using rev_ind; intros st.
  - intros [= <-]. simpl. split; [done|]. by intros ?%elem_of_nil.
  - intros (s1 & H1 & Hstep)%exec_snoc.
    rewrite (merge_step_closed _ _ _ Hstep), (IH _ H1), elem_of_app,
      list_elem_of_singleton. split; (intros [?|?]; [by left|by right]).
Qed.

Lemma length_concat_sum {A : Type} (xss : list (list A)) :
  length (concat xss) = sum_list (length <$> xss).
Proof.
  induction xss as [|xs xss IH]; [done|].
  rewrite fmap_cons. simpl. by rewrite length_app, IH.
Qed.

Lemma merge_no_channels tr (st : mstate) :
  exec merge_step (Merge 0) tr = Some st →
  tr `prefix_of` [MWaitReturn; MClose].
Proof.
  destruct tr as [|e1 tr]; [intros _; apply prefix_nil|].
  destruct e1 as [[|?] ?|[|?] ?|[|?]|[|?]| |]; try done.
  destruct tr as [|e2 tr]; [intros _; by exists [MClose]|].
  destruct e2 as [[|?] ?|[|?] ?|[|?]|[|?]| |]; try done.
  destruct tr as [|e3 tr]; [done|].
  destruct e3 as [[|?] ?|[|?] ?|[|?]|[|?]| |]; done.
Qed.

(** C3.  Merge of N channels that deliver the finite streams [xss], with
    cancellation never firing.  In every run, at the close of [out] the
    values sent on [out] are a permutation of all items of all streams
    (so their number is the sum of the sizes), every channel has been found
    closed by its forwarder before, and the close is the last event: nothing
    is sent afterwards.  Before the close some goroutine can always move,
    and no run is longer than two events per item and forwarder plus two, so
    the close is reached.  For N = 0 the only events are the return of
    [wg.Wait()] and the close. *)
Theorem Merge_emits_all_and_closes_last (xss : list (list T)) :
  (∀ tr (st : mstate),
     exec merge_step (Merge (length xss)) tr = Some st →
     follows_streams xss tr →
     (∀ ev, ev ∈ tr → merge_cancelled ev = false) →
     (m_closed st = true →
        merge_sends tr ≡ₚ concat xss
        ∧ length (merge_sends tr) = sum_list (length <$> xss)
        ∧ (∀ i, i < length xss →
             m_forwarders st !! i = Some FExited ∧ MRecv i None ∈ tr)
        ∧ last tr = Some MClose
        ∧ ∀ ev, merge_step ev st = None)
     ∧ (m_closed st = false →
          (MClose ∉ tr)
          ∧ ∃ ev, enabled merge_step ev st ∧ merge_cancelled ev = false
                  ∧ follows_streams xss (tr ++ [ev]))
     ∧ length tr ≤ 2 * length (concat xss) + 2 * length xss + 2)
  ∧ (xss = [] →
       exec merge_step (@Merge T 0) [MWaitReturn; MClose]
         = Some (MkMerge [] 0 CExited true)
       ∧ ∀ tr (st : mstate), exec merge_step (Merge 0) tr = Some st →
           tr `prefix_of` [MWaitReturn; MClose]).
Proof.
  split.
  - intros tr st Hrun Hfs Hnc.
    pose proof (merge_inv_run _ _ _ Hrun Hnc) as Hinv.
    split; [|split].
    + intros Hcd.
      pose proof (merge_closed_sends _ _ _ Hinv Hfs Hcd) as Hperm.
      split; [done|]. split.
      { by rewrite Hperm, length_concat_sum. }
      split.
      { intros i Hi.
        destruct (merge_closed_forwarders _ _ _ i Hinv Hcd Hi) as [Hf Hr].
        split; [done|]. apply merge_recvs_of_elem. rewrite Hr.
        apply elem_of_app. right. left. }
      split; [|intros ev; by eapply merge_closed_final].
      destruct tr as [|ev tr _] using rev_ind; [by simplify_eq/=|].
      rewrite last_snoc. f_equal.
      apply exec_snoc in Hrun as (s1 & H1 & Hstep).
      apply (merge_step_closed _ _ _ Hstep) in Hcd as [Hcd|Hcd]; [|done].
      assert (merge_inv (length xss) tr s1) as Hinv1.
      { apply merge_inv_run; [done|]. intros e He.
        apply Hnc, elem_of_app. by left. }
      by rewrite (merge_closed_final _ _ _ ev Hinv1 Hcd) in Hstep.
    + intros Hcd. split; [|by apply merge_progress].
      intros Hin%(merge_run_closed _ _ _ Hrun). congruence.
    + by eapply merge_run_bound.
  - intros _. split; [done|]. apply merge_no_channels.
Qed.

End MergeFacts.

Lemma Merge_emits_all_and_closes_last_witness :
  merge_sends merge_two_run ≡ₚ concat [["a"]; ["b"]].
Proof.
  destruct (Merge_emits_all_and_closes_last [["a"]; ["b"]]) as [H _].
  refine (proj1 (proj1 (H merge_two_run
            (MkMerge [FExited; FExited] 0 CExited true) _ _ _) _)).
  - reflexivity.
  - intros [|[|i]] xs Hi; simplify_eq/=.
    + by exists [].
    + by exists [].
  - intros ev Hev. unfold merge_two_run in Hev.
    repeat (apply elem_of_cons in Hev as [->|Hev]; [done|]).
    by apply elem_of_nil in Hev.
  - reflexivity.
Defined.

(** *** step: where the sent values come from *)

Lemma bind_insert_perm {A B : Type} (f : A → list B) l i x y :
  l !! i = Some x →
  (<[i:=y]> l ≫= f) ++ f x ≡ₚ (l ≫= f) ++ f y.
Proof.
  intros Hi. pose proof (lookup_lt_Some _ _ _ Hi) as Hlt.
  rewrite insert_take_drop by done.
  rewrite <- (take_drop_middle l i x Hi) at 3.
  rewrite !bind_app, !bind_cons. solve_Permutation.
Qed.

Section StageFlow.
Context {In Out : Type} `{!EqDecision Out} (fn : In → Out * error).

Local Abbreviation state := (@StageState In Out).

(** One step: what is sent and what is still pending afterwards was pending
    before, or is the outcome of the item just read. *)
Lemma stage_step_flow ev (a b : state) :
  stage_step fn ev a = Some b →
  stage_event_sent ev ++ stage_pending fn b
  ⊆+ stage_pending fn a ++ (outcome ∘ fn <$> stage_event_recv ev).
Proof.
  unfold stage_step. destruct (st_panicked a); [done|].
  destruct a as [pc lim sem ws oc ec pn]; unfold stage_pending; simpl.
  destruct ev as [| [x|] | | | | | v | v | v y | v e | v | v]; simpl;
    unfold stage_loop_step, stage_worker_step, set_pc, set_worker; simpl.
  1-7: destruct pc; try done; repeat case_match; simplify_eq/=;
    intros Hb; simplify_option_eq; rewrite ?bind_app; simpl;
    try solve_submseteq.
  all: destruct (ws !! v) as [z|] eqn:Ew; [|done]; destruct z; try done;
    repeat case_match; simplify_eq/=; try done; intros Hb; simplify_eq/=;
    try solve_submseteq.
  all: match goal with
       | Ew : ?ws !! ?v = Some ?x |- context [<[?v:=?y]> ?ws] =>
           pose proof (bind_insert_perm (worker_pending fn) ws v x y Ew) as Hp
       end; simpl in Hp.
  all: apply Permutation_submseteq.
  all: rewrite ?app_nil_r in *.
  all: try apply Permutation_app_inv_r in Hp.
  all: first [ by rewrite Hp
             | rewrite <- Hp; unfold outcome; simpl; solve_Permutation ].
Qed.

(** Along a run, what the stage has sent and what is still pending in it
    are outcomes of [fn] on items it has read, each item used once. *)
Lemma stage_sent_app (tr1 tr2 : list (@StageEvent In Out)) :
  stage_sent (tr1 ++ tr2) = stage_sent tr1 ++ stage_sent tr2.
Proof. apply omap_app. Qed.

Lemma stage_recvs_app (tr1 tr2 : list (@StageEvent In Out)) :
  stage_recvs (tr1 ++ tr2) = stage_recvs tr1 ++ stage_recvs tr2.
Proof. apply omap_app. Qed.

Lemma stage_run_flow (a b : state) tr :
  exec (stage_step fn) a tr = Some b →
  stage_sent tr ++ stage_pending fn b
  ⊆+ stage_pending fn a ++ (outcome ∘ fn <$> stage_recvs tr).
Proof.
  revert a. induction tr as [|ev tr IH]; intros a Hrun.
  - simpl in Hrun. simplify_eq. simpl. by rewrite app_nil_r.
  - simpl in Hrun.
    destruct (stage_step fn ev a) as [c|] eqn:Hstep; [|done].
    specialize (IH _ Hrun). apply stage_step_flow in Hstep.
    change (ev :: tr) with ([ev] ++ tr).
    rewrite stage_sent_app, stage_recvs_app, fmap_app.
    assert (stage_sent [ev] = stage_event_sent ev) as -> by by destruct ev.
    assert (stage_recvs [ev] = stage_event_recv ev) as ->
      by by destruct ev as [|[?|]| | | | | | | | | |].
    trans (stage_event_sent ev ++ stage_pending fn c
           ++ (outcome ∘ fn <$> stage_recvs tr)).
    { rewrite <- (assoc (++)). by apply submseteq_skips_l. }
    trans ((stage_pending fn a ++ (outcome ∘ fn <$> stage_event_recv ev))
           ++ (outcome ∘ fn <$> stage_recvs tr)).
    { rewrite (assoc (++)). by apply submseteq_skips_r. }
    by rewrite <- (assoc (++)).
Qed.

End StageFlow.

(** *** Merge: where the sent values come from *)

Section MergeFlow.
Context {T : Type} `{!EqDecision T}.

Local Abbreviation mstate := (@MergeState T).
Local Abbreviation mevent := (@MergeEvent T).

Lemma merge_step_flow ev (a b : mstate) :
  merge_step ev a = Some b →
  merge_sends [ev] ++ merge_pending b
  ⊆+ merge_pending a ++ merge_received [ev].
Proof.
  intros Hstep%merge_step_inv. unfold merge_pending.
  destruct a as [fw wg cl cd].
  destruct ev as [i x|i x|i|i| |]; simpl in *.
  - destruct Hstep as [Hi ->]. simpl.
    pose proof (bind_insert_perm forwarder_pending fw i _
      (match x with Some n => FSelect n | None => FDeferred end) Hi) as Hp.
    simpl in Hp. rewrite app_nil_r in Hp. apply Permutation_submseteq.
    rewrite Hp. by destruct x; simpl; rewrite ?app_nil_r.
  - destruct Hstep as (Hi & _ & ->). simpl.
    pose proof (bind_insert_perm forwarder_pending fw i _ FRange Hi) as Hp.
    simpl in Hp. rewrite !app_nil_r in *. apply Permutation_submseteq.
    rewrite <- Hp. unfold merge_sends. simpl. solve_Permutation.
  - destruct Hstep as ([x Hi] & ->). simpl.
    pose proof (bind_insert_perm forwarder_pending fw i _ FDeferred Hi) as Hp.
    simpl in Hp. rewrite !app_nil_r in *. rewrite <- Hp. solve_submseteq.
  - destruct Hstep as (Hi & ->). simpl.
    pose proof (bind_insert_perm forwarder_pending fw i _ FExited Hi) as Hp.
    simpl in Hp. rewrite !app_nil_r in *. by rewrite Hp.
  - destruct Hstep as (_ & _ & ->). simpl. by rewrite app_nil_r.
  - destruct Hstep as (_ & _ & ->). simpl. by rewrite app_nil_r.
Qed.

Lemma merge_sends_app (tr1 tr2 : list mevent) :
  merge_sends (tr1 ++ tr2) = merge_sends tr1 ++ merge_sends tr2.
Proof. unfold merge_sends, merge_tagged_sends. by rewrite omap_app, fmap_app. Qed.

Lemma merge_received_app (tr1 tr2 : list mevent) :
  merge_received (tr1 ++ tr2) = merge_received tr1 ++ merge_received tr2.
Proof. apply omap_app. Qed.

(** Along a run, with or without cancellation: what has been sent on [out]
    and what the forwarders hold has been received from the channels. *)
Lemma merge_run_flow (a b : mstate) tr :
  exec merge_step a tr = Some b →
  merge_sends tr ++ merge_pending b ⊆+ merge_pending a ++ merge_received tr.
Proof.
  revert a. induction tr as [|ev tr IH]; intros a Hrun.
  - simpl in Hrun. simplify_eq. simpl. by rewrite app_nil_r.
  - simpl in Hrun.
    destruct (merge_step ev a) as [c|] eqn:Hstep; [|done].
    specialize (IH _ Hrun). apply merge_step_flow in Hstep.
    change (ev :: tr) with ([ev] ++ tr).
    rewrite merge_sends_app, merge_received_app.
    trans (merge_sends [ev] ++ merge_pending c ++ merge_received tr).
    { rewrite <- (assoc (++)). by apply submseteq_skips_l. }
    trans ((merge_pending a ++ merge_received [ev]) ++ merge_received tr).
    { rewrite (assoc (++)). by apply submseteq_skips_r. }
    by rewrite <- (assoc (++)).
Qed.

Lemma merge_pending_start n : merge_pending (@Merge T n) = [].
Proof. unfold merge_pending; simpl. induction n; simpl; auto. Qed.

End MergeFlow.

(** *** main: the goroutines inside the program *)

Section MainFacts.
Variables ToLower Title : string → string.

Local Abbreviation gstep := (pipeline_step ToLower Title).

Local Arguments producer_step : simpl never.
Local Arguments stage_step : simpl never.
Local Arguments merge_step : simpl never.
Local Arguments sink_step : simpl never.

(** A step of the program is a step, or none, of each goroutine. *)
Lemma pipeline_step_components ev g g' :
  gstep ev g = Some g' →
  exec producer_step (g_producer g) (on_producer ev) = Some (g_producer g')
  ∧ exec (stage_step (transformA ToLower)) (g_step1 g) (on_step1 ev)
    = Some (g_step1 g')
  ∧ exec (stage_step (transformB Title)) (g_step2 g) (on_step2 ev)
    = Some (g_step2 g')
  ∧ exec merge_step (g_merge g) (on_merge ev) = Some (g_merge g')
  ∧ exec sink_step (g_sink g) (on_sink ev) = Some (g_sink g').
Proof.
  unfold pipeline_step. destruct (pipeline_dead g); [done|].
  destruct ev; simpl.
  all: repeat match goal with
       | |- context [if ?b && ?c then _ else _] =>
           destruct b eqn:?; simpl; [destruct c eqn:?; simpl|]; try done
       end.
  all: repeat match goal with
       | |- (match ?x with _ => _ end) = Some _ → _ =>
           destruct x eqn:?; simpl; try done
       | |- (?x ≫= _) = Some _ → _ =>
           destruct x eqn:?; simpl; try done
       end.
  all: intros [= <-]; simpl; repeat split; try done.
  all: repeat match goal with H : _ = Some _ |- _ => rewrite H; clear H end;
    try done.
  all: match goal with
       | H : ?a = Some ?m |- match ?b with _ => _ end = Some ?m =>
           change b with a; by rewrite H
       end.
Qed.

Lemma pipeline_run_components tr g g' :
  exec gstep g tr = Some g' →
  exec producer_step (g_producer g) (tr ≫= on_producer) = Some (g_producer g')
  ∧ exec (stage_step (transformA ToLower)) (g_step1 g) (tr ≫= on_step1)
    = Some (g_step1 g')
  ∧ exec (stage_step (transformB Title)) (g_step2 g) (tr ≫= on_step2)
    = Some (g_step2 g')
  ∧ exec merge_step (g_merge g) (tr ≫= on_merge) = Some (g_merge g')
  ∧ exec sink_step (g_sink g) (tr ≫= on_sink) = Some (g_sink g').
Proof.
  revert g. induction tr as [|ev tr IH]; intros g Hrun.
  - simpl in Hrun. by simplify_eq.
  - simpl in Hrun. destruct (gstep ev g) as [g1|] eqn:Hstep; [|done].
    destruct (pipeline_step_components _ _ _ Hstep) as (Hp & H1 & H2 & Hm & Hk).
    destruct (IH _ Hrun) as (Hp' & H1' & H2' & Hm' & Hk').
    rewrite !bind_cons, !exec_app, Hp, H1, H2, Hm, Hk. simpl. done.
Qed.

Lemma pipeline_step_cancelled ev g g' :
  gstep ev g = Some g' →
  g_cancelled g' =
    match ev with
    | GErrorOut _ (Some _) | GMainReturn => true
    | _ => g_cancelled g
    end
  ∧ match ev with
    | GErrorOut _ e => sink_step (KRecvErr e) (g_sink g) = Some (g_sink g')
    | GMainReturn => k_pc (g_sink g) = KReturned
    | _ => True
    end.
Proof.
  unfold pipeline_step. destruct (pipeline_dead g); [done|].
  destruct ev as [| | | | | | | | |i e| |]; simpl.
  all: repeat match goal with
       | |- context [if ?b && ?c then _ else _] =>
           destruct b eqn:?; simpl; [destruct c eqn:?; simpl|]; try done
       end.
  all: repeat match goal with
       | |- (match ?x with _ => _ end) = Some _ → _ =>
           destruct x eqn:?; simpl; try done
       | |- (?x ≫= _) = Some _ → _ =>
           destruct x eqn:?; simpl; try done
       end.
  all: intros [= <-]; simpl; try done.
  split; [|done].
  match goal with H : sink_step _ _ = Some _ |- _ => revert H end.
  unfold sink_step. destruct (k_pc (g_sink g)); [|done].
  destruct e as [msg|]; intros [= <-]; simpl.
  - unfold sink_cancels; simpl. rewrite omap_app, length_app. simpl.
    destruct (g_cancelled g); simpl; [done|].
    apply negb_true_iff, Nat.eqb_neq. lia.
  - rewrite Nat.eqb_refl. simpl. by rewrite orb_false_r.
Qed.

(** C2.  On a non-nil error the sink logs it and calls [cancelFunc], in
    this order, and goes back to its select.  In the running program the
    hand-over of a non-nil error to the sink always leaves the context
    cancelled, and it is the only step that cancels the context while the
    sink is running: the one other call of [cancel], deferred by [main],
    comes after the sink has returned.  No step undoes a cancellation. *)
Theorem sink_cancels_on_error_and_nothing_else_does :
  (∀ st msg, k_pc st = KSelect →
     sink_step (KRecvErr (Some msg)) st
     = Some (MkSink KSelect
               (k_effects st ++ [KLog ("error:  " +:+ msg); KCancel])))
  ∧ (∀ ev g g', gstep ev g = Some g' →
       (∀ i msg, ev = GErrorOut i (Some msg) →
          g_cancelled g' = true
          ∧ g_sink g' = MkSink KSelect
              (k_effects (g_sink g) ++ [KLog ("error:  " +:+ msg); KCancel]))
       ∧ (g_cancelled g = false → g_cancelled g' = true →
            (∃ i msg, ev = GErrorOut i (Some msg))
            ∨ (ev = GMainReturn ∧ k_pc (g_sink g) = KReturned))
       ∧ (g_cancelled g = true → g_cancelled g' = true)).
Proof.
  split.
  - intros st msg Hpc. unfold sink_step. by rewrite Hpc.
  - intros ev g g' Hstep.
    destruct (pipeline_step_cancelled _ _ _ Hstep) as [Hc Hk].
    split; [|split].
    + intros i msg ->. split; [done|].
      revert Hk. unfold sink_step. destruct (k_pc (g_sink g)); [|done].
      by intros [= <-].
    + intros Hf Ht. rewrite Ht, Hf in Hc.
      destruct ev as [| | | | | | | | |i [msg|]| |]; try done; eauto.
    + intros Ht. rewrite Ht in Hc.
      by destruct ev as [| | | | | | | | |i [msg|]| |].
Qed.

End MainFacts.

(** *** main: what reaches the sink *)

Lemma omap_bind {A B C : Type} (f : B → option C) (h : A → list B) l :
  omap f (l ≫= h) = l ≫= (λ x, omap f (h x)).
Proof.
  induction l as [|x l IH]; [done|].
  by rewrite !bind_cons, omap_app, IH.
Qed.

Lemma omap_submseteq {A B : Type} (f : A → option B) l1 l2 :
  l1 ⊆+ l2 → omap f l1 ⊆+ omap f l2.
Proof.
  induction 1 as [|x l1 l2 _ IH|x y l|x l1 l2 _ IH|l1 l2 l3 _ IH1 _ IH2]; simpl.
  - done.
  - destruct (f x); [by apply submseteq_skip|done].
  - destruct (f x), (f y); try done. apply submseteq_swap.
  - destruct (f x); [by apply submseteq_cons|done].
  - by trans (omap f l2).
Qed.

Lemma prefix_submseteq {A : Type} (l1 l2 : list A) :
  l1 `prefix_of` l2 → l1 ⊆+ l2.
Proof. intros [k ->]. by apply submseteq_inserts_r. Qed.

Section Scenario.
Variables ToLower Title : string → string.

Local Abbreviation gstep := (pipeline_step ToLower Title).
Local Abbreviation fnA := (transformA ToLower).
Local Abbreviation fnB := (transformB Title).

(** Both ends of a channel see the same values. *)
Lemma readStream_link (tr : list PipelineEvent) :
  stage_recvs (tr ≫= on_step1) = producer_sends (tr ≫= on_producer).
Proof.
  unfold stage_recvs, producer_sends. rewrite !omap_bind.
  apply list_bind_ext; [|done].
  intros [[]| |[| [?|] | | | | | | | | | |]| | | | | | | | |]; done.
Qed.

Lemma step1results_link (tr : list PipelineEvent) :
  stage_recvs (tr ≫= on_step2) = lefts (stage_sent (tr ≫= on_step1)).
Proof.
  unfold stage_recvs, lefts, stage_sent. rewrite !omap_bind.
  apply list_bind_ext; [|done].
  intros [| |[| [?|] | | | | | | | | | |]| |[| [?|] | | | | | | | | | |]
          | | | | | | |]; done.
Qed.

Lemma step2results_link (tr : list PipelineEvent) :
  pipeline_results tr = lefts (stage_sent (tr ≫= on_step2)).
Proof.
  unfold pipeline_results, lefts, stage_sent. rewrite !omap_bind.
  rewrite <- (list_bind_ext (λ ev, option_list
    match ev with GResult _ y => Some y | _ => None end) _ tr tr).
  - induction tr as [|ev tr IH]; [done|]. rewrite bind_cons. simpl.
    rewrite <- IH. by destruct ev.
  - intros [| | | |[| [?|] | | | | | | | | | |]| | | | | | |]; done.
  - done.
Qed.

Lemma allErrors_link (tr : list PipelineEvent) :
  pipeline_errors tr = omap id (merge_sends (tr ≫= on_merge)).
Proof.
  induction tr as [|ev tr IH]; [done|].
  rewrite bind_cons, merge_sends_app, omap_app, <- IH.
  destruct ev as [| | | | | | |me| |i e| |]; try done.
  - by destruct me as [? [?|]|? ?| | | |].
  - by destruct e.
Qed.

Lemma stepErrors_link (tr : list PipelineEvent) :
  omap id (merge_received (tr ≫= on_merge))
  ≡ₚ rights (stage_sent (tr ≫= on_step1))
     ++ rights (stage_sent (tr ≫= on_step2)).
Proof.
  induction tr as [|ev tr IH]; [done|].
  rewrite !bind_cons, merge_received_app, !stage_sent_app.
  unfold rights in *. rewrite !omap_app, IH.
  destruct ev as [| |[| [?|] | | | | | | | | | |]| |[| [?|] | | | | | | | | | |]
                  | | |[? [?|]|? ?| | | |]| | | |]; simpl; try done.
  apply Permutation_middle.
Qed.

Lemma producer_sends_prefix strings tr st :
  exec producer_step (producer strings).1 tr = Some st →
  producer_sends tr `prefix_of` strings.
Proof.
  intros (sent & -> & -> & _)%producer_run_shape.
  rewrite producer_sends_app, producer_sends_map.
  assert (producer_sends (producer_tail st) = []) as ->.
  { unfold producer_tail. by destruct (p_pc st), (p_rest st). }
  rewrite app_nil_r. by apply prefix_app_r.
Qed.

(** Whatever the interleaving, what the sink receives comes from the input
    through the two transforms: every result is the result of [transformB]
    on a result of [transformA] on an item of the input, every error is the
    error of a transform on such an item, and no item is used twice. *)
Lemma pipeline_delivers_outcomes strings g0 tr g :
  pipeline_start strings = Some g0 →
  exec gstep g0 tr = Some g →
  pipeline_results tr
    ⊆+ lefts (outcome ∘ fnB <$> lefts (outcome ∘ fnA <$> strings))
  ∧ pipeline_errors tr
    ⊆+ rights (outcome ∘ fnA <$> strings)
       ++ rights (outcome ∘ fnB <$> lefts (outcome ∘ fnA <$> strings)).
Proof.
  intros [= <-] Hrun.
  destruct (pipeline_run_components _ _ _ _ _ Hrun)
    as (Hp & H1 & H2 & Hm & _). simpl in *.
  apply producer_sends_prefix, prefix_submseteq in Hp.
  apply stage_run_flow in H1, H2. apply merge_run_flow in Hm.
  rewrite merge_pending_start in Hm. simpl in H1, H2, Hm.
  rewrite readStream_link in H1. rewrite step1results_link in H2.
  assert (stage_sent (tr ≫= on_step1) ⊆+ outcome ∘ fnA <$> strings) as S1.
  { trans (stage_sent (tr ≫= on_step1) ++ stage_pending fnA g.(g_step1)).
    { by apply submseteq_inserts_r. }
    rewrite H1. by apply fmap_submseteq. }
  assert (stage_sent (tr ≫= on_step2)
          ⊆+ outcome ∘ fnB <$> lefts (outcome ∘ fnA <$> strings)) as S2.
  { trans (stage_sent (tr ≫= on_step2) ++ stage_pending fnB g.(g_step2)).
    { by apply submseteq_inserts_r. }
    rewrite H2. by apply fmap_submseteq, omap_submseteq. }
  split.
  - rewrite step2results_link. by apply omap_submseteq.
  - rewrite allErrors_link.
    trans (omap id (merge_received (tr ≫= on_merge))).
    { apply omap_submseteq.
      trans (merge_sends (tr ≫= on_merge) ++ merge_pending g.(g_merge));
        [by apply submseteq_inserts_r|done]. }
    rewrite stepErrors_link.
    apply submseteq_app; by apply omap_submseteq.
Qed.

End Scenario.

(** *** The program on ["FOO"; "BAR"; "BAX"] *)

(** C9, as the code has it.  [transformA] returns the lower-cased string
    and never an error; [transformB] returns the error "oh no" exactly on
    "foo" and the title-cased string otherwise.  On ["FOO"; "BAR"; "BAX"]
    the items become "foo", "bar", "bax" and then an error, "Bar", "Bax".
    In every run of the program the results the sink has received are among
    "Bar" and "Bax", each at most once, and the errors it has received are
    at most the one for "foo".  The sink cancels on that error, so the
    program can end with fewer than both results delivered:
    [run_cancelled_early] is a run to the return of [main] in which the
    sink has received "Bar" and the error, and nothing else. *)
Theorem transforms_and_what_the_sink_receives :
  (∀ ToLower s, transformA ToLower s = (ToLower s, None))
  ∧ (∀ Title s, (transformB Title s).2 ≠ None ↔ s = "foo")
  ∧ (∀ Title, transformB Title "foo" = ("", Some "oh no"))
  ∧ (∀ Title s, s ≠ "foo" → transformB Title s = (Title s, None))
  ∧ (outcome ∘ transformA ascii_ToLower <$> source
     = [inl "foo"; inl "bar"; inl "bax"])
  ∧ (outcome ∘ transformB ascii_Title <$> ["foo"; "bar"; "bax"]
     = [inr "oh no"; inl "Bar"; inl "Bax"])
  ∧ (∀ g0 tr g,
       pipeline_start source = Some g0 →
       exec (pipeline_step ascii_ToLower ascii_Title) g0 tr = Some g →
       pipeline_results tr ⊆+ ["Bar"; "Bax"]
       ∧ pipeline_errors tr ⊆+ ["oh no"])
  ∧ (∃ g0 g,
       pipeline_start source = Some g0
       ∧ exec (pipeline_step ascii_ToLower ascii_Title) g0 run_cancelled_early
         = Some g
       ∧ g_exited g = true
       ∧ pipeline_results run_cancelled_early = ["Bar"]
       ∧ pipeline_errors run_cancelled_early = ["oh no"]).
Proof.
  split; [done|]. split.
  { intros Title s. unfold transformB. case_decide; simpl; split; done. }
  split; [done|]. split.
  { intros Title s Hs. unfold transformB. by rewrite decide_False. }
  split; [done|]. split; [done|]. split.
  - intros g0 tr g Hstart Hrun.
    apply (pipeline_delivers_outcomes _ _ _ _ _ _ Hstart Hrun).
  - eexists _, _. split; [reflexivity|]. split; [by vm_compute|]. done.
Qed.

Lemma transforms_and_what_the_sink_receives_witness :
  transformB ascii_Title "bar" = ("Bar", None)
  ∧ pipeline_results run_cancelled_early ⊆+ ["Bar"; "Bax"].
Proof.
  destruct transforms_and_what_the_sink_receives
    as (_ & _ & _ & HB & _ & _ & Hall & _).
  split.
  - apply (HB ascii_Title "bar"). done.
  - refine (proj1 (Hall (MkPipeline (MkProducer PRange source false)
                           step step (Merge 2) sink_init false false)
                        run_cancelled_early _ _ _)).
    + reflexivity.
    + vm_compute. reflexivity.
Defined.

(** C9 as stated fails: in [run_cancelled_early] the program has run to its
    end and the sink has received "Bar" only. *)
Lemma scenario_both_results_counterexample :
  ¬ (∀ g0 tr g,
       pipeline_start source = Some g0 →
       exec (pipeline_step ascii_ToLower ascii_Title) g0 tr = Some g →
       g_exited g = true →
       pipeline_results tr ≡ₚ ["Bar"; "Bax"]
       ∧ pipeline_errors tr = ["oh no"]).
Proof.
  intros H.
  destruct (H (MkPipeline (MkProducer PRange source false)
                 step step (Merge 2) sink_init false false)
              run_cancelled_early
              (MkPipeline
                 (MkProducer PExited [] true)
                 (MkStage SSelect 2 (MkWeighted 2 1)
                    [WExited; WExited; WStart "BAX"] false false false)
                 (MkStage SSelect 2 (MkWeighted 2 2)
                    [WDeferred; WDeferred] false false false)
                 (MkMerge [FRange; FRange] 2 CWait false)
                 (MkSink KReturned
                    [KLog "sink: Bar"; KLog "error:  oh no"; KCancel;
                     KLog "context canceled"])
                 true true)) as [Hperm _].
  - reflexivity.
  - vm_compute. reflexivity.
  - reflexivity.
  - apply Permutation_length in Hperm. discriminate Hperm.
Qed.

Lemma sink_cancels_on_error_and_nothing_else_does_witness :
  sink_step (KRecvErr (Some "oh no")) sink_init
  = Some (MkSink KSelect [KLog "error:  oh no"; KCancel]).
Proof.
  apply (proj1 (sink_cancels_on_error_and_nothing_else_does
                  ascii_ToLower ascii_Title) sink_init "oh no").
  reflexivity.
Defined.

(** In the program itself a send on a closed channel can be reached: after
    the sink has cancelled, [step] 1 closes [step1results] under the worker
    of "BAX". *)
Lemma main_send_on_closed_channel_reachable :
  ∃ g0 g,
    pipeline_start source = Some g0
    ∧ exec (pipeline_step ascii_ToLower ascii_Title) g0 run_send_after_close
      = Some g
    ∧ st_panicked (g_step1 g) = true
    ∧ st_workers (g_step1 g) !! 2 = Some (WSending ("bax", None))
    ∧ st_out_closed (g_step1 g) = true.
Proof.
  eexists _, _. split; [reflexivity|]. split; [by vm_compute|]. done.
Qed.

(** *** step without cancellation *)

Lemma sum_insert {A : Type} (f : A → nat) l i x y :
  l !! i = Some x →
  sum_list_with f (<[i:=y]> l) + f x = sum_list_with f l + f y.
Proof.
  revert i. induction l as [|a l IH]; intros [|i] Hi; simplify_eq/=.
  - lia.
  - specialize (IH _ Hi). lia.
Qed.

Section QuietStageFacts.
Context {In Out : Type} `{!EqDecision Out} (fn : In → Out * error).

Local Abbreviation state := (@StageState In Out).

Lemma quiet_inv_start K : (0 ≤ K)%Z → quiet_inv K (@stage_start In Out K).
Proof. intros HK. unfold quiet_inv; simpl. repeat split; auto with lia. Qed.

Lemma quiet_inv_step K ev (a b : state) :
  (1 ≤ K)%Z → quiet_inv K a → stage_cancel_event ev = false →
  stage_step fn ev a = Some b → quiet_inv K b.
Proof.
  intros HK (Hl & Hs & Hc & Hp & Hh & Hec & Hoc) Hev. unfold stage_step.
  destruct a as [pc lim [sz c] ws oc ec pn]; simpl in *. subst lim sz pn.
  unfold quiet_inv, permits_held in *; simpl in *.
  destruct ev as [| [x|] | | | | | v | v | v y | v e | v | v]; simpl;
    try done.
  all: unfold stage_loop_step, stage_worker_step, Acquire, set_pc, set_worker,
    send_target_closed; simpl.
  1-5: destruct pc; try done; repeat case_match; simplify_eq/=;
    try case_decide; simplify_eq/=; intros; simplify_eq/=;
    rewrite ?count_app; simpl; repeat split; try done; try lia.
  all: destruct (ws !! v) as [z|] eqn:Ew; [|done].
  all: pose proof (count_pos holding ws v _ Ew) as Hpos.
  all: destruct z; try done; specialize (Hpos eq_refl).
  all: repeat case_match; simplify_eq/=; try case_decide; try done;
    intros; simplify_eq/=; repeat split; try done; try lia.
  all: match goal with
       | Ew : ?ws !! ?w = Some _ |- context [<[?w:=?y]> ?ws] =>
           pose proof (count_insert holding ws w _ y Ew)
       end.
  all: simpl in *; lia.
Qed.

Lemma quiet_inv_run K tr (st : state) :
  (1 ≤ K)%Z → exec (stage_step fn) (stage_start K) tr = Some st →
  (∀ ev, ev ∈ tr → stage_cancel_event ev = false) →
  quiet_inv K st.
Proof.
  intros HK. revert st. induction tr as [|ev tr IH] using rev_ind; intros st.
  - intros [= <-] _. apply quiet_inv_start. lia.
  - intros (s1 & H1 & Hstep)%exec_snoc Hq.
    eapply quiet_inv_step; [done| |by apply Hq, elem_of_app; right; left|done].
    apply IH; [done|]. intros e He. apply Hq, elem_of_app. by left.
Qed.

(** Without a failed Acquire nothing that was read is dropped: a step moves
    outcomes from pending to sent and adds the outcome of what it reads. *)
Lemma stage_step_flow_exact ev (a b : state) :
  stage_step fn ev a = Some b → stage_cancel_event ev = false →
  stage_event_sent ev ++ stage_pending fn b
  ≡ₚ stage_pending fn a ++ (outcome ∘ fn <$> stage_event_recv ev).
Proof.
  intros Hstep Hev. revert Hstep.
  unfold stage_step. destruct (st_panicked a); [done|].
  destruct a as [pc lim sem ws oc ec pn]; unfold stage_pending; simpl.
  destruct ev as [| [x|] | | | | | v | v | v y | v e | v | v]; simpl;
    try done;
    unfold stage_loop_step, stage_worker_step, set_pc, set_worker; simpl.
  1-5: destruct pc; try done; repeat case_match; simplify_eq/=;
    intros Hb; simplify_option_eq; rewrite ?bind_app; simpl;
    try solve_Permutation.
  all: destruct (ws !! v) as [z|] eqn:Ew; [|done]; destruct z; try done;
    repeat case_match; simplify_eq/=; try done; intros Hb; simplify_eq/=;
    try solve_Permutation.
  all: match goal with
       | Ew : ?ws !! ?v = Some ?x |- context [<[?v:=?y]> ?ws] =>
           pose proof (bind_insert_perm (worker_pending fn) ws v x y Ew) as Hp
       end; simpl in Hp.
  all: rewrite ?app_nil_r in *.
  all: try apply Permutation_app_inv_r in Hp.
  all: first [ by rewrite Hp
             | rewrite <- Hp; unfold outcome; simpl; solve_Permutation ].
Qed.

Lemma stage_run_flow_exact (a b : state) tr :
  exec (stage_step fn) a tr = Some b →
  (∀ ev, ev ∈ tr → stage_cancel_event ev = false) →
  stage_sent tr ++ stage_pending fn b
  ≡ₚ stage_pending fn a ++ (outcome ∘ fn <$> stage_recvs tr).
Proof.
  revert a. induction tr as [|ev tr IH]; intros a Hrun Hq.
  - simpl in Hrun. simplify_eq. simpl. by rewrite app_nil_r.
  - simpl in Hrun.
    destruct (stage_step fn ev a) as [c|] eqn:Hstep; [|done].
    specialize (IH _ Hrun (λ e He, Hq e (list_elem_of_further _ _ _ He))).
    apply stage_step_flow_exact in Hstep; [|apply Hq; left].
    change (ev :: tr) with ([ev] ++ tr).
    rewrite stage_sent_app, stage_recvs_app, fmap_app.
    assert (stage_sent [ev] = stage_event_sent ev) as -> by by destruct ev.
    assert (stage_recvs [ev] = stage_event_recv ev) as ->
      by by destruct ev as [|[?|]| | | | | | | | | |].
    rewrite <- (assoc (++)), IH, (assoc (++)), Hstep.
    by rewrite <- (assoc (++)).
Qed.

(** With no permit held every worker has exited, and nothing is pending
    in them. *)
Lemma no_permit_held_exited (st : state) w x :
  permits_held st = 0 → st_workers st !! w = Some x → x = WExited.
Proof.
  intros Hz Hw. destruct x; try done;
    pose proof (count_pos holding _ _ _ Hw eq_refl) as Hp;
    unfold permits_held in Hz; lia.
Qed.

Lemma no_permit_held_pending (st : state) :
  permits_held st = 0 → st_workers st ≫= worker_pending fn = [].
Proof.
  unfold permits_held. induction (st_workers st) as [|x ws IH]; [done|].
  intros Hz. rewrite bind_cons. destruct x; simpl in *; try lia. by apply IH.
Qed.

(** The loop leaves its loop only by finding its input closed. *)
Lemma stage_input_closed_seen K tr (st : state) :
  exec (stage_step fn) (stage_start K) tr = Some st →
  (st_pc st = SSelect ∨ ∃ s, st_pc st = SAcquire s) ∨ SRecv None ∈ tr.
Proof.
  revert st. induction tr as [|ev tr IH] using rev_ind; intros st.
  - intros [= <-]. simpl. auto.
  - intros (s1 & H1 & Hstep)%exec_snoc.
    destruct (IH _ H1) as [Hpc|Hin];
      [|right; apply elem_of_app; by left].
    revert Hstep. unfold stage_step. destruct (st_panicked s1); [done|].
    destruct s1 as [pc lim sem ws oc ec pn]; simpl in *.
    destruct ev as [| [x|] | | | | | | | | | |]; simpl;
      unfold stage_loop_step, stage_worker_step, set_pc, set_worker; simpl.
    3: { intros _. right. apply elem_of_app. right. left. }
    all: destruct Hpc as [->|[s ->]]; try done; intros Hb;
      repeat case_match; simplify_option_eq; eauto.
Qed.

Lemma count_pos_inv {A : Type} (f : A → bool) l :
  0 < length (List.filter f l) → ∃ i x, l !! i = Some x ∧ f x = true.
Proof.
  induction l as [|a l IH]; simpl; [lia|].
  destruct (f a) eqn:Ha.
  - intros _. by exists 0, a.
  - intros (i & x & Hi & Hx)%IH. by exists (S i), x.
Qed.

(** In a quiet state a worker that has not exited can take its next
    step. *)
Lemma quiet_worker_moves K (st : state) w x :
  quiet_inv K st → st_workers st !! w = Some x → holding x = true →
  ∃ ev, stage_moves ev = true ∧ enabled (stage_step fn) ev st.
Proof.
  intros (_ & _ & _ & Hp & Hh & Hec & Hoc) Hw Hx.
  assert (past_drain (st_pc st) = false) as Hpd.
  { destruct (past_drain (st_pc st)); [|done].
    pose proof (count_pos holding _ _ _ Hw Hx). unfold permits_held in Hh. lia. }
  assert (st_err_closed st = false ∧ st_out_closed st = false) as [He Ho].
  { rewrite Hec, Hoc. by destruct (st_pc st). }
  unfold enabled, stage_step. rewrite Hp.
  destruct x as [s|s|[y [e|]]| |]; try done.
  - exists (SCall w). simpl. rewrite Hw. eauto.
  - exists (SCallReturn w). simpl. rewrite Hw. eauto.
  - exists (SSendErr w e). simpl. rewrite Hw, decide_True, He by done. eauto.
  - exists (SSendOut w y). simpl. rewrite Hw, decide_True, Ho by done. eauto.
  - exists (SRelease w). simpl. rewrite Hw. eauto.
Qed.

Lemma quiet_step_count K ev (a b : state) :
  quiet_inv K a → stage_cancel_event ev = false →
  stage_step fn ev a = Some b →
  1 + stage_steps_left b
  = stage_steps_left a + 6 * length (stage_event_recv ev).
Proof.
  intros (Hl & Hs & Hc & Hp & Hh & Hec & Hoc) Hev. unfold stage_step.
  destruct a as [pc lim [sz c] ws oc ec pn]; simpl in *. subst lim sz pn.
  unfold stage_steps_left, permits_held in *; simpl in *.
  destruct ev as [| [x|] | | | | | v | v | v y | v e | v | v]; simpl;
    try done.
  all: unfold stage_loop_step, stage_worker_step, Acquire, set_pc, set_worker,
    send_target_closed; simpl.
  1-5: destruct pc; try done; repeat case_match; simplify_eq/=;
    try case_decide; simplify_eq/=; intros; simplify_eq/=;
    rewrite ?sum_list_with_app; simpl; try done; try lia.
  all: destruct (ws !! v) as [z|] eqn:Ew; [|done].
  all: pose proof (count_pos holding ws v _ Ew) as Hpos.
  all: destruct z; try done; specialize (Hpos eq_refl).
  all: repeat case_match; simplify_eq/=; try case_decide; try done;
    intros; simplify_eq/=; try lia.
  all: match goal with
       | Ew : ?ws !! ?w = Some _ |- context [<[?w:=?y]> ?ws] =>
           pose proof (sum_insert worker_steps_left ws w _ y Ew)
       end.
  all: simpl in *; lia.
Qed.

(** A stage that has closed its output channel in a run without
    cancellation has exited with no worker left and everything sent. *)
Lemma stage_closed_quiet K tr (st : state) :
  (1 ≤ K)%Z →
  exec (stage_step fn) (stage_start K) tr = Some st →
  (∀ ev, ev ∈ tr → stage_cancel_event ev = false) →
  st_out_closed st = true →
  st_pc st = SExited ∧ permits_held st = 0
  ∧ stage_sent tr ≡ₚ outcome ∘ fn <$> stage_recvs tr.
Proof.
  intros HK Hrun Hq Hcl.
  pose proof (quiet_inv_run K tr st HK Hrun Hq)
    as (_ & _ & _ & Hp & Hh & Hec & Hoc).
  assert (st_pc st = SExited) as Hpc.
  { rewrite Hoc in Hcl. by destruct (st_pc st). }
  rewrite Hpc in Hh. simpl in Hh.
  pose proof (stage_run_flow_exact _ _ _ Hrun Hq) as Hflow.
  unfold stage_pending in Hflow. simpl in Hflow.
  rewrite (no_permit_held_pending st Hh), Hpc in Hflow. simpl in Hflow.
  rewrite !app_nil_r in Hflow. done.
Qed.

(** X1.  As long as cancellation does not fire, a stage with a pool of
    K >= 1 permits never sends on a closed channel: nothing has panicked,
    and no worker is at a send whose channel is closed. *)
Theorem step_without_cancel_never_sends_on_closed (K : Z)
    (tr : list StageEvent) (st : state) :
  (1 ≤ K)%Z →
  exec (stage_step fn) (stage_start K) tr = Some st →
  (∀ ev, ev ∈ tr → stage_cancel_event ev = false) →
  st_panicked st = false
  ∧ (∀ w, stage_step fn (SSendPanic w) st = None)
  ∧ (∀ w r, st_workers st !! w = Some (WSending r) →
       st_out_closed st = false ∧ st_err_closed st = false).
Proof.
  intros HK Hrun Hq.
  pose proof (quiet_inv_run K tr st HK Hrun Hq)
    as (_ & _ & _ & Hp & Hh & Hec & Hoc).
  assert (∀ w r, st_workers st !! w = Some (WSending r) →
            st_out_closed st = false ∧ st_err_closed st = false) as Hopen.
  { intros w r Hw. pose proof (count_pos holding _ _ _ Hw eq_refl) as Hpos.
    rewrite Hec, Hoc. unfold permits_held in Hh.
    destruct (st_pc st); simpl in *; try done; lia. }
  split; [done|]. split; [|done].
  intros w. unfold stage_step. rewrite Hp. simpl.
  destruct (st_workers st !! w) as [[| |r| |]|] eqn:Hw; try done.
  destruct (Hopen _ _ Hw) as [Ho He]. unfold send_target_closed.
  rewrite Ho, He. by destruct r.2.
Qed.

(** X2.  When a stage with K >= 1 permits has closed its output channel in
    a run without cancellation, it has found its input closed, every item it
    read has had its outcome sent, once, on the output or the error channel,
    both channels are closed, every worker has exited and no goroutine of
    the stage has a step left. *)
Theorem step_without_cancel_sends_every_outcome (K : Z)
    (tr : list StageEvent) (st : state) :
  (1 ≤ K)%Z →
  exec (stage_step fn) (stage_start K) tr = Some st →
  (∀ ev, ev ∈ tr → stage_cancel_event ev = false) →
  st_out_closed st = true →
  stage_sent tr ≡ₚ outcome ∘ fn <$> stage_recvs tr
  ∧ SRecv None ∈ tr
  ∧ st_err_closed st = true
  ∧ (∀ w x, st_workers st !! w = Some x → x = WExited)
  ∧ (∀ ev, stage_step fn ev st = None).
Proof.
  intros HK Hrun Hq Hcl.
  pose proof (quiet_inv_run K tr st HK Hrun Hq)
    as (_ & _ & _ & Hp & _ & Hec & _).
  destruct (stage_closed_quiet K tr st HK Hrun Hq Hcl) as (Hpc & Hh & Hflow).
  rewrite Hpc in Hec.
  split; [done|]. split.
  { destruct (stage_input_closed_seen _ _ _ Hrun) as [[H|[s H]]|H];
      [congruence..|done]. }
  split; [done|]. split.
  { intros w x Hw. by eapply no_permit_held_exited. }
  intros ev. unfold stage_step. rewrite Hp.
  destruct ev as [| [x|] | | | | | v | v | v y | v e | v | v]; simpl;
    unfold stage_loop_step, stage_worker_step; rewrite ?Hpc; try done.
  all: destruct (st_workers st !! v) as [z|] eqn:Hv; [|done].
  all: by rewrite (no_permit_held_exited st v z Hh Hv).
Qed.

(** X3.  A stage with K >= 1 permits does not block itself when nothing is
    cancelled.  At its select the loop takes whatever the input offers.
    Anywhere else before its exit the stage is idle at the select with no
    worker left, or a step of its own is open: the Acquire returns, a close
    runs, or a worker calls, returns, hands over its value or releases.
    Every run has six events for each item read and four to finish, less
    those still to come, so a stage whose input is closed and whose values
    are taken reaches its exit. *)
Theorem step_without_cancel_is_never_stuck (K : Z)
    (tr : list StageEvent) (st : state) :
  (1 ≤ K)%Z →
  exec (stage_step fn) (stage_start K) tr = Some st →
  (∀ ev, ev ∈ tr → stage_cancel_event ev = false) →
  length tr + stage_steps_left st = 6 * length (stage_recvs tr) + 4
  ∧ (st_pc st = SSelect → ∀ x, enabled (stage_step fn) (SRecv x) st)
  ∧ (st_pc st ≠ SExited →
       (st_pc st = SSelect ∧ permits_held st = 0)
       ∨ ∃ ev, stage_moves ev = true ∧ enabled (stage_step fn) ev st).
Proof.
  intros HK Hrun Hq.
  pose proof (quiet_inv_run K tr st HK Hrun Hq) as Hinv.
  split; [|split].
  - clear Hinv. revert st Hrun.
    induction tr as [|ev tr IH] using rev_ind; intros st Hrun.
    + simpl in Hrun. by simplify_eq.
    + apply exec_snoc in Hrun as (s1 & H1 & Hstep).
      assert (∀ e, e ∈ tr → stage_cancel_event e = false) as Hq1.
      { intros e He. apply Hq, elem_of_app. by left. }
      specialize (IH Hq1 _ H1).
      pose proof (quiet_inv_run K tr s1 HK H1 Hq1) as Hinv1.
      assert (stage_cancel_event ev = false) as Hev.
      { apply Hq, elem_of_app. right. left. }
      pose proof (quiet_step_count K ev s1 st Hinv1 Hev Hstep) as Hc.
      rewrite stage_recvs_app, !length_app.
      assert (stage_recvs [ev] = stage_event_recv ev) as ->
        by by destruct ev as [|[?|]| | | | | | | | | |].
      simpl. lia.
  - destruct Hinv as (_ & _ & _ & Hp & _). intros Hpc x.
    unfold enabled, stage_step, stage_loop_step. rewrite Hp, Hpc.
    destruct x; simpl; eauto.
  - intros Hne. pose proof Hinv as (Hl & Hs & Hc & Hp & Hh & Hec & Hoc).
    destruct (decide (permits_held st = 0)) as [Hz|Hnz].
    + destruct (st_pc st) eqn:Hpc; try done; [by left|..]; right.
      * simpl in Hh. exists SAcquired. split; [done|].
        unfold enabled, stage_step, stage_loop_step, Acquire.
        rewrite Hp, Hpc. simpl. rewrite decide_True by lia. simpl. eauto.
      * simpl in Hh. exists SAcquired. split; [done|].
        unfold enabled, stage_step, stage_loop_step, Acquire.
        rewrite Hp, Hpc. simpl. rewrite decide_True by lia. simpl. eauto.
      * exists SCloseErr. split; [done|].
        unfold enabled, stage_step, stage_loop_step.
        rewrite Hp, Hpc, Hec. simpl. eauto.
      * exists SCloseOut. split; [done|].
        unfold enabled, stage_step, stage_loop_step.
        rewrite Hp, Hpc, Hoc. simpl. eauto.
    + right. destruct (count_pos_inv holding (st_workers st))
        as (w & x & Hw & Hx); [unfold permits_held in Hnz; lia|].
      by eapply quiet_worker_moves.
Qed.

Lemma workers_pending_held (ws : list (@Worker In Out)) :
  length (ws ≫= worker_pending fn) ≤ length (List.filter holding ws).
Proof.
  induction ws as [|x ws IH]; [done|].
  rewrite bind_cons, length_app. destruct x; simpl; lia.
Qed.

(** X10.  Without cancellation a stage with K >= 1 permits reads ahead of
    what it has delivered by at most K + 1 items: the items it has read are
    those whose result or error it has sent and those still pending, and a
    pending item is held by a worker that has a permit, of which there are
    at most K, or by the loop waiting in [Acquire(ctx, 1)]. *)
Theorem step_without_cancel_reads_ahead_at_most_K (K : Z)
    (tr : list StageEvent) (st : state) :
  (1 ≤ K)%Z →
  exec (stage_step fn) (stage_start K) tr = Some st →
  (∀ ev, ev ∈ tr → stage_cancel_event ev = false) →
  length (stage_recvs tr)
  = length (stage_sent tr) + length (stage_pending fn st)
  ∧ length (stage_pending fn st)
    ≤ permits_held st + match st_pc st with SAcquire _ => 1 | _ => 0 end
  ∧ (Z.of_nat (permits_held st) ≤ K)%Z
  ∧ (Z.of_nat (length (stage_recvs tr))
     ≤ Z.of_nat (length (stage_sent tr)) + K + 1)%Z.
Proof.
  intros HK Hrun Hq.
  pose proof (stage_run_flow_exact _ _ _ Hrun Hq) as Hflow.
  apply Permutation_length in Hflow.
  rewrite !length_app, length_fmap in Hflow. simpl in Hflow.
  pose proof (quiet_inv_run K tr st HK Hrun Hq)
    as (_ & _ & Hcur & _ & Hh & _).
  assert (length (stage_pending fn st)
          ≤ permits_held st
            + match st_pc st with SAcquire _ => 1 | _ => 0 end) as Hpend.
  { unfold stage_pending. rewrite length_app.
    pose proof (workers_pending_held (st_workers st)) as Hw.
    unfold permits_held. destruct (st_pc st); simpl; lia. }
  assert (Z.of_nat (permits_held st) ≤ K)%Z as Hheld.
  { destruct (past_drain (st_pc st)); lia. }
  split; [lia|]. split; [done|]. split; [done|].
  destruct (st_pc st); lia.
Qed.

End QuietStageFacts.

Lemma stage_quiet_run_no_cancel ev :
  ev ∈ stage_quiet_run → stage_cancel_event ev = false.
Proof.
  unfold stage_quiet_run. intros Hev.
  repeat (apply elem_of_cons in Hev as [->|Hev]; [done|]).
  by apply elem_of_nil in Hev.
Qed.

Lemma step_without_cancel_never_sends_on_closed_witness :
  st_panicked (MkStage (In:=string) (Out:=string) SExited 2 (MkWeighted 2 2)
                 [WExited] true true false) = false.
Proof.
  refine (proj1 (step_without_cancel_never_sends_on_closed
                   (transformA ascii_ToLower) limit stage_quiet_run _ _ _ _)).
  - unfold limit. lia.
  - reflexivity.
  - apply stage_quiet_run_no_cancel.
Defined.

Lemma step_without_cancel_sends_every_outcome_witness :
  stage_sent stage_quiet_run
  ≡ₚ outcome ∘ transformA ascii_ToLower <$> stage_recvs stage_quiet_run.
Proof.
  refine (proj1 (step_without_cancel_sends_every_outcome
                   (transformA ascii_ToLower) limit stage_quiet_run
                   (MkStage SExited 2 (MkWeighted 2 2) [WExited] true true false)
                   _ _ _ _)).
  - unfold limit. lia.
  - reflexivity.
  - apply stage_quiet_run_no_cancel.
  - reflexivity.
Defined.

Lemma step_without_cancel_is_never_stuck_witness :
  length stage_quiet_run
  + stage_steps_left (MkStage (In:=string) (Out:=string) SExited 2
                        (MkWeighted 2 2) [WExited] true true false)
  = 6 * length (stage_recvs stage_quiet_run) + 4.
Proof.
  refine (proj1 (step_without_cancel_is_never_stuck
                   (transformA ascii_ToLower) limit stage_quiet_run _ _ _ _)).
  - unfold limit. lia.
  - reflexivity.
  - apply stage_quiet_run_no_cancel.
Defined.

Lemma step_without_cancel_reads_ahead_at_most_K_witness :
  (Z.of_nat (length (stage_recvs
       [SRecv (Some "FOO"); SAcquired; SRecv (Some "BAR"); SAcquired;
        @SRecv string string (Some "BAX")]))
   ≤ Z.of_nat (length (stage_sent
       [SRecv (Some "FOO"); SAcquired; SRecv (Some "BAR"); SAcquired;
        @SRecv string string (Some "BAX")])) + limit + 1)%Z.
Proof.
  refine (proj2 (proj2 (proj2 (step_without_cancel_reads_ahead_at_most_K
                   (transformA ascii_ToLower) limit
                   [SRecv (Some "FOO"); SAcquired; SRecv (Some "BAR");
                    SAcquired; SRecv (Some "BAX")] _ _ _ _)))).
  - unfold limit. lia.
  - reflexivity.
  - intros ev Hev.
    repeat (apply elem_of_cons in Hev as [->|Hev]; [done|]).
    by apply elem_of_nil in Hev.
Defined.

(** *** Merge, cancelled or not *)

Section MergeAnyRunFacts.
Context {T : Type} `{!EqDecision T}.

Local Abbreviation mstate := (@MergeState T).
Local Abbreviation mevent := (@MergeEvent T).

Lemma merge_sync_start n : merge_sync n (@Merge T n).
Proof.
  unfold merge_sync, Merge; simpl.
  by rewrite length_replicate, count_replicate_live.
Qed.

Lemma merge_sync_step n ev (a b : mstate) :
  merge_sync n a → merge_step ev a = Some b → merge_sync n b.
Proof.
  intros (Hlen & Hwg & Hcl) Hstep%merge_step_inv. unfold merge_sync.
  destruct a as [fw wg cl cd]; simpl in *.
  destruct ev as [i x|i x|i|i| |]; simpl in *.
  - destruct Hstep as [Hi ->]. simpl. rewrite length_insert.
    pose proof (count_insert live fw i _
      (match x with Some n => FSelect n | None => FDeferred end) Hi) as Hc.
    repeat split; [done| |done]. destruct x; simpl in Hc; lia.
  - destruct Hstep as (Hi & _ & ->). simpl. rewrite length_insert.
    pose proof (count_insert live fw i _ FRange Hi) as Hc.
    repeat split; [done| |done]. simpl in Hc; lia.
  - destruct Hstep as ([x Hi] & ->). simpl. rewrite length_insert.
    pose proof (count_insert live fw i _ FDeferred Hi) as Hc.
    repeat split; [done| |done]. simpl in Hc; lia.
  - destruct Hstep as (Hi & ->). simpl. rewrite length_insert.
    pose proof (count_insert live fw i _ FExited Hi) as Hc.
    pose proof (count_pos live fw i _ Hi eq_refl) as Hp. simpl in Hc.
    repeat split; [done|lia|]. destruct cl; intuition lia.
  - destruct Hstep as (-> & -> & ->). simpl. by repeat split.
  - destruct Hstep as (-> & -> & ->). simpl. destruct Hcl as [_ ->].
    by repeat split.
Qed.

Lemma merge_sync_run n tr (st : mstate) :
  exec merge_step (Merge n) tr = Some st → merge_sync n st.
Proof.
  intros Hrun.
  eapply (exec_invariant merge_step (merge_sync n)); [| |exact Hrun].
  - intros e a b Ha Hab. by eapply merge_sync_step.
  - apply merge_sync_start.
Qed.

Lemma merge_hist_step tr ev (a b : mstate) :
  (∀ i pc, m_forwarders a !! i = Some pc →
     forwarder_hist i tr pc (merge_recvs_of i tr) (merge_sends_of i tr)) →
  merge_step ev a = Some b →
  ∀ i pc, m_forwarders b !! i = Some pc →
    forwarder_hist i (tr ++ [ev]) pc
      (merge_recvs_of i (tr ++ [ev])) (merge_sends_of i (tr ++ [ev])).
Proof.
  intros Hfw Hstep%merge_step_inv j pc Hj.
  rewrite merge_recvs_of_snoc, merge_sends_of_snoc.
  assert (∀ pc' r s, forwarder_hist j tr pc' r s →
            forwarder_hist j (tr ++ [ev]) pc' r s) as Hmono.
  { intros [] r s; simpl; try done.
    all: intros [?|[Hin ?]]; [by left|right]; split; [|done].
    all: apply elem_of_app; by left. }
  destruct a as [fw wg cl cd]; simpl in *.
  destruct ev as [i x|i x|i|i| |]; simpl in *.
  - destruct Hstep as [Hi ->]. simpl in Hj.
    pose proof (lookup_lt_Some _ _ _ Hi) as Hlt.
    destruct (decide (i = j)) as [<-|Hne].
    + rewrite list_lookup_insert_eq in Hj by done. simplify_eq.
      specialize (Hfw _ _ Hi). simpl in Hfw. rewrite app_nil_r, Hfw.
      destruct x; simpl; [by rewrite fmap_app|by left].
    + rewrite list_lookup_insert_ne in Hj by done.
      rewrite !app_nil_r. eauto.
  - destruct Hstep as (Hi & _ & ->). simpl in Hj.
    pose proof (lookup_lt_Some _ _ _ Hi) as Hlt.
    destruct (decide (i = j)) as [<-|Hne].
    + rewrite list_lookup_insert_eq in Hj by done. simplify_eq.
      specialize (Hfw _ _ Hi). simpl in Hfw. by rewrite app_nil_r.
    + rewrite list_lookup_insert_ne in Hj by done.
      rewrite !app_nil_r. eauto.
  - destruct Hstep as ([x Hi] & ->). simpl in Hj.
    pose proof (lookup_lt_Some _ _ _ Hi) as Hlt. rewrite !app_nil_r.
    destruct (decide (i = j)) as [<-|Hne].
    + rewrite list_lookup_insert_eq in Hj by done. simplify_eq.
      specialize (Hfw _ _ Hi). simpl in Hfw. simpl. right. split.
      * apply elem_of_app. right. left.
      * by exists x.
    + rewrite list_lookup_insert_ne in Hj by done. eauto.
  - destruct Hstep as (Hi & ->). simpl in Hj.
    pose proof (lookup_lt_Some _ _ _ Hi) as Hlt. rewrite !app_nil_r.
    destruct (decide (i = j)) as [<-|Hne].
    + rewrite list_lookup_insert_eq in Hj by done. simplify_eq.
      apply (Hmono FDeferred), (Hfw _ _ Hi).
    + rewrite list_lookup_insert_ne in Hj by done. eauto.
  - destruct Hstep as (_ & _ & ->). simpl in Hj. rewrite !app_nil_r. eauto.
  - destruct Hstep as (_ & _ & ->). simpl in Hj. rewrite !app_nil_r. eauto.
Qed.

Lemma merge_hist_run n tr (st : mstate) :
  exec merge_step (Merge n) tr = Some st →
  ∀ i pc, m_forwarders st !! i = Some pc →
    forwarder_hist i tr pc (merge_recvs_of i tr) (merge_sends_of i tr).
Proof.
  revert st. induction tr as [|ev tr IH] using rev_ind; intros st.
  - intros [= <-] i pc [-> _]%lookup_replicate. done.
  - intros (s1 & H1 & Hstep)%exec_snoc.
    eapply merge_hist_step; [|done]. by apply IH.
Qed.

Lemma merge_close_count n tr (st : mstate) :
  exec merge_step (Merge n) tr = Some st →
  merge_closes tr = bool_weight (m_closed st).
Proof.
  revert st. induction tr as [|ev tr IH] using rev_ind; intros st.
  - by intros [= <-].
  - intros (s1 & H1 & Hstep)%exec_snoc. specialize (IH _ H1).
    unfold merge_closes in *. rewrite omap_app, length_app, IH.
    apply merge_step_inv in Hstep. destruct s1 as [fw wg cl cd].
    destruct ev; simpl in *; destruct_and?; simplify_eq/=; lia.
Qed.

(** X4.  Merge, with or without cancellation.  While a forwarder holds a
    value, [out] is open and the send can be taken: no send ever meets a
    closed channel.  [out] is closed at most once, and when it is closed
    every forwarder has exited, each after it found its channel closed or
    saw the cancellation at its select, and no goroutine of Merge has a
    step left. *)
Theorem Merge_never_sends_on_closed (n : nat) (tr : list mevent)
    (st : mstate) :
  exec merge_step (Merge n) tr = Some st →
  (∀ i x, m_forwarders st !! i = Some (FSelect x) →
     m_closed st = false ∧ enabled merge_step (MSend i x) st)
  ∧ merge_closes tr ≤ 1
  ∧ (m_closed st = true →
       (∀ i, i < n →
          m_forwarders st !! i = Some FExited
          ∧ (MRecv i None ∈ tr ∨ MCtxDone i ∈ tr))
       ∧ ∀ ev, merge_step ev st = None).
Proof.
  intros Hrun.
  pose proof (merge_sync_run _ _ _ Hrun) as (Hlen & Hwg & Hcl).
  pose proof (merge_hist_run _ _ _ Hrun) as Hhist.
  assert (∀ i x, m_forwarders st !! i = Some (FSelect x) →
            m_closed st = false) as Hopen.
  { intros i x Hi. pose proof (count_pos live _ _ _ Hi eq_refl) as Hp.
    destruct (m_closer st); destruct_and?; first [done|lia]. }
  split; [|split].
  - intros i x Hi. split; [by eapply Hopen|].
    unfold enabled, merge_step.
    rewrite Hi, decide_True, (Hopen _ _ Hi) by done. eauto.
  - rewrite (merge_close_count _ _ _ Hrun). destruct (m_closed st); simpl; lia.
  - intros Hcd.
    assert (m_closer st = CExited ∧ m_wg st = 0%Z) as [Hce Hz].
    { destruct (m_closer st); destruct_and?; first [congruence|done]. }
    assert (∀ i pc, m_forwarders st !! i = Some pc → pc = FExited) as Hex.
    { intros i pc Hi. destruct (live pc) eqn:Hl; [|by destruct pc].
      pose proof (count_pos live _ _ _ Hi Hl). lia. }
    split.
    + intros i Hi.
      destruct (lookup_lt_is_Some_2 (m_forwarders st) i) as [pc Hpc]; [lia|].
      pose proof (Hex _ _ Hpc) as ->. split; [done|].
      destruct (Hhist _ _ Hpc) as [Hr|[Hc _]]; [left|by right].
      apply merge_recvs_of_elem. rewrite Hr. apply elem_of_app. right. left.
    + intros ev. destruct (merge_step ev st) as [b|] eqn:Hstep; [|done].
      apply merge_step_inv in Hstep.
      destruct ev; simpl in Hstep.
      * destruct Hstep as [Hi _]. by specialize (Hex _ _ Hi).
      * destruct Hstep as [Hi _]. by specialize (Hex _ _ Hi).
      * destruct Hstep as [[x Hi] _]. by specialize (Hex _ _ Hi).
      * destruct Hstep as [Hi _]. by specialize (Hex _ _ Hi).
      * destruct Hstep as [Hc _]. congruence.
      * destruct Hstep as [Hc _]. congruence.
Qed.

(** X5.  Merge, with or without cancellation, forwards each channel in its
    own order and invents or repeats nothing: what forwarder [i] has sent on
    [out] is an initial segment of the values it has received, behind by at
    most the one value it holds or dropped on cancellation (or the close it
    has seen); and all that was sent on [out] is, as a multiset, part of
    what was received from the channels. *)
Theorem Merge_forwards_each_channel_in_order (n : nat) (tr : list mevent)
    (st : mstate) :
  exec merge_step (Merge n) tr = Some st →
  (∀ i, i < n →
     Some <$> merge_sends_of i tr `prefix_of` merge_recvs_of i tr
     ∧ length (merge_recvs_of i tr) ≤ length (merge_sends_of i tr) + 1)
  ∧ merge_sends tr ⊆+ merge_received tr.
Proof.
  intros Hrun. split.
  - intros i Hi.
    pose proof (merge_sync_run _ _ _ Hrun) as (Hlen & _).
    destruct (lookup_lt_is_Some_2 (m_forwarders st) i) as [pc Hpc]; [lia|].
    pose proof (merge_hist_run _ _ _ Hrun _ _ Hpc) as Hh.
    destruct pc; simpl in Hh.
    all: try destruct Hh as [Hh|[_ [x Hh]]].
    all: rewrite Hh, ?fmap_app, ?length_app, ?length_fmap; simpl.
    all: split; [by apply prefix_app_r || done|lia].
  - pose proof (merge_run_flow _ _ _ Hrun) as Hflow.
    rewrite merge_pending_start in Hflow. simpl in Hflow.
    trans (merge_sends tr ++ merge_pending st);
      [by apply submseteq_inserts_r|done].
Qed.

End MergeAnyRunFacts.

Lemma Merge_never_sends_on_closed_witness :
  merge_closes merge_cancelled_run ≤ 1.
Proof.
  refine (proj1 (proj2 (Merge_never_sends_on_closed 2 merge_cancelled_run
                   (MkMerge [FExited; FExited] 0 CExited true) _))).
  reflexivity.
Defined.

Lemma Merge_forwards_each_channel_in_order_witness :
  merge_sends merge_cancelled_run ⊆+ merge_received merge_cancelled_run.
Proof.
  refine (proj2 (Merge_forwards_each_channel_in_order 2 merge_cancelled_run
                   (MkMerge [FExited; FExited] 0 CExited true) _)).
  reflexivity.
Defined.

(** *** main without cancellation *)

Lemma producer_closed_mono ev (a b : ProducerState) :
  producer_step ev a = Some b → p_closed a = true → p_closed b = true.
Proof.
  unfold producer_step. destruct a as [pc rest cd]; simpl.
  destruct pc, ev, rest; simpl; repeat case_match; intros; simplify_eq/=;
    done.
Qed.

Lemma stage_links_step {In Out : Type} `{!EqDecision Out}
    (fn : In → Out * error) ev (a b : @StageState In Out) :
  stage_step fn ev a = Some b →
  (st_out_closed a = true → st_out_closed b = true)
  ∧ (past_select (st_pc b) = true →
       past_select (st_pc a) = true ∨ ev = SRecv None).
Proof.
  unfold stage_step. destruct (st_panicked a); [done|].
  destruct a as [pc lim sem ws oc ec pn]; simpl.
  destruct ev as [| [x|] | | | | | v | v | v y | v e | v | v]; simpl;
    unfold stage_loop_step, stage_worker_step, set_pc, set_worker; simpl.
  all: repeat case_match; try done; intros; simplify_option_eq; auto.
Qed.

Lemma producer_closed_run tr (a b : ProducerState) :
  exec producer_step a tr = Some b → p_closed a = true → p_closed b = true.
Proof.
  intros Hrun Ha.
  eapply (exec_invariant producer_step (λ s, p_closed s = true)); [|done..].
  intros e x y Hx Hxy. by eapply producer_closed_mono.
Qed.

Lemma stage_links_run {In Out : Type} `{!EqDecision Out}
    (fn : In → Out * error) tr (a b : @StageState In Out) :
  exec (stage_step fn) a tr = Some b →
  (st_out_closed a = true → st_out_closed b = true)
  ∧ (past_select (st_pc b) = true →
       past_select (st_pc a) = true ∨ SRecv None ∈ tr).
Proof.
  revert a. induction tr as [|ev tr IH]; intros a Hrun.
  - simpl in Hrun. simplify_eq. auto.
  - simpl in Hrun. destruct (stage_step fn ev a) as [c|] eqn:Hstep; [|done].
    destruct (IH _ Hrun) as [Ho Hp].
    destruct (stage_links_step _ _ _ _ Hstep) as [Ho' Hp'].
    split; [auto|]. intros Hb.
    destruct (Hp Hb) as [Hc|Hin]; [|right; by right].
    destruct (Hp' Hc) as [?| ->]; [by left|right; left].
Qed.

Lemma on_step1_input_closed ev :
  SRecv None ∈ on_step1 ev → ev = GStep1 (SRecv None).
Proof.
  destruct ev as [| |se| | | | | | | | |]; simpl;
    try (intros Hin; apply elem_of_nil in Hin; done);
    try (intros Hin; apply list_elem_of_singleton in Hin; done).
  destruct (stage_alone se); [|by intros ?%elem_of_nil].
  by intros ->%list_elem_of_singleton.
Qed.

Lemma on_step2_input_closed ev :
  SRecv None ∈ on_step2 ev → ev = GStep2 (SRecv None).
Proof.
  destruct ev as [| | | |se| | | | | | |]; simpl;
    try (intros Hin; apply elem_of_nil in Hin; done);
    try (intros Hin; apply list_elem_of_singleton in Hin; done).
  destruct (stage_alone se); [|by intros ?%elem_of_nil].
  by intros ->%list_elem_of_singleton.
Qed.

Section QuietMain.
Variables ToLower Title : string → string.

Local Abbreviation gstep := (pipeline_step ToLower Title).
Local Abbreviation fnA := (transformA ToLower).
Local Abbreviation fnB := (transformB Title).

Local Arguments producer_step : simpl never.
Local Arguments stage_step : simpl never.
Local Arguments merge_step : simpl never.
Local Arguments sink_step : simpl never.

(** What a step of the program needs of the context and the channels. *)
Lemma pipeline_step_guards ev g g' :
  gstep ev g = Some g' →
  match ev with
  | GProducer pe =>
      producer_alone pe = true ∧ producer_guard (g_cancelled g) pe = true
  | GStep1 se =>
      stage_alone se = true
      ∧ stage_guard (g_cancelled g) (p_closed (g_producer g)) se = true
  | GStep2 se =>
      stage_alone se = true
      ∧ stage_guard (g_cancelled g) (st_out_closed (g_step1 g)) se = true
  | GMerge me =>
      merge_alone me = true
      ∧ merge_guard (g_cancelled g) (errors_closed g) me = true
  | GSink ke =>
      sink_alone ke = true
      ∧ sink_guard (g_cancelled g) (m_closed (g_merge g))
                   (st_out_closed (g_step2 g)) ke = true
  | _ => True
  end
  ∧ g_exited g = false
  ∧ g_exited g' = match ev with GMainReturn => true | _ => false end.
Proof.
  unfold pipeline_step, pipeline_dead.
  destruct (g_exited g); [done|]. simpl.
  destruct (st_panicked (g_step1 g) || st_panicked (g_step2 g)); [done|].
  destruct ev; simpl.
  all: repeat match goal with
       | |- context [if ?b && ?c then _ else _] =>
           destruct b eqn:?; simpl; [destruct c eqn:?; simpl|]; try done
       end.
  all: repeat match goal with
       | |- (match ?x with _ => _ end) = Some _ → _ =>
           destruct x eqn:?; simpl; try done
       | |- (?x ≫= _) = Some _ → _ =>
           destruct x eqn:?; simpl; try done
       end.
  all: by intros [= <-].
Qed.

Lemma pipeline_links_step ev g g' :
  gstep ev g = Some g' → pipeline_links g → pipeline_links g'.
Proof.
  intros Hstep (L1 & L2 & L3 & L4).
  destruct (pipeline_step_components _ _ _ _ _ Hstep)
    as (Hp & H1 & H2 & _ & Hk).
  destruct (pipeline_step_cancelled _ _ _ _ _ Hstep) as [Hc _].
  destruct (pipeline_step_guards _ _ _ Hstep) as (Hg & Hex & Hex').
  assert (g_cancelled g = true → g_cancelled g' = true) as Hcm.
  { intros Ht. rewrite Hc, Ht. by destruct ev as [| | | | | | | | |? [?|]| |]. }
  pose proof (producer_closed_run _ _ _ Hp) as Hpm.
  destruct (stage_links_run _ _ _ _ H1) as [Ho1 Hs1].
  destruct (stage_links_run _ _ _ _ H2) as [Ho2 Hs2].
  split; [|split; [|split]].
  - intros Hb. destruct (Hs1 Hb) as [Ha|Hin]; [auto|].
    apply on_step1_input_closed in Hin as ->. simpl in Hg.
    apply Hpm. tauto.
  - intros Hb. destruct (Hs2 Hb) as [Ha|Hin]; [auto|].
    apply on_step2_input_closed in Hin as ->. simpl in Hg.
    apply Ho1. tauto.
  - intros Hret. destruct (k_pc (g_sink g)) eqn:Hpc.
    + destruct ev as [| | | | | | | |w y|i e|ke|]; cbn [on_sink] in Hk;
        try (simpl in Hk; simplify_eq; congruence).
      * apply exec_singleton, sink_step_pc in Hk as [_ Hf].
        by apply Hf in Hret.
      * apply exec_singleton, sink_step_pc in Hk as [_ Hf].
        apply Hf in Hret. by destruct e.
      * destruct Hg as [Hal Hgd]. rewrite Hal in Hk.
        apply exec_singleton, sink_step_pc in Hk as [_ Hf].
        apply Hf in Hret. rewrite Hc.
        destruct ke as [cause|[?|]|[?|]]; try done; simpl in Hgd.
        -- left. by apply andb_true_iff in Hgd as [? _].
        -- right. apply Ho2. done.
    + destruct (L3 eq_refl) as [?|?]; [left|right]; auto.
  - intros He. rewrite Hex' in He. rewrite Hc.
    by destruct ev.
Qed.

Lemma pipeline_links_run strings g0 tr g :
  pipeline_start strings = Some g0 → exec gstep g0 tr = Some g →
  pipeline_links g.
Proof.
  intros [= <-] Hrun.
  eapply (exec_invariant gstep pipeline_links); [| |exact Hrun].
  - intros e a b Ha Hab. by eapply pipeline_links_step.
  - by repeat split.
Qed.

(** A run at whose end the context is not cancelled has no event that
    needs a cancelled context, and no error has reached the sink. *)
Lemma pipeline_quiet_run g0 tr g :
  exec gstep g0 tr = Some g → g_cancelled g = false →
  (∀ ev, ev ∈ tr ≫= on_step1 → stage_cancel_event ev = false)
  ∧ (∀ ev, ev ∈ tr ≫= on_step2 → stage_cancel_event ev = false)
  ∧ (PCtxDone ∉ tr ≫= on_producer)
  ∧ (∀ c, KCtxDone c ∉ tr ≫= on_sink)
  ∧ pipeline_errors tr = [].
Proof.
  revert g. induction tr as [|ev tr IH] using rev_ind; intros g.
  - intros _ _. repeat split; try done.
    all: try (intros ? Hin; by apply elem_of_nil in Hin).
    intros Hin. by apply elem_of_nil in Hin.
  - intros (g1 & H1 & Hstep)%exec_snoc Hnc.
    destruct (pipeline_step_cancelled _ _ _ _ _ Hstep) as [Hc _].
    destruct (pipeline_step_guards _ _ _ Hstep) as (Hg & _ & _).
    rewrite Hnc in Hc.
    assert (g_cancelled g1 = false) as Hnc1.
    { by destruct ev as [| | | | | | | | |? [?|]| |]. }
    destruct (IH _ H1 Hnc1) as (I1 & I2 & Ip & Ik & Ie). clear IH.
    rewrite Hnc1 in Hg.
    rewrite !bind_app. unfold pipeline_errors. rewrite omap_app.
    fold (pipeline_errors tr). rewrite Ie. simpl. rewrite !app_nil_r.
    split; [|split; [|split; [|split]]].
    + intros e [He|He]%elem_of_app; [auto|].
      destruct ev as [| |se| | | | | | | | |]; simpl in He;
        try (by apply elem_of_nil in He);
        try (by apply list_elem_of_singleton in He as ->).
      destruct Hg as [Hal Hgd]. rewrite Hal in He.
      apply list_elem_of_singleton in He as ->.
      by destruct se.
    + intros e [He|He]%elem_of_app; [auto|].
      destruct ev as [| | | |se| | | | | | |]; simpl in He;
        try (by apply elem_of_nil in He);
        try (by apply list_elem_of_singleton in He as ->).
      destruct Hg as [Hal Hgd]. rewrite Hal in He.
      apply list_elem_of_singleton in He as ->.
      by destruct se.
    + intros [He|He]%elem_of_app; [auto|].
      destruct ev as [pe| | | | | | | | | | |]; simpl in He;
        try (by apply elem_of_nil in He);
        try (by apply list_elem_of_singleton in He).
      destruct Hg as [Hal Hgd]. rewrite Hal in He.
      apply list_elem_of_singleton in He as <-. done.
    + intros c [He|He]%elem_of_app; [by eapply Ik|].
      destruct ev as [| | | | | | | | | |ke|]; simpl in He;
        try (by apply elem_of_nil in He);
        try (by apply list_elem_of_singleton in He).
      destruct Hg as [Hal Hgd]. rewrite Hal in He.
      apply list_elem_of_singleton in He as <-. done.
    + by destruct ev as [| | | | | | | | |? [?|]| |].
Qed.

Lemma producer_closed_all_sent strings tr st :
  exec producer_step (producer strings).1 tr = Some st →
  p_closed st = true → PCtxDone ∉ tr →
  producer_sends tr = strings ∧ p_pc st = PExited.
Proof.
  intros (sent & Hs & Htr & Hc)%producer_run_shape Hcl Hno.
  rewrite Hcl in Hc. symmetry in Hc. apply bool_decide_eq_true in Hc.
  unfold producer_tail in Htr. rewrite Hc in Htr.
  destruct (p_rest st) as [|x rest] eqn:Hr.
  - rewrite app_nil_r in Hs. subst.
    by rewrite producer_sends_app, producer_sends_map, app_nil_r.
  - exfalso. apply Hno. subst tr. apply elem_of_app. right. left.
Qed.

Lemma sink_done_logged tr st :
  exec sink_step sink_init tr = Some st → k_pc st = KReturned →
  (∀ c, KCtxDone c ∉ tr) →
  last (k_effects st) = Some (KLog "done").
Proof.
  intros Hrun Hret Hno.
  destruct (sink_run_returned _ _ _ Hrun eq_refl Hret) as (tr' & ev & -> & Hf).
  apply exec_snoc in Hrun as (s1 & _ & Hstep).
  destruct ev as [c|[?|]|[?|]]; try done.
  - exfalso. apply (Hno c). apply elem_of_app. right. left.
  - revert Hstep. unfold sink_step. destruct (k_pc s1); [|done].
    intros [= <-]. simpl. by rewrite last_snoc.
Qed.

End QuietMain.

(** *** What the two transforms make of a list *)

Section TransformLists.
Variables ToLower Title : string → string.

Lemma lefts_cons {A B : Type} (x : A + B) l :
  lefts (x :: l) = match x with inl a => a :: lefts l | inr _ => lefts l end.
Proof. by destruct x. Qed.

Lemma rights_cons {A B : Type} (x : A + B) l :
  rights (x :: l) = match x with inl _ => rights l | inr b => b :: rights l end.
Proof. by destruct x. Qed.

Lemma lefts_perm {A B : Type} (l1 l2 : list (A + B)) :
  l1 ≡ₚ l2 → lefts l1 ≡ₚ lefts l2.
Proof. intros H. unfold lefts. by rewrite H. Qed.

Lemma transformA_outcomes (l : list string) :
  lefts (outcome ∘ transformA ToLower <$> l) = ToLower <$> l
  ∧ rights (outcome ∘ transformA ToLower <$> l) = [].
Proof.
  induction l as [|x l [IH1 IH2]]; [done|].
  rewrite !fmap_cons, lefts_cons, rights_cons, IH1, IH2. done.
Qed.

Lemma transformB_outcomes (l : list string) :
  lefts (outcome ∘ transformB Title <$> l)
  = Title <$> filter (λ s, s ≠ "foo") l
  ∧ rights (outcome ∘ transformB Title <$> l)
    = replicate (length (filter (λ s, s = "foo") l)) "oh no".
Proof.
  induction l as [|x l [IH1 IH2]]; [done|].
  rewrite !fmap_cons, lefts_cons, rights_cons, IH1, IH2, !filter_cons.
  unfold compose, transformB, outcome.
  destruct (decide (x = "foo")) as [->|Hne]; simpl.
  - done.
  - by rewrite decide_True by done.
Qed.

End TransformLists.

(** *** main on any input *)

Section MainOnAnyInput.
Variables ToLower Title : string → string.

Local Abbreviation gstep := (pipeline_step ToLower Title).

(** X6.  Whatever the input and the interleaving, cancelled or not, the
    results the sink has received are title-cased lower-cased items of the
    input other than those that lower-case to "foo", none more often than
    the input has it, and the errors it has received are at most one
    "oh no" for each item that lower-cases to "foo". *)
Theorem sink_receives_only_what_the_input_yields
    (strings : list string) (g0 : Pipeline) (tr : list PipelineEvent)
    (g : Pipeline) :
  pipeline_start strings = Some g0 →
  exec gstep g0 tr = Some g →
  pipeline_results tr
    ⊆+ Title <$> filter (λ s, s ≠ "foo") (ToLower <$> strings)
  ∧ pipeline_errors tr
    ⊆+ replicate (length (filter (λ s, s = "foo") (ToLower <$> strings)))
                 "oh no".
Proof.
  intros Hstart Hrun.
  destruct (pipeline_delivers_outcomes ToLower Title _ _ _ _ Hstart Hrun)
    as [Hres Herr].
  destruct (transformA_outcomes ToLower strings) as [HA1 HA2].
  rewrite HA1, HA2 in Herr. rewrite HA1 in Hres.
  destruct (transformB_outcomes Title (ToLower <$> strings)) as [HB1 HB2].
  rewrite HB1 in Hres. rewrite HB2 in Herr. done.
Qed.

(** The sink has returned and the context is not cancelled: the producer
    and both stages have run to their end, and no result was lost on the
    way. *)
Lemma pipeline_done_quiet strings g0 tr g :
  pipeline_start strings = Some g0 →
  exec gstep g0 tr = Some g →
  k_pc (g_sink g) = KReturned →
  g_cancelled g = false →
  pipeline_results tr
    ≡ₚ Title <$> filter (λ s, s ≠ "foo") (ToLower <$> strings)
  ∧ p_pc (g_producer g) = PExited
  ∧ st_pc (g_step1 g) = SExited
  ∧ st_pc (g_step2 g) = SExited.
Proof.
  intros Hstart Hrun Hret Hnc.
  pose proof (pipeline_links_run ToLower Title _ _ _ _ Hstart Hrun)
    as (L1 & L2 & L3 & _).
  destruct (pipeline_quiet_run ToLower Title _ _ _ Hrun Hnc)
    as (Q1 & Q2 & Qp & _).
  injection Hstart as <-.
  destruct (pipeline_run_components _ _ _ _ _ Hrun)
    as (Hp & H1 & H2 & _). simpl in Hp, H1, H2.
  assert (1 ≤ limit)%Z as HK by (unfold limit; lia).
  assert (st_out_closed (g_step2 g) = true) as Hc2.
  { destruct (L3 Hret) as [?|?]; [congruence|done]. }
  destruct (stage_closed_quiet _ limit _ _ HK H2 Q2 Hc2) as (Hpc2 & _ & S2).
  assert (st_out_closed (g_step1 g) = true) as Hc1.
  { apply L2. by rewrite Hpc2. }
  destruct (stage_closed_quiet _ limit _ _ HK H1 Q1 Hc1) as (Hpc1 & _ & S1).
  assert (p_closed (g_producer g) = true) as Hcp.
  { apply L1. by rewrite Hpc1. }
  destruct (producer_closed_all_sent _ _ _ Hp Hcp Qp) as [Hsent Hpcp].
  split; [|done].
  rewrite step2results_link.
  etrans; [apply lefts_perm, S2|]. rewrite step1results_link.
  etrans; [apply lefts_perm, fmap_Permutation, lefts_perm, S1|].
  rewrite readStream_link, Hsent.
  rewrite (proj1 (transformA_outcomes ToLower strings)).
  by rewrite (proj1 (transformB_outcomes Title (ToLower <$> strings))).
Qed.

(** X7.  When the sink has returned and the context is not cancelled, the
    program has run its course: the producer and both stages have exited,
    the sink has received, as a multiset, exactly the title-cased
    lower-cased items that do not lower-case to "foo", it has received no
    error, its last log line is "done", and [main] has not returned yet.
    An error for an item "foo" can still sit in Merge then: it is never
    reported. *)
Theorem sink_done_has_every_result
    (strings : list string) (g0 : Pipeline) (tr : list PipelineEvent)
    (g : Pipeline) :
  pipeline_start strings = Some g0 →
  exec gstep g0 tr = Some g →
  k_pc (g_sink g) = KReturned →
  g_cancelled g = false →
  pipeline_results tr
    ≡ₚ Title <$> filter (λ s, s ≠ "foo") (ToLower <$> strings)
  ∧ pipeline_errors tr = []
  ∧ last (k_effects (g_sink g)) = Some (KLog "done")
  ∧ p_pc (g_producer g) = PExited
  ∧ st_pc (g_step1 g) = SExited
  ∧ st_pc (g_step2 g) = SExited
  ∧ g_exited g = false.
Proof.
  intros Hstart Hrun Hret Hnc.
  destruct (pipeline_done_quiet _ _ _ _ Hstart Hrun Hret Hnc)
    as (Hres & Hpcp & Hpc1 & Hpc2).
  destruct (pipeline_quiet_run ToLower Title _ _ _ Hrun Hnc)
    as (_ & _ & _ & Qk & Qe).
  pose proof (pipeline_links_run ToLower Title _ _ _ _ Hstart Hrun)
    as (_ & _ & _ & L4).
  split; [done|]. split; [done|]. split.
  { injection Hstart as <-.
    destruct (pipeline_run_components _ _ _ _ _ Hrun) as (_ & _ & _ & _ & Hk).
    by eapply sink_done_logged. }
  split; [done|]. split; [done|]. split; [done|].
  destruct (g_exited g); [|done]. by rewrite L4 in Hnc.
Qed.

End MainOnAnyInput.

Lemma sink_receives_only_what_the_input_yields_witness :
  pipeline_results run_cancelled_early
    ⊆+ ascii_Title <$> filter (λ s, s ≠ "foo") (ascii_ToLower <$> source).
Proof.
  refine (proj1 (sink_receives_only_what_the_input_yields
                   ascii_ToLower ascii_Title source
                   (MkPipeline (MkProducer PRange source false)
                      step step (Merge 2) sink_init false false)
                   run_cancelled_early _ _ _)).
  - reflexivity.
  - vm_compute. reflexivity.
Defined.

Lemma sink_done_has_every_result_witness :
  pipeline_results run_error_unreported
    ≡ₚ ascii_Title <$> filter (λ s, s ≠ "foo") (ascii_ToLower <$> source)
  ∧ pipeline_errors run_error_unreported = [].
Proof.
  assert (∃ g, exec (pipeline_step ascii_ToLower ascii_Title)
                 (MkPipeline (MkProducer PRange source false)
                    step step (Merge 2) sink_init false false)
                 run_error_unreported = Some g
               ∧ k_pc (g_sink g) = KReturned ∧ g_cancelled g = false)
    as (g & Hrun & Hret & Hnc).
  { eexists. split; [vm_compute; reflexivity|]. split; reflexivity. }
  destruct (sink_done_has_every_result ascii_ToLower ascii_Title source
              _ run_error_unreported g eq_refl Hrun Hret Hnc)
    as (Hres & Herr & _).
  split; [exact Hres|exact Herr].
Defined.

(** *** sink: what it has done after a run *)

(** X8.  Along any run of the sink, what it has logged and the calls of
    [cancelFunc] it has made are, in order, those of the events it took: a
    line for each result, for each error other than nil, for the close of
    the results stream and for the cancellation observed, nothing for a nil
    error.  So it has called [cancelFunc] once for every error other than
    nil it received, also for a second or third one, and never otherwise. *)
Theorem sink_cancels_once_per_error (st st' : SinkState)
    (tr : list SinkEvent) :
  exec sink_step st tr = Some st' →
  k_effects st' = k_effects st ++ (tr ≫= sink_event_effects)
  ∧ sink_cancels st' = sink_cancels st + length (sink_errors tr).
Proof.
  revert st. induction tr as [|ev tr IH]; intros st Hrun.
  - simpl in Hrun. simplify_eq. simpl. rewrite app_nil_r. split; [done|lia].
  - simpl in Hrun. destruct (sink_step ev st) as [s1|] eqn:Hstep; [|done].
    destruct (IH _ Hrun) as [He Hc]. rewrite He, Hc, bind_cons.
    revert Hstep. unfold sink_step. destruct (k_pc st) eqn:Hpc; [|done].
    destruct ev as [c|[m|]|[v|]]; intros [= <-]; simpl;
      rewrite <- ?(assoc (++)); (split; [done|]).
    all: unfold sink_cancels; simpl; rewrite ?omap_app, ?length_app; simpl;
      lia.
Qed.

Lemma sink_cancels_once_per_error_witness :
  sink_cancels (MkSink KSelect
                  [KLog "error:  a"; KCancel; KLog "error:  b"; KCancel])
  = sink_cancels sink_init
    + length (sink_errors [KRecvErr (Some "a"); KRecvErr None;
                           KRecvErr (Some "b")]).
Proof.
  refine (proj2 (sink_cancels_once_per_error sink_init _
                   [KRecvErr (Some "a"); KRecvErr None; KRecvErr (Some "b")]
                   _)).
  reflexivity.
Defined.

(** *** step, cancelled or not *)

(** X9.  A stage, cancelled or not, invents and repeats nothing: what it
    has sent on its two channels is, as a multiset, part of the outcomes of
    [fn] on the items it has read, each item counting once; an item read
    gives at most one value or one error. *)
Theorem step_sends_only_outcomes_of_what_it_read {In Out : Type}
    `{!EqDecision Out} (fn : In → Out * error) (K : Z)
    (tr : list StageEvent) (st : @StageState In Out) :
  exec (stage_step fn) (stage_start K) tr = Some st →
  stage_sent tr ⊆+ outcome ∘ fn <$> stage_recvs tr
  ∧ length (stage_sent tr) ≤ length (stage_recvs tr).
Proof.
  intros Hrun.
  assert (stage_sent tr ⊆+ outcome ∘ fn <$> stage_recvs tr) as Hsub.
  { pose proof (stage_run_flow fn _ _ _ Hrun) as Hflow. simpl in Hflow.
    trans (stage_sent tr ++ stage_pending fn st);
      [by apply submseteq_inserts_r|done]. }
  split; [done|]. apply submseteq_length in Hsub.
  by rewrite length_fmap in Hsub.
Qed.

Lemma step_sends_only_outcomes_of_what_it_read_witness :
  length (stage_sent [SRecv (Some "FOO"); SAcquireFailed;
                      SRecv (Some "BAR"); @SAcquired string string])
  ≤ length (stage_recvs [SRecv (Some "FOO"); SAcquireFailed;
                         SRecv (Some "BAR"); @SAcquired string string]).
Proof.
  refine (proj2 (step_sends_only_outcomes_of_what_it_read
                   (transformA ascii_ToLower) limit
                   [SRecv (Some "FOO"); SAcquireFailed; SRecv (Some "BAR");
                    SAcquired] _ _)).
  reflexivity.
Defined.

(** *** main on an input without "foo" *)

Section MainWithoutErrors.
Variables ToLower Title : string → string.

Local Abbreviation gstep := (pipeline_step ToLower Title).

(** No item of the input lower-cases to "foo": [transformB] fails on
    none of them. *)
Lemma filter_without_foo (strings : list string) :
  (∀ s, s ∈ strings → ToLower s ≠ "foo") →
  filter (λ s, s ≠ "foo") (ToLower <$> strings) = ToLower <$> strings
  ∧ filter (λ s, s = "foo") (ToLower <$> strings) = [].
Proof.
  induction strings as [|x l IH]; [done|]. intros Hno.
  destruct IH as [IH1 IH2].
  { intros s Hs. apply Hno. by right. }
  assert (ToLower x ≠ "foo") as Hx by (apply Hno; left).
  rewrite fmap_cons, !filter_cons, IH1, IH2.
  rewrite decide_True by done. by rewrite decide_False by auto.
Qed.

Lemma pipeline_without_foo_no_error strings g0 tr g :
  (∀ s, s ∈ strings → ToLower s ≠ "foo") →
  pipeline_start strings = Some g0 → exec gstep g0 tr = Some g →
  pipeline_errors tr = [].
Proof.
  intros Hno Hstart Hrun.
  destruct (pipeline_delivers_outcomes ToLower Title _ _ _ _ Hstart Hrun)
    as [_ Herr].
  destruct (transformA_outcomes ToLower strings) as [HA1 HA2].
  rewrite HA1, HA2 in Herr.
  destruct (transformB_outcomes Title (ToLower <$> strings)) as [_ HB2].
  rewrite HB2, (proj2 (filter_without_foo _ Hno)) in Herr. simpl in Herr.
  by apply submseteq_nil_r in Herr.
Qed.

(** The context is then cancelled only by the [cancel()] that [main]
    defers. *)
Lemma pipeline_without_foo_cancel strings g0 tr g :
  (∀ s, s ∈ strings → ToLower s ≠ "foo") →
  pipeline_start strings = Some g0 → exec gstep g0 tr = Some g →
  g_cancelled g = g_exited g.
Proof.
  intros Hno Hstart. revert g.
  induction tr as [|ev tr IH] using rev_ind; intros g Hrun.
  - injection Hstart as <-. simpl in Hrun. by simplify_eq.
  - pose proof (pipeline_without_foo_no_error _ _ _ _ Hno Hstart Hrun) as He.
    apply exec_snoc in Hrun as (g1 & H1 & Hstep).
    destruct (pipeline_step_cancelled _ _ _ _ _ Hstep) as [Hc _].
    destruct (pipeline_step_guards _ _ _ _ _ Hstep) as (_ & Hex & Hex').
    rewrite Hc, Hex', (IH _ H1), Hex.
    unfold pipeline_errors in He. rewrite omap_app in He.
    apply app_eq_nil in He as [_ He].
    by destruct ev as [| | | | | | | | |? [?|]| |].
Qed.

Lemma pipeline_quiet_clean strings g0 tr g :
  (∀ s, s ∈ strings → ToLower s ≠ "foo") →
  pipeline_start strings = Some g0 → exec gstep g0 tr = Some g →
  g_cancelled g = false →
  st_panicked (g_step1 g) = false ∧ st_panicked (g_step2 g) = false
  ∧ (k_pc (g_sink g) = KReturned →
       pipeline_results tr ≡ₚ Title ∘ ToLower <$> strings
       ∧ last (k_effects (g_sink g)) = Some (KLog "done")).
Proof.
  intros Hno Hstart Hrun Hnc.
  destruct (pipeline_quiet_run ToLower Title _ _ _ Hrun Hnc)
    as (Q1 & Q2 & _).
  assert (1 ≤ limit)%Z as HK by (unfold limit; lia).
  split; [|split].
  - injection Hstart as <-.
    destruct (pipeline_run_components _ _ _ _ _ Hrun) as (_ & H1 & _).
    by destruct (quiet_inv_run _ limit _ _ HK H1 Q1) as (_ & _ & _ & Hp & _).
  - injection Hstart as <-.
    destruct (pipeline_run_components _ _ _ _ _ Hrun) as (_ & _ & H2 & _).
    by destruct (quiet_inv_run _ limit _ _ HK H2 Q2) as (_ & _ & _ & Hp & _).
  - intros Hret.
    destruct (pipeline_done_quiet ToLower Title _ _ _ _
                Hstart Hrun Hret Hnc) as (Hres & _).
    rewrite (proj1 (filter_without_foo _ Hno)) in Hres.
    split; [by rewrite list_fmap_compose|].
    destruct (pipeline_quiet_run ToLower Title _ _ _ Hrun Hnc)
      as (_ & _ & _ & Qk & _).
    injection Hstart as <-.
    destruct (pipeline_run_components _ _ _ _ _ Hrun) as (_ & _ & _ & _ & Hk).
    by eapply sink_done_logged.
Qed.

(** X11.  On an input none of whose items lower-cases to "foo", whatever
    the interleaving: the sink receives no error, the context is cancelled
    only when [main] returns, no goroutine of the two stages panics, and
    when the sink has returned it has received, as a multiset, the
    title-cased lower-cased form of every item of the input and its last
    log line is "done". *)
Theorem main_without_foo_runs_clean
    (strings : list string) (g0 : Pipeline) (tr : list PipelineEvent)
    (g : Pipeline) :
  (∀ s, s ∈ strings → ToLower s ≠ "foo") →
  pipeline_start strings = Some g0 →
  exec gstep g0 tr = Some g →
  pipeline_errors tr = []
  ∧ g_cancelled g = g_exited g
  ∧ st_panicked (g_step1 g) = false
  ∧ st_panicked (g_step2 g) = false
  ∧ (k_pc (g_sink g) = KReturned →
       pipeline_results tr ≡ₚ Title ∘ ToLower <$> strings
       ∧ last (k_effects (g_sink g)) = Some (KLog "done")).
Proof.
  intros Hno Hstart Hrun.
  split; [by eapply pipeline_without_foo_no_error|].
  pose proof (pipeline_without_foo_cancel _ _ _ _ Hno Hstart Hrun) as Hc.
  split; [done|].
  destruct (g_exited g) eqn:Hex.
  - destruct tr as [|ev tr _] using rev_ind.
    { injection Hstart as <-. simpl in Hrun. by simplify_eq. }
    apply exec_snoc in Hrun as (g1 & H1 & Hstep).
    destruct (pipeline_step_guards _ _ _ _ _ Hstep) as (_ & Hex1 & Hex').
    rewrite Hex in Hex'.
    destruct ev; try done.
    pose proof (pipeline_without_foo_cancel _ _ _ _ Hno Hstart H1) as Hc1.
    rewrite Hex1 in Hc1.
    destruct (pipeline_quiet_clean _ _ _ _ Hno Hstart H1 Hc1)
      as (P1 & P2 & Hdone).
    destruct (pipeline_step_components _ _ _ _ _ Hstep)
      as (_ & E1 & E2 & _ & Ek).
    simpl in E1, E2, Ek. simplify_eq. rewrite <- E1, <- E2, <- Ek.
    split; [done|]. split; [done|].
    unfold pipeline_results. rewrite omap_app. simpl. rewrite app_nil_r.
    done.
  - by eapply pipeline_quiet_clean.
Qed.

End MainWithoutErrors.

(** *** main can run to its end *)

Section OneByOneFacts.
Variables ToLower Title : string → string.

Local Abbreviation gstep := (pipeline_step ToLower Title).

Lemma lookup_last_worker {A : Type} (k : nat) (x y : A) :
  (replicate k x ++ [y]) !! k = Some y.
Proof. apply list_lookup_middle. by rewrite length_replicate. Qed.

Lemma insert_last_worker {A : Type} (k : nat) (x y z : A) :
  <[k:=z]> (replicate k x ++ [y]) = replicate k x ++ [z].
Proof.
  rewrite insert_app_r_alt by (rewrite length_replicate; lia).
  by rewrite length_replicate, Nat.sub_diag.
Qed.

Lemma Acquire_one_free :
  Acquire 1 (MkWeighted limit 0) = Some (MkWeighted limit 1).
Proof. reflexivity. Qed.

Lemma Acquire_all_free :
  Acquire limit (MkWeighted limit 0) = Some (MkWeighted limit limit).
Proof. reflexivity. Qed.

Lemma Release_one_held : Release 1 (MkWeighted limit 1) = MkWeighted limit 0.
Proof. reflexivity. Qed.

Lemma transformB_other (x : string) :
  x ≠ "foo" → transformB Title x = (Title x, None).
Proof. intros Hx. unfold transformB. by rewrite decide_False. Qed.

(** One item goes through both stages to the sink and leaves the program
    as it was, with one more exited worker in each stage and one more line
    logged. *)
Lemma item_run_exec k s rest logged :
  ToLower s ≠ "foo" →
  exec gstep (between_items k (s :: rest) logged)
       (item_run ToLower Title k s)
  = Some (between_items (S k) rest (logged ++ [sink_line ToLower Title s])).
Proof.
  intros Hs. unfold between_items, idle_stage, item_run, sink_line.
  rewrite !replicate_S_end.
  repeat first
    [ rewrite decide_True by done
    | rewrite (transformB_other _ Hs)
    | rewrite lookup_last_worker
    | rewrite insert_last_worker
    | rewrite Acquire_one_free
    | rewrite Release_one_held
    | progress cbn ].
  reflexivity.
Qed.

Lemma items_run_exec strings k logged :
  (∀ s, s ∈ strings → ToLower s ≠ "foo") →
  exec gstep (between_items k strings logged)
       (items_run ToLower Title k strings)
  = Some (between_items (k + length strings) []
            (logged ++ (sink_line ToLower Title <$> strings))).
Proof.
  revert k logged. induction strings as [|s rest IH]; intros k logged Hno.
  - simpl. by rewrite Nat.add_0_r, app_nil_r.
  - cbn [items_run]. rewrite exec_app, item_run_exec by (apply Hno; left).
    cbn [mbind option_bind]. rewrite IH by (intros x Hx; apply Hno; by right).
    rewrite fmap_cons, <- (assoc (++)). simpl.
    by rewrite Nat.add_succ_r.
Qed.

Lemma closing_run_exec k logged :
  exec gstep (between_items k [] logged) closing_run
  = Some (MkPipeline (MkProducer PExited [] true)
            (closed_stage k) (closed_stage k) (Merge 2)
            (MkSink KReturned (logged ++ [KLog "done"])) true true).
Proof.
  unfold between_items, idle_stage, closing_run, closed_stage.
  repeat first [ rewrite Acquire_all_free | progress cbn ].
  reflexivity.
Qed.

Lemma items_run_results strings k :
  pipeline_results (items_run ToLower Title k strings)
  = Title ∘ ToLower <$> strings.
Proof.
  revert k. induction strings as [|s rest IH]; intros k; [done|].
  cbn [items_run]. unfold pipeline_results in *.
  rewrite omap_app, IH. done.
Qed.

(** X12.  On an input none of whose items lower-cases to "foo" the
    program can run to its end: taking the items one at a time is a run of
    the program from its start to the return of [main], in which the sink
    receives no error and receives and logs the title-cased lower-cased
    form of every item, in the order of the input, then logs "done", and
    the producer and both stages have exited. *)
Theorem main_without_foo_can_finish
    (strings : list string) (g0 : Pipeline) :
  (∀ s, s ∈ strings → ToLower s ≠ "foo") →
  pipeline_start strings = Some g0 →
  ∃ g, exec gstep g0 (one_by_one ToLower Title strings) = Some g
       ∧ g_exited g = true
       ∧ pipeline_results (one_by_one ToLower Title strings)
         = Title ∘ ToLower <$> strings
       ∧ pipeline_errors (one_by_one ToLower Title strings) = []
       ∧ k_effects (g_sink g)
         = (sink_line ToLower Title <$> strings) ++ [KLog "done"]
       ∧ p_pc (g_producer g) = PExited
       ∧ st_pc (g_step1 g) = SExited
       ∧ st_pc (g_step2 g) = SExited.
Proof.
  intros Hno [= <-]. eexists. split.
  - unfold one_by_one. rewrite exec_app.
    change (MkPipeline (MkProducer PRange strings false) step step
              (Merge 2) sink_init false false)
      with (between_items 0 strings []).
    rewrite items_run_exec by done. cbn [mbind option_bind].
    apply closing_run_exec.
  - cbn. repeat split.
    + unfold one_by_one, pipeline_results. rewrite omap_app.
      fold (pipeline_results (items_run ToLower Title 0 strings)).
      rewrite items_run_results. cbn. by rewrite app_nil_r.
    + unfold one_by_one, pipeline_errors. rewrite omap_app.
      generalize 0. induction strings as [|s rest IH]; intros k; [done|].
      cbn [items_run]. rewrite omap_app. cbn.
      apply IH. intros x Hx. apply Hno. by right.
Qed.

End OneByOneFacts.

Lemma bar_bax_without_foo :
  ∀ s, s ∈ ["BAR"; "BAX"] → ascii_ToLower s ≠ "foo".
Proof. apply Forall_forall. repeat constructor; by vm_compute. Qed.

Lemma main_without_foo_runs_clean_witness :
  pipeline_errors (one_by_one ascii_ToLower ascii_Title ["BAR"; "BAX"]) = []
  ∧ pipeline_results (one_by_one ascii_ToLower ascii_Title ["BAR"; "BAX"])
    ≡ₚ ascii_Title ∘ ascii_ToLower <$> ["BAR"; "BAX"].
Proof.
  assert (∃ g, exec (pipeline_step ascii_ToLower ascii_Title)
                 (MkPipeline (MkProducer PRange ["BAR"; "BAX"] false)
                    step step (Merge 2) sink_init false false)
                 (one_by_one ascii_ToLower ascii_Title ["BAR"; "BAX"])
               = Some g
               ∧ k_pc (g_sink g) = KReturned)
    as (g & Hrun & Hret).
  { eexists. split; [vm_compute; reflexivity|reflexivity]. }
  destruct (main_without_foo_runs_clean ascii_ToLower ascii_Title
              ["BAR"; "BAX"] _ _ g bar_bax_without_foo eq_refl Hrun)
    as (Herr & _ & _ & _ & Hdone).
  split; [exact Herr|exact (proj1 (Hdone Hret))].
Defined.

Lemma main_without_foo_can_finish_witness :
  ∃ g, exec (pipeline_step ascii_ToLower ascii_Title)
         (MkPipeline (MkProducer PRange ["BAR"; "BAX"] false)
            step step (Merge 2) sink_init false false)
         (one_by_one ascii_ToLower ascii_Title ["BAR"; "BAX"]) = Some g
       ∧ k_effects (g_sink g)
         = [KLog "sink: Bar"; KLog "sink: Bax"; KLog "done"].
Proof.
  destruct (main_without_foo_can_finish ascii_ToLower ascii_Title
              ["BAR"; "BAX"] _ bar_bax_without_foo eq_refl)
    as (g & Hrun & _ & _ & _ & Hlog & _).
  exists g. split; [exact Hrun|exact Hlog].
Defined.
